(** * Thyself extension: title store, archive, message router and bridge

    A shallow embedding of the harvesting / deduplication / retention /
    routing pipeline of the browser extension ([extension/background.js],
    [extension/content.js], [extension/bridge.js]) and of the web bridge
    ([web/lib/bridge.ts]), with the properties of its specification. *)

From Stdlib Require Import ZArith NArith List Ascii String Bool Lia Sorted.
From stdpp Require Import base decidable option list strings relations.
Import ListNotations.

Local Open Scope Z_scope.

(* ===================================================================== *)
(** * JavaScript strings and the [||] operator *)
(* ===================================================================== *)

(** A JavaScript string is a sequence of UTF-16 code units. *)
Definition jsstring := list N.

(** String literals of the source (all of them are ASCII). *)
Fixpoint str (s : string) : jsstring :=
  match s with
  | EmptyString => []
  | String a r => N_of_ascii a :: str r
  end.

(** [a || b] on numbers: [0] is falsy. *)
Definition or_num (a b : Z) : Z := if a =? 0 then b else a.

(** [a || b] on strings: [''] is falsy. *)
Definition or_str (a b : jsstring) : jsstring :=
  match a with [] => b | _ :: _ => a end.

(** [a || b] where [a] may be [undefined]. *)
Definition or_opt_num (a : option Z) (b : Z) : Z :=
  match a with Some z => or_num z b | None => b end.

Definition or_opt_str (a : option jsstring) (b : jsstring) : jsstring :=
  match a with Some s => or_str s b | None => b end.

(** Truthiness of a string. *)
Definition truthy_str (s : jsstring) : bool :=
  match s with [] => false | _ :: _ => true end.

(* ===================================================================== *)
(** * Character classes, [replace] with a class pattern, [trim] *)
(* ===================================================================== *)

(** [\s] (and the set [trim] removes): WhiteSpace and LineTerminator. *)
Definition is_space (c : N) : bool :=
  ((9 <=? c) && (c <=? 13) || (c =? 32) || (c =? 160) || (c =? 5760)
   || (8192 <=? c) && (c <=? 8202) || (c =? 8232) || (c =? 8233)
   || (c =? 8239) || (c =? 8287) || (c =? 12288) || (c =? 65279))%N.

(** The class U+0300 to U+036F: the combining diacritical marks block. *)
Definition is_combining_mark (c : N) : bool := ((768 <=? c) && (c <=? 879))%N.

(** The quote class: double quote (34), apostrophe (39), backtick (96). *)
Definition is_quote (c : N) : bool := ((c =? 34) || (c =? 39) || (c =? 96))%N.

(** [[\s\t\n\r]]: tab, line feed and carriage return are already in [\s]. *)
Definition is_space_class (c : N) : bool :=
  is_space c || (c =? 9)%N || (c =? 10)%N || (c =? 13)%N.

(** [s.replace(/[cls]/g, r)]: every code unit of the class is replaced by [r]. *)
Fixpoint replace_each (cls : N -> bool) (r : jsstring) (s : jsstring) : jsstring :=
  match s with
  | [] => []
  | c :: s' => if cls c then r ++ replace_each cls r s' else c :: replace_each cls r s'
  end.

(** The longest prefix of code units of the class is removed. *)
Fixpoint skip_class (cls : N -> bool) (s : jsstring) : jsstring :=
  match s with
  | [] => []
  | c :: s' => if cls c then skip_class cls s' else s
  end.

(** [s.replace(/[cls]+/g, r)]: scanning from the left, every maximal run of
    code units of the class is replaced by one [r]. *)
Fixpoint replace_runs_fuel (fuel : nat) (cls : N -> bool) (r : jsstring)
    (s : jsstring) : jsstring :=
  match fuel with
  | O => s
  | S fuel' =>
      match s with
      | [] => []
      | c :: s' =>
          if cls c then r ++ replace_runs_fuel fuel' cls r (skip_class cls s')
          else c :: replace_runs_fuel fuel' cls r s'
      end
  end.

Definition replace_runs (cls : N -> bool) (r s : jsstring) : jsstring :=
  replace_runs_fuel (length s) cls r s.

(** [String.prototype.trim]. *)
Definition trimStart (s : jsstring) : jsstring := skip_class is_space s.
Definition trimEnd (s : jsstring) : jsstring := rev (skip_class is_space (rev s)).
Definition trim (s : jsstring) : jsstring := trimEnd (trimStart s).

(* ===================================================================== *)
(** * The host runtime: case mapping and Unicode normalization *)
(* ===================================================================== *)

Inductive NormalizationForm := NFC | NFD | NFKC | NFKD.

(** [String.prototype.toLowerCase], [String.prototype.normalize] and
    [new Date(ms).toISOString()] are provided by the JavaScript engine; the
    extension only calls them. *)
Class JSRuntime := {
  toLowerCase : jsstring -> jsstring;
  normalize : NormalizationForm -> jsstring -> jsstring;
  toISOString : Z -> jsstring
}.

(** [String(n)] for an integer [n >= 0] with at most [fuel] digits. *)
Fixpoint decimal_digits (fuel : nat) (n : Z) (acc : jsstring) : jsstring :=
  match fuel with
  | O => acc
  | S fuel' =>
      let acc' := Z.to_N (48 + n mod 10) :: acc in
      if n / 10 =? 0 then acc' else decimal_digits fuel' (n / 10) acc'
  end.

Definition String_of_num (n : Z) : jsstring := decimal_digits 20 n [].

(** [s.padStart(n, c)] for a one-unit filler [c]. *)
Definition padStart (n : nat) (c : N) (s : jsstring) : jsstring :=
  repeat c (n - length s)%nat ++ s.

(** The proleptic Gregorian date of a day number counted from 1970-01-01. *)
Definition civil_from_days (days : Z) : Z * Z * Z :=
  let z := days + 719468 in
  let era := z / 146097 in
  let doe := z - era * 146097 in
  let yoe := (doe - doe / 1460 + doe / 36524 - doe / 146096) / 365 in
  let doy := doe - (365 * yoe + yoe / 4 - yoe / 100) in
  let mp := (5 * doy + 2) / 153 in
  let d := doy - (153 * mp + 2) / 5 + 1 in
  let m := if mp <? 10 then mp + 3 else mp - 9 in
  let y := yoe + era * 400 + (if m <=? 2 then 1 else 0) in
  (y, m, d).

(** [YYYY-MM-DDTHH:mm:ss.sssZ], for instants in the years 0000 to 9999. *)
Definition iso_string (ms : Z) : jsstring :=
  let '(y, m, d) := civil_from_days (ms / 86400000) in
  let r := ms mod 86400000 in
  let p n x := padStart n 48%N (String_of_num x) in
  p 4%nat y ++ str "-" ++ p 2%nat m ++ str "-" ++ p 2%nat d ++ str "T"
    ++ p 2%nat (r / 3600000) ++ str ":" ++ p 2%nat (r / 60000 mod 60) ++ str ":"
    ++ p 2%nat (r / 1000 mod 60) ++ str "." ++ p 3%nat (r mod 1000) ++ str "Z".

(** A runtime that is exact on the Basic Latin block, on which case mapping
    only touches [A-Z] and every normalization form is the identity, and on
    the ligature U+FB01, which has the compatibility decomposition [fi] and
    no canonical decomposition. Other code units are left unchanged. *)
Definition ascii_lower (c : N) : N :=
  if ((65 <=? c) && (c <=? 90))%N then (c + 32)%N else c.

Definition compat_decompose (c : N) : jsstring :=
  if (c =? 64257)%N then [102; 105]%N else [c].

Definition latin_normalize (f : NormalizationForm) (s : jsstring) : jsstring :=
  match f with
  | NFKD | NFKC => flat_map compat_decompose s
  | NFD | NFC => s
  end.

#[export] Instance latin_runtime : JSRuntime :=
  {| toLowerCase := map ascii_lower; normalize := latin_normalize;
     toISOString := iso_string |}.

(* ===================================================================== *)
(** * normalizeTitle and hashStr (background.js) *)
(* ===================================================================== *)

Section Normalization.
Context {rt : JSRuntime}.

(** [normalizeTitle(t)], for a string [t]. *)
Definition normalizeTitle (t : jsstring) : jsstring :=
  trim
    (replace_runs is_quote []
      (replace_runs is_space_class (str " ")
        (replace_each is_combining_mark []
          (normalize NFKD (toLowerCase t))))).
End Normalization.

(** ToInt32, as performed by [<<] and [|= 0]. *)
Definition to_int32 (z : Z) : Z := (z + 2147483648) mod 4294967296 - 2147483648.

(** ToUint32, as performed by [>>> 0]. *)
Definition to_uint32 (z : Z) : Z := z mod 4294967296.

(** One round of the loop: [h = ((h << 5) + h) + s.charCodeAt(i); h |= 0]. *)
Definition djb2_step (h : Z) (c : N) : Z :=
  to_int32 ((to_int32 (Z.shiftl h 5) + h) + Z.of_N c).

Definition hex_digit (d : Z) : N :=
  if d <? 10 then Z.to_N (48 + d) else Z.to_N (87 + d).

(** [Number.prototype.toString(16)] on a non-negative integer below 16^fuel. *)
Fixpoint to_hex (fuel : nat) (z : Z) (acc : jsstring) : jsstring :=
  match fuel with
  | O => acc
  | S fuel' =>
      let acc' := hex_digit (z mod 16) :: acc in
      if z / 16 =? 0 then acc' else to_hex fuel' (z / 16) acc'
  end.

Definition hashStr (s : jsstring) : jsstring :=
  to_hex 8 (to_uint32 (fold_left djb2_step s 5381)) [].


(* ===================================================================== *)
(** * Data model (background.js, header comment) *)
(* ===================================================================== *)

(** The payload a content script sends with [LCL_ADD_EVENT]
    (content.js, [send({...})]); every property may be missing. *)
Record Payload := {
  pl_ts : option Z;
  pl_type : option jsstring;
  pl_platform : option jsstring;
  pl_variant : option jsstring;
  pl_videoId : option jsstring;
  pl_title : option jsstring;
  pl_channel : option jsstring;
  pl_length : option jsstring;
  pl_badges : list jsstring;
  pl_position : option Z;
  pl_href : option jsstring;
  pl_page : option jsstring
}.

(** The compact event built by [sanitizeEvent]. *)
Record Event := {
  ev_ts : Z;
  ev_type : jsstring;
  ev_title : jsstring;
  ev_videoId : option jsstring;
  ev_href : option jsstring;
  ev_page : option jsstring;
  ev_platform : jsstring
}.

(** An element of [titles_batch]: [{ id, title, ts, platform }]. *)
Record TitleEntry := {
  e_id : jsstring;
  e_title : jsstring;
  e_ts : Z;
  e_platform : jsstring
}.

(** Values a property read can give on a stored entry. *)
Inductive jsval := JUndefined | JNum (z : Z) | JStr (s : jsstring).

(** [e[k]] on an element of [titles_batch]: the object literal in
    [updateTitlesBatchFromEvent] has the keys id, title, ts and platform,
    and the spread that refreshes [ts] keeps them. *)
Definition entry_prop (e : TitleEntry) (k : string) : jsval :=
  if String.eqb k "id" then JStr (e_id e)
  else if String.eqb k "title" then JStr (e_title e)
  else if String.eqb k "ts" then JNum (e_ts e)
  else if String.eqb k "platform" then JStr (e_platform e)
  else JUndefined.

(** [profile_histogram]: [{ t0, t1, updated_at }]. *)
Record Profile := {
  t0 : option (list (jsstring * Z));
  t1 : option (list (jsstring * Z));
  updated_at : option Z
}.

(** An element of [pieces_archive], and the [piece] of [APPEND_PIECE]. *)
Record Piece := {
  p_date : option jsstring;
  p_title : option jsstring;
  p_source : option jsstring;
  p_url : option jsstring;
  p_image_url : option jsstring;
  p_imageUrl : option jsstring
}.

(** The keys of [chrome.storage.local]; [None] is a key that was never set
    (for [profile_histogram] also the stored [null]). Only the service
    worker writes these keys, and it writes arrays of objects: the guards of
    the source against other shapes ([Array.isArray], [x && ...]) always
    pass and are left out. Timestamps are integers, in milliseconds. *)
Record Store := {
  titles_batch : option (list TitleEntry);
  profile_histogram : option Profile;
  pieces_archive : option (list Piece);
  last_webapp_sync_at : option Z
}.

Definition empty_store : Store :=
  {| titles_batch := None; profile_histogram := None;
     pieces_archive := None; last_webapp_sync_at := None |}.

Definition BATCH_RETENTION_DAYS : Z := 14.
Definition ARCHIVE_MAX : nat := 365.

#[export] Instance TitleEntry_eq_dec : EqDecision TitleEntry.
Proof. solve_decision. Defined.

(* ===================================================================== *)
(** * sanitizeEvent *)
(* ===================================================================== *)

(** [ALLOWED_TYPES.has(p.type)]. *)
Definition allowed_type (t : option jsstring) : bool :=
  match t with
  | Some s => bool_decide (s = str "feed_video") || bool_decide (s = str "shorts_video")
  | None => false
  end.

(** [sanitizeEvent(p)], with [now] the value of [Date.now()]. *)
Definition sanitizeEvent (now : Z) (p : option Payload) : option Event :=
  match p with
  | None => None
  | Some p =>
      if negb (allowed_type (pl_type p)) then None
      else
        let title := trim (or_opt_str (pl_title p) []) in
        match title with
        | [] => None
        | _ :: _ =>
            Some {| ev_ts := or_opt_num (pl_ts p) now;
                    ev_type := default [] (pl_type p);
                    ev_title := title;
                    ev_videoId := pl_videoId p;
                    ev_href := pl_href p;
                    ev_page := pl_page p;
                    ev_platform := or_opt_str (pl_platform p) (str "youtube") |}
        end
  end.

(* ===================================================================== *)
(** * The Title Store update *)
(* ===================================================================== *)

Section TitleStore.
Context {rt : JSRuntime}.

(** [now - BATCH_RETENTION_DAYS * 24 * 60 * 60 * 1000]. *)
Definition keepAfter (now : Z) : Z :=
  now - BATCH_RETENTION_DAYS * 24 * 60 * 60 * 1000.

(** [titles_batch.filter(x => (x && x.ts >= keepAfter))]. *)
Definition cleaned_titles (now : Z) (titles : list TitleEntry) : list TitleEntry :=
  filter (fun x => keepAfter now <= e_ts x) titles.

(** The timestamp an event is recorded with: [evt.ts || now]. *)
Definition sighting_ts (now : Z) (evt : Event) : Z := or_num (ev_ts evt) now.

(** The entry appended for a first sighting. *)
Definition new_entry (now : Z) (evt : Event) : TitleEntry :=
  {| e_id := hashStr (normalizeTitle (ev_title evt));
     e_title := ev_title evt;
     e_ts := sighting_ts now evt;
     e_platform := or_str (ev_platform evt) (str "youtube") |}.

(** [{ ...x, ts: Math.max(x.ts || 0, evt.ts || now) }]. *)
Definition refreshed_entry (now : Z) (evt : Event) (x : TitleEntry) : TitleEntry :=
  {| e_id := e_id x; e_title := e_title x;
     e_ts := Z.max (or_num (e_ts x) 0) (sighting_ts now evt);
     e_platform := e_platform x |}.

(** The list [updateTitlesBatchFromEvent(evt)] persists, computed from the
    list it loaded: the body of the function between its [getStore] and
    its [setStore]. The loop refreshes the first entry with the id and
    stops; without one, the new entry is pushed. *)
Definition updatedTitles (now : Z) (evt : Event) (titles : list TitleEntry)
    : list TitleEntry :=
  let cleaned := cleaned_titles now titles in
  let norm := normalizeTitle (ev_title evt) in
  match norm with
  | [] => cleaned
  | _ :: _ =>
      let id := hashStr norm in
      match list_find (fun x => e_id x = id) cleaned with
      | Some (i, x) => <[ i := refreshed_entry now evt x ]> cleaned
      | None => cleaned ++ [new_entry now evt]
      end
  end.
End TitleStore.

(** [ackTitles]: [titles_batch.filter(x => x && !drop.has(x.id))]. *)
Definition ackedTitles (ids : list jsstring) (titles : list TitleEntry) : list TitleEntry :=
  filter (fun x => e_id x ∉ ids) titles.

(* ===================================================================== *)
(** * The archive *)
(* ===================================================================== *)

(** The object [appendPiece] puts in front of the archive; [today] is
    [new Date().toISOString().slice(0, 10).replaceAll('-', '/')]. *)
Definition storedPiece (today : jsstring) (piece : Piece) : Piece :=
  let d := or_opt_str (p_date piece) today in
  let img := or_opt_str (p_image_url piece) (or_opt_str (p_imageUrl piece) []) in
  {| p_date := Some d;
     p_title := Some (or_opt_str (p_title piece) []);
     p_source := Some (or_opt_str (p_source piece) []);
     p_url := Some (or_opt_str (p_url piece) []);
     p_image_url := Some img;
     p_imageUrl := Some img |}.

(** [arr.unshift(...); arr.slice(0, ARCHIVE_MAX)]. *)
Definition appendedArchive (today : jsstring) (piece : Piece) (arr : list Piece)
    : list Piece :=
  take ARCHIVE_MAX (storedPiece today piece :: arr).

(** The mapping [getArchive] applies to each stored piece. *)
Definition readPiece (p : Piece) : Piece :=
  let img := or_opt_str (p_image_url p) (or_opt_str (p_imageUrl p) []) in
  if truthy_str img
     && (negb (truthy_str (default [] (p_imageUrl p)))
         || negb (truthy_str (default [] (p_image_url p))))
  then {| p_date := p_date p; p_title := p_title p; p_source := p_source p;
          p_url := p_url p;
          p_image_url := Some (or_opt_str (p_image_url p) img);
          p_imageUrl := Some (or_opt_str (p_imageUrl p) img) |}
  else p.

(* ===================================================================== *)
(** * Effects: storage, event log, clock, responses, exceptions *)
(* ===================================================================== *)

(** A response handed to [sendResponse]. *)
Inductive Data :=
| DTitles (l : list TitleEntry)
| DProfile (p : option Profile)
| DArchive (l : list Piece)
| DStatus (last : option Z)
| DEvents (l : list Event).

Record Response := {
  ok : bool;
  stored : option bool;
  data : option Data;
  error : option jsstring
}.

Definition resp_ok : Response :=
  {| ok := true; stored := None; data := None; error := None |}.
Definition resp_stored (b : bool) : Response :=
  {| ok := true; stored := Some b; data := None; error := None |}.
Definition resp_data (d : Data) : Response :=
  {| ok := true; stored := None; data := Some d; error := None |}.
Definition resp_error (e : jsstring) : Response :=
  {| ok := false; stored := None; data := None; error := Some e |}.

(** What a run of the service worker reads and writes: the local storage,
    the IndexedDB [events] store (in insertion order), the clock, the
    responses sent so far, and, for each coming call of a browser API, the
    exception it raises if any (given as [String(e)]); where the code
    gives the promise of a request no rejection path, the failure leaves
    that promise pending instead. *)
Record World := {
  w_store : Store;
  w_events : list Event;
  w_clock : Z;
  w_faults : list (option jsstring);
  w_sent : list Response
}.

Definition with_store (f : Store -> Store) (w : World) : World :=
  {| w_store := f (w_store w); w_events := w_events w; w_clock := w_clock w;
     w_faults := w_faults w; w_sent := w_sent w |}.
Definition with_events (f : list Event -> list Event) (w : World) : World :=
  {| w_store := w_store w; w_events := f (w_events w); w_clock := w_clock w;
     w_faults := w_faults w; w_sent := w_sent w |}.
Definition with_faults (fs : list (option jsstring)) (w : World) : World :=
  {| w_store := w_store w; w_events := w_events w; w_clock := w_clock w;
     w_faults := fs; w_sent := w_sent w |}.
Definition with_sent (r : Response) (w : World) : World :=
  {| w_store := w_store w; w_events := w_events w; w_clock := w_clock w;
     w_faults := w_faults w; w_sent := w_sent w ++ [r] |}.

(** A world in which every browser call succeeds. *)
Definition quiet_world (st : Store) (now : Z) : World :=
  {| w_store := st; w_events := []; w_clock := now; w_faults := []; w_sent := [] |}.

Inductive outcome (A : Type) : Type :=
| Ret (a : A)
| Throw (e : jsstring)
| Never.
Arguments Ret {A} a.
Arguments Throw {A} e.
Arguments Never {A}.

(** An asynchronous computation run as far as it goes: its promise is
    fulfilled, or rejected, or it never settles. *)
Definition M (A : Type) : Type := World -> outcome A * World.

Definition ret {A} (a : A) : M A := fun w => (Ret a, w).

Definition bind {A B} (m : M A) (k : A -> M B) : M B :=
  fun w => match m w with
           | (Ret a, w') => k a w'
           | (Throw e, w') => (Throw e, w')
           | (Never, w') => (Never, w')
           end.

(** [try { m } catch (e) { h e }]. *)
Definition try_catch {A} (m : M A) (h : jsstring -> M A) : M A :=
  fun w => match m w with
           | (Ret a, w') => (Ret a, w')
           | (Throw e, w') => h e w'
           | (Never, w') => (Never, w')
           end.

Notation "x <- m ;; k" := (bind m (fun x => k))
  (at level 62, m at next level, right associativity).
Notation "m ;;; k" := (bind m (fun _ => k))
  (at level 62, right associativity).

(** A call into a browser API: it consumes the next planned fault. *)
Definition browser_call {A} (f : World -> A * World) : M A :=
  fun w => match w_faults w with
           | Some e :: fs => (Throw e, with_faults fs w)
           | None :: fs => let '(a, w') := f (with_faults fs w) in (Ret a, w')
           | [] => let '(a, w') := f w in (Ret a, w')
           end.

(** A request wrapped in a promise that has no rejection path (its only
    handler is the one of success): when the request fails, the promise
    never settles. *)
Definition pending_call {A} (f : World -> A * World) : M A :=
  fun w => match w_faults w with
           | Some _ :: fs => (Never, with_faults fs w)
           | None :: fs => let '(a, w') := f (with_faults fs w) in (Ret a, w')
           | [] => let '(a, w') := f w in (Ret a, w')
           end.

(** [Date.now()]. *)
Definition Date_now : M Z := fun w => (Ret (w_clock w), w).

(** [getStore(keys)]: the stored values (the caller picks its keys). *)
Definition getStore : M Store := browser_call (fun w => (w_store w, w)).

(** [setStore(obj)]: [upd] writes the keys of [obj]. *)
Definition setStore (upd : Store -> Store) : M unit :=
  browser_call (fun w => (tt, with_store upd w)).

Definition set_titles_batch (l : list TitleEntry) (s : Store) : Store :=
  {| titles_batch := Some l; profile_histogram := profile_histogram s;
     pieces_archive := pieces_archive s;
     last_webapp_sync_at := last_webapp_sync_at s |}.

Definition sendResponse (r : Response) : M unit :=
  fun w => (Ret tt, with_sent r w).

(** The [events] object store. [by_ts] read backwards: latest [ts] first,
    later insertions first among equal [ts]. *)
Fixpoint insert_by_ts (x : Event) (l : list Event) : list Event :=
  match l with
  | [] => [x]
  | y :: l' => if ev_ts x <? ev_ts y then x :: l else y :: insert_by_ts x l'
  end.

Definition by_ts_prev (l : list Event) : list Event :=
  rev (fold_left (fun acc x => insert_by_ts x acc) l []).

Definition addEvent (evt : Event) : M unit :=
  browser_call (fun w => (tt, with_events (fun l => l ++ [evt]) w)).

(** [await openDB()]: the promise is rejected when the database cannot be
    opened. *)
Definition openDB : M unit := browser_call (fun w => (tt, w)).

(** [getRecent(limit)]: the cursor request has an [onsuccess] handler
    only. *)
Definition getRecent (limit : Z) : M (list Event) :=
  openDB ;;;
  pending_call (fun w => (take (Z.to_nat limit) (by_ts_prev (w_events w)), w)).

(** [clearAll()]: the promise is resolved from [tx.oncomplete] only. *)
Definition clearAll : M unit :=
  openDB ;;;
  pending_call (fun w => (tt, with_events (fun _ => []) w)).

(* ===================================================================== *)
(** * The storage handlers of background.js *)
(* ===================================================================== *)

Section Handlers.
Context {rt : JSRuntime}.

Definition updateTitlesBatchFromEvent (evt : Event) : M unit :=
  now <- Date_now ;;
  st <- getStore ;;
  setStore (set_titles_batch (updatedTitles now evt (default [] (titles_batch st)))).

(** [enqueueTitlesUpdate(evt)] awaited while the queue is idle: the update
    runs at once, and [.catch(() => {})] swallows what it throws. *)
Definition enqueueTitlesUpdate (evt : Event) : M unit :=
  try_catch (updateTitlesBatchFromEvent evt) (fun _ => ret tt).

Definition getTitlesBatch : M (list TitleEntry) :=
  st <- getStore ;;
  ret (default [] (titles_batch st)).

Definition clearTitlesBatch : M unit := setStore (set_titles_batch []).

Definition setProfileHistogram (profile : Profile) : M unit :=
  now <- Date_now ;;
  setStore (fun s =>
    {| titles_batch := titles_batch s;
       profile_histogram :=
         Some {| t0 := t0 profile; t1 := t1 profile; updated_at := Some now |};
       pieces_archive := pieces_archive s;
       last_webapp_sync_at := Some now |}).

Definition getProfileHistogram : M (option Profile) :=
  st <- getStore ;;
  ret (profile_histogram st).

(** [new Date().toISOString().slice(0, 10).replaceAll('-', '/')]. *)
Definition today (now : Z) : jsstring :=
  replace_each (fun c => (c =? 45)%N) (str "/") (take 10 (toISOString now)).

Definition appendPiece (piece : Piece) : M unit :=
  st <- getStore ;;
  now <- Date_now ;;
  let arr := default [] (pieces_archive st) in
  setStore (fun s =>
    {| titles_batch := titles_batch s;
       profile_histogram := profile_histogram s;
       pieces_archive := Some (appendedArchive (today now) piece arr);
       last_webapp_sync_at := Some now |}).

Definition getArchive : M (list Piece) :=
  st <- getStore ;;
  ret (map readPiece (default [] (pieces_archive st))).

Definition clearProfileAndArchive : M unit :=
  now <- Date_now ;;
  setStore (fun s =>
    {| titles_batch := titles_batch s;
       profile_histogram := None;
       pieces_archive := Some [];
       last_webapp_sync_at := Some now |}).

(** [{ last_webapp_sync_at: st.last_webapp_sync_at || null }]. *)
Definition getStatus : M (option Z) :=
  st <- getStore ;;
  ret (match last_webapp_sync_at st with
       | Some z => if z =? 0 then None else Some z
       | None => None
       end).

Definition ackTitles (ids : list jsstring) : M unit :=
  match ids with
  | [] => ret tt
  | _ :: _ =>
      st <- getStore ;;
      match default [] (titles_batch st) with
      | [] => ret tt
      | (_ :: _) as titles => setStore (set_titles_batch (ackedTitles ids titles))
      end
  end.
End Handlers.


(* ===================================================================== *)
(** * The message listeners *)
(* ===================================================================== *)

(** A message. [msg.payload] is read under several property names:
    as the raw event of [LCL_ADD_EVENT], and through [.ids], and as the
    profile or the piece when [msg.profile] / [msg.piece] are missing. *)
Record Msg := {
  m_type : string;
  m_payload : option Payload;
  m_limit : option Z;
  m_ids : option (list jsstring);
  m_payload_ids : option (list jsstring);
  m_profile : option Profile;
  m_payload_profile : option Profile;
  m_piece : option Piece;
  m_payload_piece : option Piece
}.

Definition empty_profile : Profile := {| t0 := None; t1 := None; updated_at := None |}.
Definition empty_piece : Piece :=
  {| p_date := None; p_title := None; p_source := None; p_url := None;
     p_image_url := None; p_imageUrl := None |}.

(** [(msg.ids || msg.payload || {}).ids || msg.ids || []]: an array has no
    [ids] property, so [msg.ids] comes back through the second operand. *)
Definition msg_ids (msg : Msg) : list jsstring :=
  match m_ids msg with
  | Some ids => ids
  | None => default [] (m_payload_ids msg)
  end.

(** [msg.profile || msg.payload || {}]. *)
Definition msg_profile (msg : Msg) : Profile :=
  match m_profile msg with
  | Some p => p
  | None => default empty_profile (m_payload_profile msg)
  end.

(** [msg.piece || msg.payload || {}]. *)
Definition msg_piece (msg : Msg) : Piece :=
  match m_piece msg with
  | Some p => p
  | None => default empty_piece (m_payload_piece msg)
  end.

Section Router.
Context {rt : JSRuntime}.

(** The body of the [try] block of the [onMessage] listener. *)
Definition dispatch (msg : option Msg) : M unit :=
  match msg with
  | None => ret tt
  | Some msg =>
      if String.eqb (m_type msg) "LCL_ADD_EVENT" then
        now <- Date_now ;;
        match sanitizeEvent now (m_payload msg) with
        | Some compact =>
            addEvent compact ;;;
            enqueueTitlesUpdate compact ;;;
            sendResponse (resp_stored true)
        | None => sendResponse (resp_stored false)
        end
      else if String.eqb (m_type msg) "LCL_GET_RECENT" then
        d <- getRecent (or_opt_num (m_limit msg) 200) ;;
        sendResponse (resp_data (DEvents d))
      else if String.eqb (m_type msg) "LCL_CLEAR" then
        clearAll ;;; sendResponse resp_ok
      else if String.eqb (m_type msg) "GET_TITLES" then
        d <- getTitlesBatch ;;
        sendResponse (resp_data (DTitles d))
      else if String.eqb (m_type msg) "ACK_TITLES" then
        ackTitles (msg_ids msg) ;;; sendResponse resp_ok
      else if String.eqb (m_type msg) "CLEAR_TITLES" then
        clearTitlesBatch ;;; sendResponse resp_ok
      else if String.eqb (m_type msg) "SET_PROFILE" then
        setProfileHistogram (msg_profile msg) ;;; sendResponse resp_ok
      else if String.eqb (m_type msg) "GET_PROFILE" then
        prof <- getProfileHistogram ;;
        sendResponse (resp_data (DProfile prof))
      else if String.eqb (m_type msg) "APPEND_PIECE" then
        appendPiece (msg_piece msg) ;;; sendResponse resp_ok
      else if String.eqb (m_type msg) "GET_ARCHIVE" then
        d <- getArchive ;;
        sendResponse (resp_data (DArchive d))
      else if String.eqb (m_type msg) "GET_STATUS" then
        d <- getStatus ;;
        sendResponse (resp_data (DStatus d))
      else if String.eqb (m_type msg) "CLEAR_PROFILE_ARCHIVE" then
        clearProfileAndArchive ;;; sendResponse resp_ok
      else ret tt
  end.

(** The [chrome.runtime.onMessage] listener: the asynchronous body run to
    completion. A throw of the [try] block is answered from [catch]. *)
Definition onMessage (msg : option Msg) : M unit :=
  try_catch (dispatch msg) (fun e => sendResponse (resp_error e)).

(** The body of the [try] block of the [onMessageExternal] listener. *)
Definition dispatchExternal (msg : option Msg) : M unit :=
  match msg with
  | None => sendResponse (resp_error (str "unsupported"))
  | Some msg =>
      if String.eqb (m_type msg) "GET_TITLES" then
        d <- getTitlesBatch ;;
        sendResponse (resp_data (DTitles d))
      else if String.eqb (m_type msg) "ACK_TITLES" then
        ackTitles (msg_ids msg) ;;; sendResponse resp_ok
      else if String.eqb (m_type msg) "CLEAR_TITLES" then
        clearTitlesBatch ;;; sendResponse resp_ok
      else if String.eqb (m_type msg) "SET_PROFILE" then
        setProfileHistogram (msg_profile msg) ;;; sendResponse resp_ok
      else if String.eqb (m_type msg) "GET_PROFILE" then
        prof <- getProfileHistogram ;;
        sendResponse (resp_data (DProfile prof))
      else if String.eqb (m_type msg) "APPEND_PIECE" then
        appendPiece (msg_piece msg) ;;; sendResponse resp_ok
      else if String.eqb (m_type msg) "GET_ARCHIVE" then
        d <- getArchive ;;
        sendResponse (resp_data (DArchive d))
      else if String.eqb (m_type msg) "GET_STATUS" then
        d <- getStatus ;;
        sendResponse (resp_data (DStatus d))
      else sendResponse (resp_error (str "unsupported"))
  end.

Definition onMessageExternal (msg : option Msg) : M unit :=
  try_catch (dispatchExternal msg) (fun e => sendResponse (resp_error e)).

(** The dispatch vocabulary of [onMessage]. *)
Definition vocabulary : list string :=
  [ "LCL_ADD_EVENT"; "LCL_GET_RECENT"; "LCL_CLEAR"; "GET_TITLES";
    "ACK_TITLES"; "CLEAR_TITLES"; "SET_PROFILE"; "GET_PROFILE";
    "APPEND_PIECE"; "GET_ARCHIVE"; "GET_STATUS"; "CLEAR_PROFILE_ARCHIVE" ]%string.

(** ** Sequences of calls *)

(** One [update(evt)] at clock [now], every browser call succeeding. *)
Definition update_at (now : Z) (evt : Event) (st : Store) : Store :=
  w_store (snd (updateTitlesBatchFromEvent evt (quiet_world st now))).

(** Updates in sequence, each with the clock at the time it runs. *)
Definition run_updates (calls : list (Z * Event)) (st : Store) : Store :=
  fold_left (fun s c => update_at (fst c) (snd c) s) calls st.

(** [list()] of the Title Store: [getTitlesBatch]. *)
Definition list_titles (st : Store) : list TitleEntry :=
  default [] (titles_batch st).

(** One [append(piece)] at clock [now]. *)
Definition append_at (now : Z) (piece : Piece) (st : Store) : Store :=
  w_store (snd (appendPiece piece (quiet_world st now))).

Definition run_appends (calls : list (Z * Piece)) (st : Store) : Store :=
  fold_left (fun s c => append_at (fst c) (snd c) s) calls st.

(** [list()] of the archive: what [getArchive] returns. *)
Definition list_archive (st : Store) : list Piece :=
  match fst (getArchive (quiet_world st 0)) with
  | Ret l => l
  | Throw _ => []
  | Never => []
  end.
End Router.

(* ===================================================================== *)
(** * Auxiliary notions for the Title Store properties *)
(* ===================================================================== *)

(** The loop of [updateTitlesBatchFromEvent] read as a recursion on the
    array: refresh the first element satisfying [P], else push [y]. *)
Fixpoint upsert {A} (P : A -> Prop) `{forall x, Decision (P x)}
    (f : A -> A) (y : A) (l : list A) : list A :=
  match l with
  | [] => [y]
  | x :: r => if decide (P x) then f x :: r else x :: upsert P f y r
  end.

Section TitleStoreAux.
Context {rt : JSRuntime}.

(** The entries of a list that carry a given id. *)
Definition with_id (h : jsstring) (l : list TitleEntry) : list TitleEntry :=
  filter (fun x => e_id x = h) l.

(** The timestamp of the sighting a call makes. *)
Definition call_ts (c : Z * Event) : Z := sighting_ts (fst c) (snd c).

(** The largest timestamp among the sightings of a sequence of calls. *)
Definition max_sighting (calls : list (Z * Event)) : Z :=
  match calls with
  | [] => 0
  | c :: r => fold_left Z.max (map call_ts r) (call_ts c)
  end.

(** With [t] the largest timestamp seen so far: at each further call the
    entry is still inside the retention window of that call, or the
    incoming timestamp is not older than [t]. *)
Fixpoint window_respected (t : Z) (calls : list (Z * Event)) : bool :=
  match calls with
  | [] => true
  | c :: r =>
      ((keepAfter (fst c) <=? t) || (t <=? call_ts c))
      && window_respected (Z.max t (call_ts c)) r
  end.

(** The invariant of the Title Store: every entry is keyed by the hash of
    its normalized title, and that normalized title is not empty. *)
Definition well_keyed (e : TitleEntry) : Prop :=
  normalizeTitle (e_title e) <> []
  /\ e_id e = hashStr (normalizeTitle (e_title e)).

(** Stores reachable from the empty storage by messages to the two
    listeners, at any clock and with any failures of the browser calls. *)
Inductive reachable : Store -> Prop :=
| reachable_init : reachable empty_store
| reachable_step st msg now faults evs sent :
    reachable st ->
    reachable (w_store (snd (onMessage msg
      {| w_store := st; w_events := evs; w_clock := now;
         w_faults := faults; w_sent := sent |})))
| reachable_step_external st msg now faults evs sent :
    reachable st ->
    reachable (w_store (snd (onMessageExternal msg
      {| w_store := st; w_events := evs; w_clock := now;
         w_faults := faults; w_sent := sent |}))).
End TitleStoreAux.

(* ===================================================================== *)
(** * Store invariants along a computation *)
(* ===================================================================== *)

(** [m] keeps the store invariant [I], whether it returns or throws, and
    what it returns satisfies [R]. *)
Definition keeps {A} (I : Store -> Prop) (m : M A) (R : A -> Prop) : Prop :=
  forall w, I (w_store w) ->
    I (w_store (snd (m w))) /\ (forall a, fst (m w) = Ret a -> R a).

(** [m] sends no response. *)
Definition silent {A} (m : M A) : Prop :=
  forall w, w_sent (snd (m w)) = w_sent w.

(** [m] sends exactly one response, a success, when it returns, and none
    when it throws or never settles. *)
Definition answers_once (m : M unit) : Prop :=
  forall w,
    match m w with
    | (Ret _, w') => exists r, ok r = true /\ w_sent w' = w_sent w ++ [r]
    | (Throw _, w') => w_sent w' = w_sent w
    | (Never, w') => w_sent w' = w_sent w
    end.

(** The promise of [m] settles: it is fulfilled or rejected. *)
Definition settles {A} (m : M A) : Prop :=
  forall w, fst (m w) <> Never.

(** The actions whose handler goes to IndexedDB. *)
Definition idb_actions : list string :=
  [ "LCL_ADD_EVENT"; "LCL_GET_RECENT"; "LCL_CLEAR" ]%string.

(* ===================================================================== *)
(** * Auxiliary notions for the archive properties *)
(* ===================================================================== *)

Section ArchiveAux.
Context {rt : JSRuntime}.

(** The stored archive, empty when the key is missing. *)
Definition archive_of (st : Store) : list Piece := default [] (pieces_archive st).

(** What a call appends. *)
Definition appended_piece (c : Z * Piece) : Piece :=
  storedPiece (today (fst c)) (snd c).
End ArchiveAux.

(* ===================================================================== *)
(** * Regular expressions of content.js *)
(* ===================================================================== *)

(** The constructs the source's patterns use. [RGroup n] is the [n]-th
    capturing group; [REnd] is [$]. *)
Inductive regex :=
| RClass (p : N -> bool)
| REps
| RSeq (a b : regex)
| RAlt (a b : regex)
| RStar (a : regex)
| RGroup (n : nat) (a : regex)
| REnd.

Definition captures := list (nat * jsstring).

(** Backtracking matcher in the order of ECMAScript: alternatives left to
    right, [*] greedy and refusing empty iterations. [k] is what remains to
    be matched after [r]. *)
Fixpoint rmatch {R} (r : regex) (s : jsstring) (c : captures)
    (k : jsstring -> captures -> option R) {struct r} : option R :=
  match r with
  | RClass p =>
      match s with
      | x :: s' => if p x then k s' c else None
      | [] => None
      end
  | REps => k s c
  | RSeq a b => rmatch a s c (fun s' c' => rmatch b s' c' k)
  | RAlt a b =>
      match rmatch a s c k with
      | Some x => Some x
      | None => rmatch b s c k
      end
  | RStar a =>
      (fix loop (fuel : nat) (s : jsstring) (c : captures) {struct fuel} : option R :=
         match fuel with
         | O => k s c
         | S fuel' =>
             match rmatch a s c (fun s' c' =>
                     if (length s' <? length s)%nat then loop fuel' s' c' else None) with
             | Some x => Some x
             | None => k s c
             end
         end) (length s) s c
  | RGroup n a =>
      rmatch a s c (fun s' c' => k s' ((n, take (length s - length s') s) :: c'))
  | REnd =>
      match s with
      | [] => k s c
      | _ :: _ => None
      end
  end.

(** The captured text of group [n], if the group took part in the match. *)
Fixpoint capture (n : nat) (c : captures) : option jsstring :=
  match c with
  | [] => None
  | (m, t) :: c' => if (m =? n)%nat then Some t else capture n c'
  end.

(** A match: [m.index], the text left after the match, and the groups. *)
Record Match := { m_index : nat; m_rest : jsstring; m_groups : captures }.

(** A match starting exactly at the head of [s]. *)
Definition match_here (r : regex) (idx : nat) (s : jsstring) : option Match :=
  rmatch r s [] (fun s' c => Some {| m_index := idx; m_rest := s'; m_groups := c |}).

(** [s.match(r)] for a pattern without the [g] flag: the leftmost match. *)
Fixpoint exec_from (r : regex) (idx : nat) (s : jsstring) : option Match :=
  match match_here r idx s with
  | Some m => Some m
  | None =>
      match s with
      | [] => None
      | _ :: s' => exec_from r (S idx) s'
      end
  end.

Definition exec (r : regex) (s : jsstring) : option Match := exec_from r 0 s.

(** [r.test(s)]. *)
Definition test (r : regex) (s : jsstring) : bool :=
  match exec r s with Some _ => true | None => false end.

(** [s.split(sep)] for a pattern [sep] without groups. *)
Fixpoint split_go (fuel : nat) (sep : regex) (piece : jsstring) (s : jsstring)
    : list jsstring :=
  match fuel with
  | O => [piece ++ s]
  | S fuel' =>
      match s with
      | [] => [piece]
      | x :: s' =>
          match match_here sep 0 s with
          | Some m =>
              if (length (m_rest m) =? length s)%nat && negb (truthy_str piece)
              then split_go fuel' sep (piece ++ [x]) s'
              else piece :: split_go fuel' sep [] (m_rest m)
          | None => split_go fuel' sep (piece ++ [x]) s'
          end
      end
  end.

Definition split (sep : regex) (s : jsstring) : list jsstring :=
  match s with
  | [] => match match_here sep 0 [] with Some _ => [] | None => [[]] end
  | _ :: _ => split_go (2 * length s + 2) sep [] s
  end.

(** ** Pattern combinators *)

Definition ropt (r : regex) : regex := RAlt r REps.
Definition rplus (r : regex) : regex := RSeq r (RStar r).
Definition rchar (c : N) : regex := RClass (fun x => (x =? c)%N).
Definition rdigit : regex := RClass (fun x => (48 <=? x) && (x <=? 57))%N.
Definition rspace : regex := RClass is_space.

(** A letter under the [i] flag. *)
Definition rchar_ci (c : N) : regex :=
  RClass (fun x => (ascii_lower x =? ascii_lower c)%N).

Fixpoint rseq (l : list regex) : regex :=
  match l with
  | [] => REps
  | [r] => r
  | r :: l' => RSeq r (rseq l')
  end.

(** A literal word, case-sensitive or under the [i] flag. *)
Definition rlit (s : string) : regex := rseq (map rchar (str s)).
Definition rlit_ci (s : string) : regex := rseq (map rchar_ci (str s)).

(** [r{n,}]. *)
Fixpoint rat_least (n : nat) (r : regex) : regex :=
  match n with
  | O => RStar r
  | S n' => RSeq r (rat_least n' r)
  end.

(** ** The patterns *)

(** [\d+\s+units?] under [i], for [unit] one of hour, minute, second. *)
Definition re_amount (unit : string) : regex :=
  rseq [rplus rdigit; rplus rspace; rlit_ci unit; ropt (rchar_ci 115)].

(** [(?:,\s*\d+\s+units?)?]. *)
Definition re_more (unit : string) : regex :=
  ropt (rseq [rchar 44; RStar rspace; re_amount unit]).

(** [durationSuffixRe]. *)
Definition durationSuffixRe : regex :=
  rseq [ ropt (rseq [RStar rspace; ropt (rchar 45); RStar rspace]);
         RGroup 1 (RAlt (rseq [re_amount "hour"; re_more "minute"; re_more "second"])
                  (RAlt (rseq [re_amount "minute"; re_more "second"])
                        (re_amount "second")));
         REnd ].

(** [/,\s*/]. *)
Definition re_comma : regex := rseq [rchar 44; RStar rspace].

(** [/(\d+)\s+(hours?|hour|minutes?|minute|seconds?|second)/i]. *)
Definition re_part : regex :=
  rseq [ RGroup 1 (rplus rdigit); rplus rspace;
         RGroup 2 (RAlt (rseq [rlit_ci "hour"; ropt (rchar_ci 115)])
                  (RAlt (rlit_ci "hour")
                  (RAlt (rseq [rlit_ci "minute"; ropt (rchar_ci 115)])
                  (RAlt (rlit_ci "minute")
                  (RAlt (rseq [rlit_ci "second"; ropt (rchar_ci 115)])
                        (rlit_ci "second")))))) ].

(** [/[?&]v=([A-Za-z0-9_-]{6,})/]. *)
Definition is_id_char (x : N) : bool :=
  ((65 <=? x) && (x <=? 90) || (97 <=? x) && (x <=? 122)
   || (48 <=? x) && (x <=? 57) || (x =? 95) || (x =? 45))%N.

Definition re_video_id : regex :=
  rseq [ RClass (fun x => (x =? 63) || (x =? 38))%N; rlit "v=";
         RGroup 1 (rat_least 6 (RClass is_id_char)) ].

(** [parseInt(s, 10)] on a string of decimal digits. *)
Definition parseInt (s : jsstring) : Z :=
  fold_left (fun acc c => acc * 10 + (Z.of_N c - 48)) s 0.

(** [s.startsWith(p)]. *)
Fixpoint startsWith (p s : jsstring) : bool :=
  match p, s with
  | [], _ => true
  | _ :: _, [] => false
  | a :: p', b :: s' => (a =? b)%N && startsWith p' s'
  end.

(* ===================================================================== *)
(** * The feed observer: processNode (content.js) *)
(* ===================================================================== *)

(** What [extractDesktop] / [extractMobile] read from a node: the [href]
    attribute of the anchor and the texts. *)
Record Extracted := {
  x_href : option jsstring;
  x_rawTitle : jsstring;
  x_channel : jsstring;
  x_length : jsstring;
  x_badges : list jsstring
}.

(** The state the callbacks of the content script share. *)
Record Observer := {
  seen : list jsstring;
  positionCounter : Z;
  currentPath : jsstring
}.

(** [extractVideoIdFromHref(href)]. *)
Definition extractVideoIdFromHref (href : jsstring) : option jsstring :=
  match href with
  | [] => None
  | _ :: _ =>
      let u := if startsWith (str "http") href then href
               else str "https://www.youtube.com" ++ href in
      match exec re_video_id u with
      | Some m => capture 1 (m_groups m)
      | None => None
      end
  end.

(** The [forEach] over the parts of the phrase: the last amount of each
    unit wins. *)
Definition read_part (acc : Z * Z * Z) (p : jsstring) : Z * Z * Z :=
  let '(h, mi, s) := acc in
  match exec re_part p with
  | Some numMatch =>
      let val := parseInt (default [] (capture 1 (m_groups numMatch))) in
      let unit := default [] (capture 2 (m_groups numMatch)) in
      if test (rlit_ci "hour") unit then (val, mi, s)
      else if test (rlit_ci "minute") unit then (h, val, s)
      else if test (rlit_ci "second") unit then (h, mi, val)
      else (h, mi, s)
  | None => (h, mi, s)
  end.

(** [String(x).padStart(2, '0')]. *)
Definition pad (x : Z) : jsstring := padStart 2 48%N (String_of_num x).

(** The length derived from a duration phrase, [length] when none is. *)
Definition length_of_phrase (phrase : jsstring) (length : jsstring) : jsstring :=
  let parts := split re_comma phrase in
  let '(h, mi, s) := fold_left read_part parts (0, 0, 0) in
  if negb (h =? 0) then
    String_of_num h ++ str ":" ++ pad mi ++ str ":" ++ pad s
  else if negb (mi =? 0) || negb (s =? 0) then
    String_of_num mi ++ str ":" ++ pad s
  else if negb (s =? 0) then str "0:" ++ pad s
  else length.

(** The cleaning of the title: the trailing duration words are cut off and,
    when no length was extracted, parsed into one. *)
Definition clean_duration (rawTitle length : jsstring) : jsstring * jsstring :=
  match exec durationSuffixRe rawTitle with
  | Some m =>
      let phrase := default [] (capture 1 (m_groups m)) in
      let rawTitle' := trim (take (m_index m) rawTitle) in
      (rawTitle', if truthy_str length then length else length_of_phrase phrase length)
  | None => (rawTitle, length)
  end.

(** [processNode(node, variant)] once the node has been read: [ex] is what
    the extractor returned, [now] is [Date.now()]. The result is the new
    state and the payload sent with [LCL_ADD_EVENT], if any. *)
Definition processNode (now : Z) (variant : jsstring) (ex : option Extracted)
    (o : Observer) : Observer * option Payload :=
  match ex with
  | None => (o, None)
  | Some ex =>
      let href := default [] (x_href ex) in
      match extractVideoIdFromHref href with
      | None => (o, None)
      | Some videoId =>
          let key := videoId ++ str "|" ++ currentPath o in
          if bool_decide (key ∈ seen o) then (o, None)
          else
            let '(rawTitle, length) := clean_duration (x_rawTitle ex) (x_length ex) in
            let o' := {| seen := key :: seen o;
                         positionCounter := positionCounter o + 1;
                         currentPath := currentPath o |} in
            (o', Some {| pl_ts := Some now;
                         pl_type := Some (str "feed_video");
                         pl_platform := Some (str "youtube");
                         pl_variant := Some variant;
                         pl_videoId := Some videoId;
                         pl_title := Some rawTitle;
                         pl_channel := Some (x_channel ex);
                         pl_length := Some length;
                         pl_badges := x_badges ex;
                         pl_position := Some (positionCounter o');
                         pl_href := Some (if startsWith (str "http") href then href
                                          else str "https://www.youtube.com" ++ href);
                         pl_page := Some (currentPath o) |})
      end
  end.

(** [send(payload)]: the message the background listener receives. *)
Definition add_event_msg (payload : Payload) : Msg :=
  {| m_type := "LCL_ADD_EVENT"; m_payload := Some payload; m_limit := None;
     m_ids := None; m_payload_ids := None; m_profile := None;
     m_payload_profile := None; m_piece := None; m_payload_piece := None |}.

Section Sighting.
Context {rt : JSRuntime}.

(** A sighting end to end: a node is processed at time [now] and, if a
    payload is sent, the listener handles it (every browser call
    succeeding). The result is the observer, the storage, and the payload. *)
Definition sight (now : Z) (variant : jsstring) (ex : Extracted)
    (os : Observer * Store) : Observer * Store * option Payload :=
  let '(o', sent) := processNode now variant (Some ex) (fst os) in
  match sent with
  | None => (o', snd os, None)
  | Some payload =>
      (o', w_store (snd (onMessage (Some (add_event_msg payload))
                           (quiet_world (snd os) now))), Some payload)
  end.
End Sighting.

(** A feed node whose title ends with a duration phrase. *)
Definition node_with_title (href title : string) : Extracted :=
  {| x_href := Some (str href); x_rawTitle := str title; x_channel := [];
     x_length := []; x_badges := [] |}.

Definition fresh_observer : Observer :=
  {| seen := []; positionCounter := 0; currentPath := str "/" |}.

(* ===================================================================== *)
(** * The web bridge (web/lib/bridge.ts) *)
(* ===================================================================== *)

Definition PM_NAMESPACE_IN : jsstring := str "thyself-bridge".
Definition PM_NAMESPACE_OUT : jsstring := str "thyself-extension".

(** [evt.data] of a window message. [bd_response] is [None] when
    [data.response] is falsy ([undefined], [null]). *)
Record BridgeData := {
  bd_namespace : jsstring;
  bd_requestId : jsstring;
  bd_response : option Response
}.

(** A window message: the time of its delivery, in milliseconds after the
    call of [pmSend], and its [data] ([None] when falsy). *)
Definition Delivery : Type := Z * option BridgeData.

(** The promise of [pmSend] and the variables its callbacks close over.
    [pm_settled] is [None] while the promise is pending. *)
Record PmState := {
  pm_done : bool;
  pm_listening : bool;
  pm_settled : option (option Response)
}.

Definition pm_start : PmState :=
  {| pm_done := false; pm_listening := true; pm_settled := None |}.

(** [resolve(v)]: only the first call settles a promise. *)
Definition resolve (cur : option (option Response)) (v : option Response)
    : option (option Response) :=
  match cur with
  | None => Some v
  | Some _ => cur
  end.

(** The [listener] of [pmSend]. *)
Definition pm_listener (requestId : jsstring) (s : PmState) (data : option BridgeData)
    : PmState :=
  if negb (pm_listening s) then s
  else
    match data with
    | None => s
    | Some d =>
        if negb (bool_decide (bd_namespace d = PM_NAMESPACE_OUT))
           || negb (bool_decide (bd_requestId d = requestId))
        then s
        else {| pm_done := true; pm_listening := false;
                pm_settled := resolve (pm_settled s) (bd_response d) |}
    end.

(** The callback given to [setTimeout]. *)
Definition pm_timeout (s : PmState) : PmState :=
  if pm_done s then s
  else {| pm_done := pm_done s; pm_listening := false;
          pm_settled := resolve (pm_settled s) None |}.

(** The callbacks in the order the event loop runs them: the messages in
    order of delivery, the timer once the messages delivered before its
    delay have been handled. [fired] tells whether the timer has run. *)
Fixpoint pm_run (requestId : jsstring) (timeoutMs : Z) (fired : bool)
    (s : PmState) (inbox : list Delivery) : PmState :=
  match inbox with
  | [] => if fired then s else pm_timeout s
  | (t, d) :: rest =>
      if negb fired && (timeoutMs <=? t)
      then pm_run requestId timeoutMs true (pm_listener requestId (pm_timeout s) d) rest
      else pm_run requestId timeoutMs fired (pm_listener requestId s d) rest
  end.

(** The page, as far as the bridge depends on it. *)
Record Page := {
  (** [typeof window !== 'undefined'] *)
  hasWindow : bool;
  (** [window.chrome.runtime.sendMessage] is a function *)
  hasRuntime : bool;
  EXTENSION_ID : jsstring;
  (** what [Math.random().toString(36).slice(2)] gives *)
  nextRequestId : jsstring;
  (** the messages the window receives after the request is posted *)
  inbox : list Delivery;
  (** what [chrome.runtime.sendMessage] passes to its callback, or [None]
      when the call throws *)
  runtimeReply : option (option Response)
}.

(** [canUseRuntime()]. *)
Definition canUseRuntime (p : Page) : bool := hasWindow p && hasRuntime p.

(** [pmSend(type, payload, timeoutMs)]: the value its promise settles to. *)
Definition pmSend (timeoutMs : Z) (p : Page) : option Response :=
  if negb (hasWindow p) then None
  else
    match pm_settled (pm_run (nextRequestId p) timeoutMs false pm_start (inbox p)) with
    | Some v => v
    | None => None
    end.

(** The calls a request makes: the relay, [runtimeSend], and inside it
    [chrome.runtime.sendMessage]. *)
Inductive Call := CallRelay | CallRuntimeSend | CallSendMessage.

(** [runtimeSend(type, payload)] with the calls it makes. *)
Definition runtimeSend (p : Page) : option Response * list Call :=
  if negb (canUseRuntime p) || negb (truthy_str (EXTENSION_ID p))
  then (None, [CallRuntimeSend])
  else
    match runtimeReply p with
    | Some resp => (resp, [CallRuntimeSend; CallSendMessage])
    | None => (None, [CallRuntimeSend; CallSendMessage])
    end.

(** [send(type, payload)]: [pmSend] is called with its default timeout. *)
Definition default_timeoutMs : Z := 1500.

Definition send (p : Page) : option Response * list Call :=
  match pmSend default_timeoutMs p with
  | Some viaPM => (Some viaPM, [CallRelay])
  | None =>
      let '(r, calls) := runtimeSend p in
      (r, CallRelay :: calls)
  end.

(** ** The relay's answer, as the specification words it *)

(** A message that answers the request: the outbound namespace and the
    same [requestId]. *)
Definition answers (requestId : jsstring) (m : Delivery) : bool :=
  match snd m with
  | Some d => bool_decide (bd_namespace d = PM_NAMESPACE_OUT)
              && bool_decide (bd_requestId d = requestId)
  | None => false
  end.

(** The messages delivered before the timeout. *)
Fixpoint within (timeoutMs : Z) (inbox : list Delivery) : list Delivery :=
  match inbox with
  | [] => []
  | m :: rest => if fst m <? timeoutMs then m :: within timeoutMs rest else []
  end.

(** The response of the first matching message delivered within the
    timeout; [None] when there is none. *)
Definition relay_response (requestId : jsstring) (timeoutMs : Z)
    (inbox : list Delivery) : option (option Response) :=
  match List.find (answers requestId) (within timeoutMs inbox) with
  | Some (_, Some d) => Some (bd_response d)
  | _ => None
  end.

(* ===================================================================== *)
(** * Normalization as the specification words it *)
(* ===================================================================== *)

(** Diacritic stripping: the combining marks are dropped. *)
Definition strip_diacritics (s : jsstring) : jsstring :=
  List.filter (fun c => negb (is_combining_mark c)) s.

(** Collapsing whitespace: a whitespace unit followed by another one is
    dropped, the last of a run becomes a space. *)
Fixpoint collapse_whitespace (s : jsstring) : jsstring :=
  match s with
  | [] => []
  | c :: s' =>
      if is_space c then
        match s' with
        | c' :: _ => if is_space c' then collapse_whitespace s'
                     else 32%N :: collapse_whitespace s'
        | [] => [32%N]
        end
      else c :: collapse_whitespace s'
  end.

(** Stripping quote characters. *)
Definition strip_quotes (s : jsstring) : jsstring :=
  List.filter (fun c => negb (is_quote c)) s.

Section NormalizationSpec.
Context {rt : JSRuntime}.

(** The steps of the specification applied after a given decomposition. *)
Definition normalized_with (form : NormalizationForm) (t : jsstring) : jsstring :=
  trim (strip_quotes (collapse_whitespace (strip_diacritics
    (normalize form (toLowerCase t))))).

(** The normalization in the words of the specification: lowercase,
    Unicode canonical decomposition with diacritic stripping, collapse all
    whitespace to single spaces, strip quote characters, trim. *)
Definition normalized_as_specified (t : jsstring) : jsstring :=
  normalized_with NFD t.
End NormalizationSpec.

(* ===================================================================== *)
(** * Interleaving of updates and the single-lane queue *)
(* ===================================================================== *)

(** Where a call of [updateTitlesBatchFromEvent] stands: not started; past
    [await getStore], with the list it is about to persist; or past
    [await setStore]. *)
Inductive phase :=
| Pending
| Computed (l : list TitleEntry)
| Finished.

(** A call: its event, and the value [Date.now()] has when it starts. *)
Record UpdateCall := { c_now : Z; c_evt : Event; c_phase : phase }.

Definition pending (now : Z) (evt : Event) : UpdateCall :=
  {| c_now := now; c_evt := evt; c_phase := Pending |}.

Definition finished (t : UpdateCall) : Prop := c_phase t = Finished.

Section Queue.
Context {rt : JSRuntime}.

(** The two resumptions of a call: the read of [titles_batch] followed by
    the synchronous computation, and the write. *)
Inductive call_step : Store -> UpdateCall -> Store -> UpdateCall -> Prop :=
| call_load st now evt :
    call_step st {| c_now := now; c_evt := evt; c_phase := Pending |}
              st {| c_now := now; c_evt := evt;
                    c_phase := Computed (updatedTitles now evt (list_titles st)) |}
| call_persist st now evt l :
    call_step st {| c_now := now; c_evt := evt; c_phase := Computed l |}
              (set_titles_batch l st)
              {| c_now := now; c_evt := evt; c_phase := Finished |}.

(** Calls made directly: the event loop may resume any of them. *)
Inductive free_step : Store * list UpdateCall -> Store * list UpdateCall -> Prop :=
| free_step_at st st' before t t' after :
    call_step st t st' t' ->
    free_step (st, before ++ t :: after) (st', before ++ t' :: after).

End Queue.

(* ===================================================================== *)
(** * The promise chain of [enqueueTitlesUpdate] *)
(* ===================================================================== *)

(** One call [enqueueTitlesUpdate(evt)] adds a link
    [prev.then(() => updateTitlesBatchFromEvent(evt)).catch(() => {})]
    to the chain, [prev] being the value of [__titlesQueue] at the call.
    Promises are numbered: 0 is [Promise.resolve()], [i + 1] is the
    promise of link [i]. [k_call] is the call of the update once the
    callback of [then] has run; [k_rejected] tells that the promise of the
    update was rejected, which [catch(() => {})] turns into a fulfilment. *)
Record Link := {
  k_prev : nat;
  k_evt : Event;
  k_call : option UpdateCall;
  k_rejected : bool
}.

(** The storage and the links made so far, in order of arrival;
    [__titlesQueue] holds the promise of the last one. *)
Record Chain := {
  q_store : Store;
  q_links : list Link
}.

Definition new_chain (st : Store) : Chain := {| q_store := st; q_links := [] |}.

(** The number of the promise [__titlesQueue] holds. *)
Definition titlesQueue (q : Chain) : nat := length (q_links q).

(** [enqueueTitlesUpdate(evt)], up to its [return]. *)
Definition enqueueTitlesUpdate_chain (evt : Event) (q : Chain) : Chain :=
  {| q_store := q_store q;
     q_links := q_links q ++ [ {| k_prev := titlesQueue q; k_evt := evt;
                                  k_call := None; k_rejected := false |} ] |}.

Definition is_finished (c : UpdateCall) : bool :=
  match c_phase c with Finished => true | _ => false end.

(** The promise of a link is settled, and then fulfilled, once its update
    is over, whether the update was fulfilled or rejected. *)
Definition link_settled (k : Link) : bool :=
  match k_call k with
  | Some c => is_finished c
  | None => false
  end.

(** Promise number [n] is fulfilled. *)
Definition fulfilled (q : Chain) (n : nat) : bool :=
  match n with
  | O => true
  | S i => match q_links q !! i with
           | Some k => link_settled k
           | None => false
           end
  end.

(** What the event loop does next: a call of [enqueueTitlesUpdate]; the
    callback of [then] of link [i] runs, [Date.now()] giving [now]; the
    [await] of the update of link [i] resumes; or the storage call it
    awaits fails. *)
Inductive ChainEvent :=
| Enqueue (evt : Event)
| Start (i : nat) (now : Z)
| Resume (i : nat)
| Reject (i : nat).

Definition set_link (i : nat) (k : Link) (st : Store) (q : Chain) : Chain :=
  {| q_store := st; q_links := <[i := k]> (q_links q) |}.

Definition with_phase (k : Link) (c : UpdateCall) (ph : phase) (rejected : bool) : Link :=
  {| k_prev := k_prev k; k_evt := k_evt k;
     k_call := Some {| c_now := c_now c; c_evt := c_evt c; c_phase := ph |};
     k_rejected := rejected |}.

(** The events handed to [enqueueTitlesUpdate] along a run, in order. *)
Definition enqueued (trace : list ChainEvent) : list Event :=
  omap (fun ev => match ev with Enqueue evt => Some evt | _ => None end) trace.

(** What a link has written: its update, once it is over and was not
    rejected. *)
Definition effect (k : Link) : option (Z * Event) :=
  match k_call k with
  | Some c => if is_finished c && negb (k_rejected k) then Some (c_now c, c_evt c)
              else None
  | None => None
  end.

Definition effective (q : Chain) : list (Z * Event) := omap effect (q_links q).

(** Strictly one at a time, in order of arrival: a link whose update has
    started comes after settled links only. *)
Definition one_at_a_time (q : Chain) : Prop :=
  forall i j ki kj,
    q_links q !! i = Some ki -> q_links q !! j = Some kj -> (i < j)%nat ->
    k_call kj <> None -> link_settled ki = true.

Section ChainSteps.
Context {rt : JSRuntime}.

(** One turn of the event loop; [None] when the event cannot happen. The
    callback of [then] runs only when the promise the link was chained to
    is fulfilled. *)
Definition chain_step (ev : ChainEvent) (q : Chain) : option Chain :=
  match ev with
  | Enqueue evt => Some (enqueueTitlesUpdate_chain evt q)
  | Start i now =>
      match q_links q !! i with
      | Some k =>
          match k_call k with
          | None =>
              if fulfilled q (k_prev k)
              then Some (set_link i {| k_prev := k_prev k; k_evt := k_evt k;
                                       k_call := Some (pending now (k_evt k));
                                       k_rejected := false |} (q_store q) q)
              else None
          | Some _ => None
          end
      | None => None
      end
  | Resume i =>
      match q_links q !! i with
      | Some k =>
          match k_call k with
          | Some c =>
              match c_phase c with
              | Pending =>
                  Some (set_link i
                          (with_phase k c
                             (Computed (updatedTitles (c_now c) (c_evt c)
                                          (list_titles (q_store q)))) false)
                          (q_store q) q)
              | Computed l =>
                  Some (set_link i (with_phase k c Finished false)
                          (set_titles_batch l (q_store q)) q)
              | Finished => None
              end
          | None => None
          end
      | None => None
      end
  | Reject i =>
      match q_links q !! i with
      | Some k =>
          match k_call k with
          | Some c =>
              match c_phase c with
              | Finished => None
              | _ => Some (set_link i (with_phase k c Finished true) (q_store q) q)
              end
          | None => None
          end
      | None => None
      end
  end.

Fixpoint chain_run (trace : list ChainEvent) (q : Chain) : option Chain :=
  match trace with
  | [] => Some q
  | ev :: rest =>
      match chain_step ev q with
      | Some q' => chain_run rest q'
      | None => None
      end
  end.

(** The invariant of the chain started on the store [st0]: the links up to
    some [n] are settled, those after [n] have not started; the store is
    what the updates that were not rejected give one after the other; and
    a list about to be written was computed from the store as it is. *)
Definition chain_inv (st0 : Store) (q : Chain) : Prop :=
  exists n,
    (n <= length (q_links q))%nat
    /\ (forall i k, q_links q !! i = Some k -> k_prev k = i)
    /\ (forall i k, q_links q !! i = Some k -> (i < n)%nat -> link_settled k = true)
    /\ (forall i k, q_links q !! i = Some k -> (n < i)%nat -> k_call k = None)
    /\ q_store q = run_updates (effective q) st0
    /\ (forall i k c l, q_links q !! i = Some k -> k_call k = Some c ->
          c_phase c = Computed l ->
          l = updatedTitles (c_now c) (c_evt c) (list_titles (q_store q)))
    /\ (forall i k c, q_links q !! i = Some k -> k_call k = Some c -> c_evt c = k_evt k).

(** The turns that run two queued updates to the end. *)
Definition two_calls (evt1 evt2 : Event) (now1 now2 : Z) : list ChainEvent :=
  [ Enqueue evt1; Enqueue evt2; Start 0 now1; Resume 0; Resume 0;
    Start 1 now2; Resume 1; Resume 1 ].
End ChainSteps.

(* ===================================================================== *)
(** * Further notions for the service worker *)
(* ===================================================================== *)

(** The unsigned 32-bit value [hashStr] prints: [h >>> 0] after the loop. *)
Definition hash32 (s : jsstring) : Z := to_uint32 (fold_left djb2_step s 5381).

(** Reading a lowercase hexadecimal numeral back. *)
Definition is_hex_digit (c : N) : bool :=
  ((48 <=? c) && (c <=? 57) || (97 <=? c) && (c <=? 102))%N.

Definition hex_value (c : N) : Z :=
  if ((48 <=? c) && (c <=? 57))%N then Z.of_N c - 48 else Z.of_N c - 87.

Definition from_hex (s : jsstring) : Z :=
  fold_left (fun acc c => acc * 16 + hex_value c) s 0.

Section HandlersAt.
Context {rt : JSRuntime}.

(** One [ackTitles(ids)], every browser call succeeding. *)
Definition ack_at (ids : list jsstring) (st : Store) : Store :=
  w_store (snd (ackTitles ids (quiet_world st 0))).

(** The world after the [onMessage] listener has handled [msg] at clock
    [now], every browser call succeeding. *)
Definition handle (now : Z) (msg : Msg) (w : World) : World :=
  snd (onMessage (Some msg)
         {| w_store := w_store w; w_events := w_events w; w_clock := now;
            w_faults := []; w_sent := w_sent w |}).

(** The same for the [onMessageExternal] listener. *)
Definition handleExternal (now : Z) (msg : Msg) (w : World) : World :=
  snd (onMessageExternal (Some msg)
         {| w_store := w_store w; w_events := w_events w; w_clock := now;
            w_faults := []; w_sent := w_sent w |}).

(** The last response sent. *)
Definition last_response (w : World) : option Response := last (w_sent w).
End HandlersAt.

(** The actions [onMessageExternal] serves. *)
Definition external_vocabulary : list string :=
  [ "GET_TITLES"; "ACK_TITLES"; "CLEAR_TITLES"; "SET_PROFILE"; "GET_PROFILE";
    "APPEND_PIECE"; "GET_ARCHIVE"; "GET_STATUS" ]%string.

(** What identifies an entry apart from its timestamp. *)
Definition entry_key (e : TitleEntry) : jsstring * jsstring * jsstring :=
  (e_id e, e_title e, e_platform e).

(** A string that does not start, or does not end, with whitespace. *)
Definition starts_clean (s : jsstring) : Prop :=
  match s with
  | [] => True
  | c :: _ => is_space c = false
  end.

Definition ends_clean (s : jsstring) : Prop := starts_clean (rev s).

(** An event read as the payload of a message again. *)
Definition payload_of_event (e : Event) : Payload :=
  {| pl_ts := Some (ev_ts e); pl_type := Some (ev_type e);
     pl_platform := Some (ev_platform e); pl_variant := None;
     pl_videoId := ev_videoId e; pl_title := Some (ev_title e);
     pl_channel := None; pl_length := None; pl_badges := [];
     pl_position := None; pl_href := ev_href e; pl_page := ev_page e |}.

(** [SET_PROFILE] as the bridge sends it: [{ type, profile }]. *)
Definition set_profile_msg (p : Profile) : Msg :=
  {| m_type := "SET_PROFILE"; m_payload := None; m_limit := None; m_ids := None;
     m_payload_ids := None; m_profile := Some p; m_payload_profile := None;
     m_piece := None; m_payload_piece := None |}.

(** What a reader of a piece gets with [p.image_url || p.imageUrl || '']. *)
Definition image_of (p : Piece) : jsstring :=
  or_opt_str (p_image_url p) (or_opt_str (p_imageUrl p) []).

(** Newest first. *)
Definition newer_first (a b : Event) : Prop := ev_ts b <= ev_ts a.

(** The actions that only read. *)
Definition read_actions : list string :=
  [ "LCL_GET_RECENT"; "GET_TITLES"; "GET_PROFILE"; "GET_ARCHIVE"; "GET_STATUS" ]%string.

(** [APPEND_PIECE] as the bridge sends it: [{ type, piece }]. *)
Definition append_piece_msg (p : Piece) : Msg :=
  {| m_type := "APPEND_PIECE"; m_payload := None; m_limit := None; m_ids := None;
     m_payload_ids := None; m_profile := None; m_payload_profile := None;
     m_piece := Some p; m_payload_piece := None |}.

(* ===================================================================== *)
(** * What a pattern can match *)
(* ===================================================================== *)

(** [matches r u rest c c']: [r] can consume [u] when [rest] follows,
    turning the captures [c] into [c']. *)
Inductive matches : regex -> jsstring -> jsstring -> captures -> captures -> Prop :=
| matches_class p x rest c :
    p x = true -> matches (RClass p) [x] rest c c
| matches_eps rest c : matches REps [] rest c c
| matches_seq a b u v rest c c1 c2 :
    matches a u (v ++ rest) c c1 -> matches b v rest c1 c2 ->
    matches (RSeq a b) (u ++ v) rest c c2
| matches_alt_l a b u rest c c' :
    matches a u rest c c' -> matches (RAlt a b) u rest c c'
| matches_alt_r a b u rest c c' :
    matches b u rest c c' -> matches (RAlt a b) u rest c c'
| matches_star_nil a rest c : matches (RStar a) [] rest c c
| matches_star_more a u v rest c c1 c2 :
    matches a u (v ++ rest) c c1 -> matches (RStar a) v rest c1 c2 ->
    matches (RStar a) (u ++ v) rest c c2
| matches_group n a u rest c c' :
    matches a u rest c c' -> matches (RGroup n a) u rest c ((n, u) :: c')
| matches_end c : matches REnd [] [] c c.

(** Patterns without capturing groups. *)
Fixpoint groupless (r : regex) : bool :=
  match r with
  | RClass _ | REps | REnd => true
  | RSeq a b | RAlt a b => groupless a && groupless b
  | RStar a => groupless a
  | RGroup _ _ => false
  end.

Definition is_digit (x : N) : bool := ((48 <=? x) && (x <=? 57))%N.

(** [/\/shorts\/([A-Za-z0-9_-]{6,})/] and [extractShortId(href)]. *)
Definition re_short_id : regex :=
  rseq [ rlit "/shorts/"; RGroup 1 (rat_least 6 (RClass is_id_char)) ].

Definition extractShortId (href : jsstring) : option jsstring :=
  match href with
  | [] => None
  | _ :: _ =>
      match exec re_short_id href with
      | Some m => capture 1 (m_groups m)
      | None => None
      end
  end.

(** The address [extractVideoIdFromHref] searches. *)
Definition watch_url (href : jsstring) : jsstring :=
  if startsWith (str "http") href then href
  else str "https://www.youtube.com" ++ href.

(* ===================================================================== *)
(** * The content script over time: sweeps, shorts, navigation *)
(* ===================================================================== *)

(** The state of the content script: the feed observer and [shortsSeen]. *)
Record Harvester := {
  hv_feed : Observer;
  shortsSeen : list jsstring
}.

(** [videoId + '|' + page] of a payload: the key it was sent under. *)
Definition payload_key (p : Payload) : jsstring :=
  default [] (pl_videoId p) ++ str "|" ++ default [] (pl_page p).

Definition is_short (p : Payload) : bool :=
  bool_decide (pl_type p = Some (str "shorts_video")).

(** A call of [processNode]: the clock, the variant, what was extracted. *)
Definition NodeVisit : Type := Z * jsstring * option Extracted.

(** The nodes handed to [processNode] one after the other (by the
    intersection observer, the periodic sweep or a retry). *)
Fixpoint process_all (visits : list NodeVisit) (o : Observer)
    : Observer * list Payload :=
  match visits with
  | [] => (o, [])
  | (now, variant, ex) :: rest =>
      let '(o1, sent) := processNode now variant ex o in
      let '(o2, more) := process_all rest o1 in
      (o2, match sent with Some p => p :: more | None => more end)
  end.

(** An anchor found by [scanShorts]: its [href]; the text of the inner
    [span] or [h3] if there is one; its [title] attribute; its text; and
    whether the mobile test on host name and markup succeeds. *)
Record ShortAnchor := {
  sa_href : jsstring;
  sa_inner : option jsstring;
  sa_title : option jsstring;
  sa_text : jsstring;
  sa_mobile : bool
}.

(** A heading found by the second pass of [scanShorts]: the [href] of the
    anchor around it, if any; the text of its [span], if any; its text. *)
Record ShortHeading := {
  sh_href : option jsstring;
  sh_span : option jsstring;
  sh_text : jsstring
}.

(** [rawTitle] of an anchor, after [.replace(/\s+/g,' ').trim()]. *)
Definition anchor_title (a : ShortAnchor) : jsstring :=
  let raw := match sa_inner a with
             | Some t => trim t
             | None => trim (or_opt_str (sa_title a) (or_str (sa_text a) []))
             end in
  trim (replace_runs is_space (str " ") raw).

Definition heading_title (x : ShortHeading) : jsstring :=
  let raw := match sh_span x with
             | Some t => t
             | None => or_str (sh_text x) []
             end in
  trim (replace_runs is_space (str " ") (trim raw)).

(** The body shared by the two loops of [scanShorts], from [href] on. *)
Definition send_short (now : Z) (variant : jsstring) (href title : jsstring)
    (h : Harvester) : Harvester * option Payload :=
  match extractShortId href with
  | None => (h, None)
  | Some vid =>
      let o := hv_feed h in
      let key := vid ++ str "|" ++ currentPath o in
      if bool_decide (key ∈ seen o) || bool_decide (key ∈ shortsSeen h) then (h, None)
      else
        match title with
        | [] => (h, None)
        | _ :: _ =>
            let o' := {| seen := key :: seen o;
                         positionCounter := positionCounter o + 1;
                         currentPath := currentPath o |} in
            ({| hv_feed := o'; shortsSeen := key :: shortsSeen h |},
             Some {| pl_ts := Some now;
                     pl_type := Some (str "shorts_video");
                     pl_platform := Some (str "youtube");
                     pl_variant := Some variant;
                     pl_videoId := Some vid;
                     pl_title := Some title;
                     pl_channel := Some [];
                     pl_length := Some [];
                     pl_badges := [str "shorts"];
                     pl_position := Some (positionCounter o');
                     pl_href := Some (if startsWith (str "http") href then href
                                      else str "https://www.youtube.com" ++ href);
                     pl_page := Some (currentPath o) |})
        end
  end.

(** The body of the first loop; the anchor comes with what [Date.now()]
    reads when the loop reaches it. *)
Definition scan_anchor (v : Z * ShortAnchor) (h : Harvester)
    : Harvester * option Payload :=
  let '(now, a) := v in
  send_short now (if sa_mobile a then str "shorts_mobile" else str "shorts_desktop")
    (sa_href a) (anchor_title a) h.

(** The body of the second loop. *)
Definition scan_heading (v : Z * ShortHeading) (h : Harvester)
    : Harvester * option Payload :=
  let '(now, x) := v in
  match sh_href x with
  | None => (h, None)
  | Some href => send_short now (str "shorts_mobile") href (heading_title x) h
  end.

(** A [forEach] that collects what its body sends. *)
Fixpoint for_each {A} (step : A -> Harvester -> Harvester * option Payload)
    (l : list A) (h : Harvester) : Harvester * list Payload :=
  match l with
  | [] => (h, [])
  | x :: rest =>
      let '(h1, sent) := step x h in
      let '(h2, more) := for_each step rest h1 in
      (h2, match sent with Some p => p :: more | None => more end)
  end.

(** [scanShorts()]: the anchors of both queries, then the headings. *)
Definition scanShorts (nodesA nodesB : list (Z * ShortAnchor))
    (headings : list (Z * ShortHeading)) (h : Harvester) : Harvester * list Payload :=
  let '(h1, ps1) := for_each scan_anchor (nodesA ++ nodesB) h in
  let '(h2, ps2) := for_each scan_heading headings h1 in
  (h2, ps1 ++ ps2).

(** [handleNavigation()], with [pathname] what [location.pathname] reads. *)
Definition handleNavigation (pathname : jsstring) (h : Harvester) : Harvester :=
  if bool_decide (currentPath (hv_feed h) = pathname) then h
  else {| hv_feed := {| seen := []; positionCounter := 0; currentPath := pathname |};
          shortsSeen := shortsSeen h |}.

(** What happens in the page, in order. *)
Inductive Trigger :=
| TNode (visit : NodeVisit)
| TShorts (nodesA nodesB : list (Z * ShortAnchor)) (headings : list (Z * ShortHeading))
| TNavigate (pathname : jsstring).

Definition run_trigger (t : Trigger) (h : Harvester) : Harvester * list Payload :=
  match t with
  | TNode (now, variant, ex) =>
      let '(o, sent) := processNode now variant ex (hv_feed h) in
      ({| hv_feed := o; shortsSeen := shortsSeen h |},
       match sent with Some p => [p] | None => [] end)
  | TShorts nodesA nodesB headings => scanShorts nodesA nodesB headings h
  | TNavigate pathname => (handleNavigation pathname h, [])
  end.

Fixpoint run_triggers (ts : list Trigger) (h : Harvester) : Harvester * list Payload :=
  match ts with
  | [] => (h, [])
  | t :: rest =>
      let '(h1, ps) := run_trigger t h in
      let '(h2, more) := run_triggers rest h1 in
      (h2, ps ++ more)
  end.

(** The keys of the shorts among the payloads sent. *)
Definition shorts_keys (ps : list Payload) : list jsstring :=
  payload_key <$> filter is_short ps.

(** [ps], sent between the states [h] and [h'], are on file in [shortsSeen]:
    the keys of its shorts are new in [h], distinct, and stored in [h']. *)
Definition logs (h : Harvester) (ps : list Payload) (h' : Harvester) : Prop :=
  shortsSeen h' = reverse (shorts_keys ps) ++ shortsSeen h
  /\ NoDup (shorts_keys ps)
  /\ Forall (fun k => k ∉ shortsSeen h) (shorts_keys ps).

(** The payloads a step sends, as a list. *)
Definition sent_list (sent : option Payload) : list Payload :=
  match sent with Some p => [p] | None => [] end.

(* ===================================================================== *)
(** * The popup: export of the titles *)
(* ===================================================================== *)

(** The loop of the [exportTitles] button over the batch: trimmed titles,
    without the empty ones, each once, in order of first occurrence. *)
Fixpoint export_loop (batch : list TitleEntry) (seen titles : list jsstring)
    : list jsstring :=
  match batch with
  | [] => titles
  | it :: rest =>
      let t := trim (e_title it) in
      match t with
      | [] => export_loop rest seen titles
      | _ :: _ =>
          if bool_decide (t ∈ seen) then export_loop rest seen titles
          else export_loop rest (t :: seen) (titles ++ [t])
      end
  end.

Definition exportTitles (batch : list TitleEntry) : list jsstring :=
  export_loop batch [] [].

(** The key [processNode] files a node under on page [path], if the node
    yields a video id. *)
Definition node_key (ex : option Extracted) (path : jsstring) : option jsstring :=
  match ex with
  | None => None
  | Some ex =>
      match extractVideoIdFromHref (default [] (x_href ex)) with
      | None => None
      | Some vid => Some (vid ++ str "|" ++ path)
      end
  end.

(* ===================================================================== *)
(** * The analysis page: merging profiles, choosing the tags *)
(* ===================================================================== *)

(** A [Record<string, number>]: its own properties with their values.
    The counts are integers. An object has each key once; the order of
    the list stands for the order in which [Object.entries] gives the
    properties. *)
Definition Counts : Type := list (jsstring * Z).

(** The own property [k] of [o], if there is one. *)
Fixpoint obj_get (o : Counts) (k : jsstring) : option Z :=
  match o with
  | [] => None
  | (k', v) :: rest => if bool_decide (k' = k) then Some v else obj_get rest k
  end.

(** [o[k] = v] where [k] is an own property or not a property at all: a
    property that exists gets the value, a new one is added. *)
Fixpoint obj_set (o : Counts) (k : jsstring) (v : Z) : Counts :=
  match o with
  | [] => [(k, v)]
  | (k', v') :: rest =>
      if bool_decide (k' = k) then (k', v) :: rest else (k', v') :: obj_set rest k v
  end.

(** The properties every object inherits from [Object.prototype]. *)
Definition prototype_names : list string :=
  [ "constructor"; "hasOwnProperty"; "isPrototypeOf"; "propertyIsEnumerable";
    "toLocaleString"; "toString"; "valueOf"; "__defineGetter__";
    "__defineSetter__"; "__lookupGetter__"; "__lookupSetter__"; "__proto__" ]%string.

Definition inherited (k : jsstring) : bool :=
  bool_decide (k ∈ map str prototype_names).

Definition is_proto (k : jsstring) : bool := bool_decide (k = str "__proto__").

(** [o[k]] read: the value of an own property, or the function or object
    inherited from [Object.prototype], or [undefined]. *)
Inductive Read :=
| Own (v : Z)
| Inherited
| Undefined.

Definition obj_read (o : Counts) (k : jsstring) : Read :=
  match obj_get o k with
  | Some v => Own v
  | None => if inherited k then Inherited else Undefined
  end.

(** [out[k] = (out[k] || 0) + (v || 0)]. An inherited value is truthy and
    not a number, so [+] makes a string of it. Assigned to [__proto__] the
    string is ignored by the setter, and [out] stays as it is; assigned to
    another inherited name it becomes an own property that is not a count,
    and the result, no histogram any more, is [None]. *)
Definition merge_entry (out : Counts) (e : jsstring * Z) : option Counts :=
  match obj_read out (fst e) with
  | Own x => Some (obj_set out (fst e) (or_num x 0 + or_num (snd e) 0))
  | Undefined => Some (obj_set out (fst e) (0 + or_num (snd e) 0))
  | Inherited => if is_proto (fst e) then Some out else None
  end.

(** One loop of [mergeProfiles]:
    [for (const [k, v] of Object.entries(inc)) out[k] = (out[k] || 0) + (v || 0)],
    with [out] a copy of [base]. *)
Fixpoint merge_counts (out inc : Counts) : option Counts :=
  match inc with
  | [] => Some out
  | e :: rest =>
      match merge_entry out e with
      | Some out' => merge_counts out' rest
      | None => None
      end
  end.

(** [mergeProfiles(base, inc)]; [None] when a value of the result is not a
    number. *)
Definition mergeProfiles (base inc : Profile) : option Profile :=
  match merge_counts (default [] (t0 base)) (default [] (t0 inc)),
        merge_counts (default [] (t1 base)) (default [] (t1 inc)) with
  | Some a, Some b => Some {| t0 := Some a; t1 := Some b; updated_at := None |}
  | _, _ => None
  end.

(** The own count of a key in a histogram, 0 for a key it does not have. *)
Definition count_of (o : option Counts) (k : jsstring) : Z :=
  or_opt_num (obj_get (default [] o) k) 0.

(** [o] has the own property [k]. *)
Definition own (o : Counts) (k : jsstring) : bool :=
  match obj_get o k with Some _ => true | None => false end.

(** A key of the increment that spoils the merge: a name inherited from
    [Object.prototype], other than [__proto__], that [base] does not have
    as an own property. *)
Definition spoils (base : Counts) (k : jsstring) : bool :=
  inherited k && negb (is_proto k) && negb (own base k).

(** A key of the increment that the merge drops: [__proto__], when [base]
    does not have it as an own property. *)
Definition dropped (base : Counts) (k : jsstring) : bool :=
  is_proto k && negb (own base k).

(** The keys of a histogram. *)
Definition keys_of (o : option Counts) : list jsstring := (default [] o).*1.

(** The first occurrence of [sep] in [s]: what stands before it and what
    stands after it. *)
Fixpoint cut (sep s : jsstring) : option (jsstring * jsstring) :=
  if startsWith sep s then Some ([], drop (length sep) s)
  else
    match s with
    | [] => None
    | x :: s' =>
        match cut sep s' with
        | Some (a, b) => Some (x :: a, b)
        | None => None
        end
    end.

(** [s.includes(sep)]. *)
Definition includes (sep s : jsstring) : bool :=
  match cut sep s with Some _ => true | None => false end.

(** [s.split(sep)] for a string [sep] that is not empty. *)
Fixpoint split_str_go (fuel : nat) (sep s : jsstring) : list jsstring :=
  match cut sep s with
  | None => [s]
  | Some (a, rest) =>
      match fuel with
      | O => [a; rest]
      | S fuel' => a :: split_str_go fuel' sep rest
      end
  end.

Definition split_str (sep s : jsstring) : list jsstring :=
  split_str_go (length s) sep s.

(** [k.includes(' > ') ? k.split(' > ')[1] : k]. *)
Definition child_tag (k : jsstring) : jsstring :=
  if includes (str " > ") k then nth 1 (split_str (str " > ") k) [] else k.

(** The loop of [topThreeT1] over [mapped]. *)
Fixpoint uniq_loop (mapped uniq : list jsstring) : list jsstring :=
  match mapped with
  | [] => uniq
  | t :: rest =>
      let uniq' := if bool_decide (t ∈ uniq) then uniq else uniq ++ [t] in
      if (3 <=? length uniq')%nat then uniq' else uniq_loop rest uniq'
  end.

(** [topThreeT1(tagsRanked)]. *)
Definition topThreeT1 (tagsRanked : list (jsstring * Z)) : list jsstring :=
  let mapped := List.filter truthy_str (map (fun e => child_tag (fst e)) tagsRanked) in
  take 3 (uniq_loop mapped []).

(** A string without the character [>]. *)
Definition no_gt (s : jsstring) : Prop := Forall (fun c => c <> 62%N) s.

(* ===================================================================== *)
(** * The relay (extension/bridge.js) *)
(* ===================================================================== *)

Definition NAMESPACE_IN : jsstring := str "thyself-bridge".
Definition NAMESPACE_OUT : jsstring := str "thyself-extension".

(** What [new URL(evt.origin)] gives, as far as the relay reads it. *)
Record Origin := {
  hostname : jsstring;
  port : jsstring
}.

(** [isValidOrigin(evt)]; the origin is [None] when [new URL] throws. *)
Definition isValidOrigin (origin : option Origin) : bool :=
  match origin with
  | None => false
  | Some url =>
      (bool_decide (hostname url = str "localhost")
       || bool_decide (hostname url = str "127.0.0.1"))
      && bool_decide (port url = str "3000")
  end.

(** The [payload] object of a request: its own properties, as far as the
    listeners of the service worker read them. *)
Record Fields := {
  f_type : option string;
  f_payload : option Payload;
  f_limit : option Z;
  f_ids : option (list jsstring);
  f_payload_ids : option (list jsstring);
  f_profile : option Profile;
  f_payload_profile : option Profile;
  f_piece : option Piece;
  f_payload_piece : option Piece
}.

(** [{}]. *)
Definition no_fields : Fields :=
  {| f_type := None; f_payload := None; f_limit := None; f_ids := None;
     f_payload_ids := None; f_profile := None; f_payload_profile := None;
     f_piece := None; f_payload_piece := None |}.

(** [{ type, ...payload }]: a [type] of the payload comes last and wins.
    A [type] that is [undefined] matches no action; it is rendered as the
    empty string. *)
Definition spread (type : option string) (payload : Fields) : Msg :=
  {| m_type := match f_type payload with
               | Some t => t
               | None => default EmptyString type
               end;
     m_payload := f_payload payload; m_limit := f_limit payload;
     m_ids := f_ids payload; m_payload_ids := f_payload_ids payload;
     m_profile := f_profile payload; m_payload_profile := f_payload_profile payload;
     m_piece := f_piece payload; m_payload_piece := f_payload_piece payload |}.

(** [evt.data] of a message posted in the window, whoever posted it. *)
Record WindowData := {
  wd_namespace : jsstring;
  wd_action : option string;
  wd_payload : option Fields;
  wd_requestId : jsstring;
  wd_response : option Response
}.

(** The value the promise of [forward] resolves to, if it resolves. *)
Inductive Forwarded :=
| CallbackWith (resp : option Response)
| NoCallback.

Section Relay.
Context {rt : JSRuntime}.

(** [chrome.runtime.sendMessage(msg, callback)] from the content script:
    the [onMessage] listener of the service worker handles [msg], and
    [callback] gets the first response sent; it is not called as long as
    none is sent. *)
Definition runtime_sendMessage (msg : Msg) (w : World) : Forwarded * World :=
  let w' := snd (onMessage (Some msg) w) in
  (match drop (length (w_sent w)) (w_sent w') with
   | r :: _ => CallbackWith (Some r)
   | [] => NoCallback
   end, w').

(** [forward(type, payload)]. [threw] is what [chrome.runtime.sendMessage]
    throws, as [String(e)], when the call itself fails. *)
Definition forward (threw : option jsstring) (type : option string) (payload : Fields)
    (w : World) : Forwarded * World :=
  match threw with
  | Some e => (CallbackWith (Some (resp_error e)), w)
  | None => runtime_sendMessage (spread type payload) w
  end.

(** The [message] listener of the relay: what it posts back, if anything. *)
Definition relay_listener (threw : option jsstring) (origin : option Origin)
    (data : option WindowData) (w : World) : option WindowData * World :=
  match data with
  | None => (None, w)
  | Some d =>
      if negb (bool_decide (wd_namespace d = NAMESPACE_IN)) then (None, w)
      else if negb (isValidOrigin origin) then (None, w)
      else
        match forward threw (wd_action d) (default no_fields (wd_payload d)) w with
        | (CallbackWith resp, w') =>
            (Some {| wd_namespace := NAMESPACE_OUT; wd_action := None;
                     wd_payload := None; wd_requestId := wd_requestId d;
                     wd_response := resp |}, w')
        | (NoCallback, w') => (None, w')
        end
  end.
End Relay.

(** The message [pmSend(type, payload)] posts. *)
Definition pm_request (type : string) (payload : option Fields) (p : Page) : WindowData :=
  {| wd_namespace := PM_NAMESPACE_IN; wd_action := Some type;
     wd_payload := Some (default no_fields payload);
     wd_requestId := nextRequestId p; wd_response := None |}.

(** What the listener of [pmSend] reads of a window message. *)
Definition seen_by_page (d : WindowData) : BridgeData :=
  {| bd_namespace := wd_namespace d; bd_requestId := wd_requestId d;
     bd_response := wd_response d |}.

(* ===================================================================== *)
(** * The recommendation: proxy route, [postRecommend], the page's append *)
(* ===================================================================== *)

(** The properties of a piece in a JSON body; [None] for a property that
    is missing or [null]. *)
Record JsonPiece := {
  j_title : option jsstring;
  j_url : option jsstring;
  j_source : option jsstring;
  j_author : option jsstring;
  j_publisher : option jsstring;
  j_description : option jsstring;
  j_date : option jsstring;
  j_imageUrl : option jsstring;
  j_image_url : option jsstring
}.

Definition no_piece : JsonPiece :=
  {| j_title := None; j_url := None; j_source := None; j_author := None;
     j_publisher := None; j_description := None; j_date := None;
     j_imageUrl := None; j_image_url := None |}.

(** A parsed JSON body. For an object: [data.piece] when it is truthy;
    whether ['title' in data] and ['url' in data]; and the properties of
    [data] itself read as a piece. *)
Inductive Json :=
| JNotObject
| JObject (piece : option JsonPiece) (has_title has_url : bool) (own : JsonPiece).

(** A [fetch] and the [res.json()] after it: the call throws, or there is
    a response with its [res.status] and a body ([None] when it is not
    JSON). *)
Inductive Fetched :=
| FetchThrows
| Responded (status : Z) (body : option Json).

(** [res.ok]. *)
Definition res_ok (status : Z) : bool := (200 <=? status) && (status <=? 299).

(** The statuses of a response that cannot have a body. *)
Definition null_body_status (status : Z) : bool :=
  (status =? 101) || (status =? 103) || (status =? 204) || (status =? 205)
  || (status =? 304).

(** [Response.json(payload, { status })] throws: a [RangeError] for a
    status outside 200..599, a [TypeError] for a status that cannot have a
    body. *)
Definition json_response_throws (status : Z) : bool :=
  (status <? 200) || (599 <? status) || null_body_status status.

(** [{ error: ... }]. *)
Definition error_body : Json := JObject None false false no_piece.

(** The route [POST /api/recommend]: the analyzer's answer passed on with
    its status, [{ error: 'non-json response' }] for a body that is not
    JSON, and status 500 with [{ error }] when anything throws, the
    making of the response included. *)
Definition recommend_route (analyzer : Fetched) : Fetched :=
  match analyzer with
  | FetchThrows => Responded 500 (Some error_body)
  | Responded status body =>
      let payload := default error_body body in
      if json_response_throws status then Responded 500 (Some error_body)
      else Responded status (Some payload)
  end.

(** A [RecommendPiece]. *)
Record RecommendPiece := {
  rp_title : jsstring;
  rp_url : jsstring;
  rp_source : option jsstring;
  rp_author : option jsstring;
  rp_publisher : option jsstring;
  rp_description : option jsstring;
  rp_date : option jsstring;
  rp_imageUrl : option jsstring
}.

(** [mapImage(p)]. *)
Definition mapImage (p : JsonPiece) : RecommendPiece :=
  {| rp_title := or_opt_str (j_title p) (str "Untitled");
     rp_url := or_opt_str (j_url p) [];
     rp_source := j_source p;
     rp_author := j_author p;
     rp_publisher := j_publisher p;
     rp_description := j_description p;
     rp_date := j_date p;
     rp_imageUrl := Some (or_opt_str (j_imageUrl p) (or_opt_str (j_image_url p) [])) |}.

(** [{ title: 'Untitled', url: '' }]. *)
Definition untitled : RecommendPiece :=
  {| rp_title := str "Untitled"; rp_url := []; rp_source := None; rp_author := None;
     rp_publisher := None; rp_description := None; rp_date := None;
     rp_imageUrl := None |}.

(** [postRecommend(user_id, tags)]: the piece of its result, [None] when it
    throws. *)
Definition postRecommend (res : Fetched) : option RecommendPiece :=
  match res with
  | FetchThrows => None
  | Responded status body =>
      if negb (res_ok status) then None
      else
        match body with
        | None => None
        | Some data =>
            Some match data with
                 | JObject (Some p) _ _ _ => mapImage p
                 | JObject None true true own => mapImage own
                 | _ => untitled
                 end
        end
  end.

(** [a || b] where both may be [undefined]. *)
Definition or_opt (a b : option jsstring) : option jsstring :=
  match a with
  | Some (_ :: _) => a
  | _ => b
  end.

(** The piece the analysis page hands to [appendPiece] after
    [postRecommend], if any; [today] is
    [new Date().toISOString().slice(0, 10).replaceAll('-', '/')]. *)
Definition piece_to_append (today : jsstring) (res : Fetched) : option Piece :=
  match postRecommend res with
  | None => None
  | Some piece =>
      if truthy_str (rp_title piece)
      then Some {| p_date := Some today;
                   p_title := Some (rp_title piece);
                   p_source := or_opt (rp_publisher piece) (rp_source piece);
                   p_url := Some (rp_url piece);
                   p_image_url := or_opt (rp_imageUrl piece) None;
                   p_imageUrl := None |}
      else None
  end.

(* ===================================================================== *)
(** * Concrete inputs used in examples *)
(* ===================================================================== *)

(** A sanitized feed event with the given title and timestamp. *)
Definition feed_event (title : string) (ts : Z) : Event :=
  {| ev_ts := ts; ev_type := str "feed_video"; ev_title := str title;
     ev_videoId := None; ev_href := None; ev_page := None;
     ev_platform := str "youtube" |}.

(** Fourteen days in milliseconds. *)
Definition fourteen_days : Z := 1209600000.

(** A message that carries only its type. *)
Definition bare_msg (ty : string) : Msg :=
  {| m_type := ty; m_payload := None; m_limit := None; m_ids := None;
     m_payload_ids := None; m_profile := None; m_payload_profile := None;
     m_piece := None; m_payload_piece := None |}.

(** A world whose next browser call throws [e]. *)
Definition failing_world (st : Store) (now : Z) (e : jsstring) : World :=
  {| w_store := st; w_events := []; w_clock := now; w_faults := [Some e];
     w_sent := [] |}.

(** A page with a configured direct transport that answers [{ok: true}],
    receiving the given messages for the request id [r1]. *)
Definition page_receiving (msgs : list Delivery) : Page :=
  {| hasWindow := true; hasRuntime := true; EXTENSION_ID := str "abcdefgh";
     nextRequestId := str "r1"; inbox := msgs;
     runtimeReply := Some (Some resp_ok) |}.

(** A relay message for request [rid] carrying [resp]. *)
Definition relay_msg (rid : string) (resp : option Response) : option BridgeData :=
  Some {| bd_namespace := PM_NAMESPACE_OUT; bd_requestId := str rid;
          bd_response := resp |}.

(** The scenario of the duration phrase: the same title seen on two feed
    items, at time 0 and at time 100, with no length of its own. *)
Definition breaking_news : string := "Breaking News Today - 3 minutes, 12 seconds".

Definition first_sighting : Observer * Store * option Payload :=
  sight 0 (str "desktop") (node_with_title "/watch?v=aaaaaa1" breaking_news)
    (fresh_observer, empty_store).

Definition second_sighting : Observer * Store * option Payload :=
  sight 100 (str "desktop") (node_with_title "/watch?v=bbbbbb2" breaking_news)
    (fst first_sighting).

(** The payload of a feed item with the given title, stamped [ts]. *)
Definition feed_payload (title : string) (ts : Z) : Payload :=
  {| pl_ts := Some ts; pl_type := Some (str "feed_video");
     pl_platform := Some (str "youtube"); pl_variant := None;
     pl_videoId := None; pl_title := Some (str title); pl_channel := None;
     pl_length := None; pl_badges := []; pl_position := None;
     pl_href := None; pl_page := None |}.

(* ===================================================================== *)
(** * Basic facts *)
(* ===================================================================== *)

Lemma or_num_0_r (a : Z) : or_num a 0 = a.
Proof. unfold or_num. destruct (Z.eqb_spec a 0); congruence. Qed.

Section TitleStoreFacts.
Context {rt : JSRuntime}.

(** A run of [update] in a quiet world persists [updatedTitles]. *)
Lemma update_at_eq now evt st :
  update_at now evt st
  = set_titles_batch (updatedTitles now evt (list_titles st)) st.
Proof. reflexivity. Qed.

Lemma list_titles_update_at now evt st :
  list_titles (update_at now evt st) = updatedTitles now evt (list_titles st).
Proof. reflexivity. Qed.

Lemma elem_of_cleaned_titles now l e :
  e ∈ cleaned_titles now l <-> keepAfter now <= e_ts e /\ e ∈ l.
Proof. unfold cleaned_titles. by rewrite list_elem_of_filter. Qed.

End TitleStoreFacts.

(** ** The loop as [upsert] *)

Lemma list_find_upsert {A} (P : A -> Prop) `{forall x, Decision (P x)}
    (f : A -> A) (y : A) (l : list A) :
  match list_find P l with
  | Some (i, x) => <[ i := f x ]> l
  | None => l ++ [y]
  end = upsert P f y l.
Proof.
  induction l as [|x r IH]; simpl; [reflexivity|].
  destruct (decide (P x)); simpl; [reflexivity|].
  destruct (list_find P r) as [[i z]|]; simpl; simpl in IH; by rewrite IH.
Qed.

Lemma filter_upsert {A} (P : A -> Prop) `{forall x, Decision (P x)}
    (f : A -> A) (y : A) (l : list A) :
  (forall x, P x -> P (f x)) -> P y ->
  filter P (upsert P f y l)
  = match filter P l with [] => [y] | x :: r => f x :: r end.
Proof.
  intros Hf Hy. induction l as [|x r IH]; simpl.
  - by rewrite filter_cons_True, filter_nil.
  - destruct (decide (P x)) as [Hx|Hx].
    + rewrite (filter_cons_True P x r Hx).
      by rewrite filter_cons_True by auto.
    + rewrite !filter_cons_False by done. exact IH.
Qed.

Lemma filter_upsert_other {A} (P Q : A -> Prop) `{forall x, Decision (P x)}
    `{forall x, Decision (Q x)} (f : A -> A) (y : A) (l : list A) :
  (forall x, P x -> ~ Q x) -> (forall x, P x -> ~ Q (f x)) -> ~ Q y ->
  filter Q (upsert P f y l) = filter Q l.
Proof.
  intros HPQ Hf Hy. induction l as [|x r IH]; simpl.
  - by rewrite filter_cons_False.
  - destruct (decide (P x)) as [Hx|Hx].
    + rewrite !filter_cons_False; auto.
    + destruct (decide (Q x)).
      * rewrite !filter_cons_True by done. by rewrite IH.
      * rewrite !filter_cons_False by done. exact IH.
Qed.

Section TitleStoreProofs.
Context {rt : JSRuntime}.

Lemma updatedTitles_empty_norm now evt l :
  normalizeTitle (ev_title evt) = [] ->
  updatedTitles now evt l = cleaned_titles now l.
Proof. intros H. unfold updatedTitles. by rewrite H. Qed.

Lemma updatedTitles_upsert now evt l :
  normalizeTitle (ev_title evt) <> [] ->
  updatedTitles now evt l
  = upsert (fun x => e_id x = hashStr (normalizeTitle (ev_title evt)))
      (refreshed_entry now evt) (new_entry now evt) (cleaned_titles now l).
Proof.
  intros H. unfold updatedTitles.
  destruct (normalizeTitle (ev_title evt)) as [|c s] eqn:E; [done|].
  apply list_find_upsert.
Qed.

Lemma with_id_cleaned h now l :
  with_id h (cleaned_titles now l)
  = filter (fun x => keepAfter now <= e_ts x) (with_id h l).
Proof.
  unfold with_id, cleaned_titles.
  induction l as [|x r IH]; [reflexivity|].
  destruct (decide (keepAfter now <= e_ts x)) as [Hw|Hw];
    destruct (decide (e_id x = h)) as [Hi|Hi];
    repeat (first [ rewrite filter_cons_True by done
                  | rewrite filter_cons_False by done ]);
    by rewrite IH.
Qed.

(** The entries of the event's id after an update. *)
Lemma with_id_updated now evt l :
  normalizeTitle (ev_title evt) <> [] ->
  with_id (hashStr (normalizeTitle (ev_title evt))) (updatedTitles now evt l)
  = match with_id (hashStr (normalizeTitle (ev_title evt))) (cleaned_titles now l) with
    | [] => [new_entry now evt]
    | x :: r => refreshed_entry now evt x :: r
    end.
Proof.
  intros H. rewrite updatedTitles_upsert by done.
  unfold with_id. by apply filter_upsert.
Qed.

(** Entries of another id are only pruned. *)
Lemma with_id_updated_other h now evt l :
  h <> hashStr (normalizeTitle (ev_title evt)) ->
  with_id h (updatedTitles now evt l) = with_id h (cleaned_titles now l).
Proof.
  intros Hh.
  destruct (normalizeTitle (ev_title evt)) as [|c s] eqn:E.
  - by rewrite updatedTitles_empty_norm.
  - rewrite updatedTitles_upsert by (rewrite E; done). rewrite E.
    unfold with_id. apply filter_upsert_other; simpl; try congruence.
Qed.

(** One further sighting of a title whose entry is [e]. *)
Lemma with_id_resighted now evt l e :
  normalizeTitle (ev_title evt) <> [] ->
  with_id (hashStr (normalizeTitle (ev_title evt))) l = [e] ->
  exists e',
    with_id (hashStr (normalizeTitle (ev_title evt))) (updatedTitles now evt l) = [e']
    /\ e_ts e' = if decide (keepAfter now <= e_ts e)
                 then Z.max (e_ts e) (sighting_ts now evt)
                 else sighting_ts now evt.
Proof.
  intros Hn He. rewrite with_id_updated by done.
  rewrite with_id_cleaned, He.
  destruct (decide (keepAfter now <= e_ts e)) as [Hw|Hw].
  - rewrite filter_cons_True by done. rewrite filter_nil.
    eexists; split; [reflexivity|]. simpl. by rewrite or_num_0_r.
  - rewrite filter_cons_False by done. rewrite filter_nil.
    eexists; split; [reflexivity|]. reflexivity.
Qed.

(** A first sighting. *)
Lemma with_id_first_sighting now evt l :
  normalizeTitle (ev_title evt) <> [] ->
  with_id (hashStr (normalizeTitle (ev_title evt))) l = [] ->
  with_id (hashStr (normalizeTitle (ev_title evt))) (updatedTitles now evt l)
  = [new_entry now evt].
Proof.
  intros Hn He. rewrite with_id_updated by done.
  by rewrite with_id_cleaned, He, filter_nil.
Qed.

Lemma run_updates_cons c calls st :
  run_updates (c :: calls) st = run_updates calls (update_at (fst c) (snd c) st).
Proof. reflexivity. Qed.

(** Repeat sightings keep a single entry, carrying the running maximum. *)
Lemma resightings_keep_one s calls : forall st e,
  s <> [] ->
  Forall (fun c => normalizeTitle (ev_title (snd c)) = s) calls ->
  with_id (hashStr s) (list_titles st) = [e] ->
  window_respected (e_ts e) calls = true ->
  exists e',
    with_id (hashStr s) (list_titles (run_updates calls st)) = [e']
    /\ e_ts e' = fold_left Z.max (map call_ts calls) (e_ts e).
Proof.
  induction calls as [|[now evt] calls IH]; intros st e Hs Hall He Hw.
  - exists e. by split.
  - apply Forall_cons in Hall as [Hc Hall]. simpl in Hc.
    simpl in Hw. apply andb_prop in Hw as [Hk Hw].
    rewrite run_updates_cons. simpl fst. simpl snd.
    assert (Hn : normalizeTitle (ev_title evt) <> []) by (rewrite Hc; done).
    rewrite <- Hc in He.
    destruct (with_id_resighted now evt (list_titles st) e Hn He) as (e1 & H1 & Ht).
    rewrite Hc in H1.
    assert (Ht' : e_ts e1 = Z.max (e_ts e) (call_ts (now, evt))).
    { rewrite Ht. unfold call_ts; simpl. unfold call_ts in Hk; simpl in Hk.
      destruct (decide (keepAfter now <= e_ts e)) as [Hd|Hd]; [done|].
      apply orb_prop in Hk as [Hk|Hk]; [apply Z.leb_le in Hk; lia|].
      apply Z.leb_le in Hk. lia. }
    destruct (IH (update_at now evt st) e1 Hs Hall) as (e' & H' & Ht'').
    + by rewrite list_titles_update_at.
    + by rewrite Ht'.
    + exists e'. split; [done|]. simpl. by rewrite Ht'', Ht'.
Qed.

(** Repeat sightings keep a single entry, whatever their timestamps and
    however far apart the calls are: an entry pruned by the retention is
    created again by the same call. *)
Lemma resightings_always_one s calls : forall st e,
  s <> [] ->
  Forall (fun c => normalizeTitle (ev_title (snd c)) = s) calls ->
  with_id (hashStr s) (list_titles st) = [e] ->
  exists e', with_id (hashStr s) (list_titles (run_updates calls st)) = [e'].
Proof.
  induction calls as [|[now evt] calls IH]; intros st e Hs Hall He.
  - by exists e.
  - apply Forall_cons in Hall as [Hc Hall]. simpl in Hc.
    rewrite run_updates_cons. simpl fst. simpl snd.
    assert (Hn : normalizeTitle (ev_title evt) <> []) by (rewrite Hc; done).
    rewrite <- Hc in He.
    destruct (with_id_resighted now evt (list_titles st) e Hn He) as (e1 & H1 & _).
    rewrite Hc in H1.
    apply (IH (update_at now evt st) e1 Hs Hall).
    by rewrite list_titles_update_at.
Qed.
End TitleStoreProofs.

Section LiveClock.
Context {rt : JSRuntime}.

(** The content script stamps a sighting with the clock: when every
    further call carries its own time and the clock does not go back, the
    condition on the retention window holds, however far apart the
    sightings are. *)
Lemma window_respected_live_clock calls : forall t,
  Forall (fun c => call_ts c = fst c) calls ->
  StronglySorted Z.le (t :: map fst calls) ->
  window_respected t calls = true.
Proof.
  induction calls as [|c calls IH]; intros t Hts Hs; [reflexivity|].
  apply Forall_cons in Hts as [Hc Hts]. simpl in Hs.
  apply StronglySorted_inv in Hs as [Hs Ht].
  pose proof Ht as Ht'. apply List.Forall_cons_iff in Ht' as [Htc _].
  simpl. apply andb_true_intro. split.
  - apply orb_true_intro. right. apply Z.leb_le. rewrite Hc. exact Htc.
  - rewrite Hc. replace (Z.max t (fst c)) with (fst c) by lia. by apply IH.
Qed.
End LiveClock.

(* ===================================================================== *)
(** * C1: deduplication *)
(* ===================================================================== *)

(** C1 (as amended). For a non-empty sequence of [update] calls whose event
    titles all normalize to the same non-empty string [s], run on a store
    that has no entry for [hashStr s], the resulting [titles_batch] has
    exactly one entry with id [hashStr s]; its [ts] is the maximum of the
    sightings' timestamps ([evt.ts || now]) as long as, at each later call,
    the entry is still inside the 14-day window or the incoming timestamp is
    not older than the maximum so far. *)
Theorem title_dedup_exactly_one_latest `{rt : JSRuntime}
    (s : jsstring) (c : Z * Event) (calls : list (Z * Event)) (st : Store) :
  s <> [] ->
  Forall (fun c => normalizeTitle (ev_title (snd c)) = s) (c :: calls) ->
  with_id (hashStr s) (list_titles st) = [] ->
  exists e,
    with_id (hashStr s) (list_titles (run_updates (c :: calls) st)) = [e]
    /\ (window_respected (call_ts c) calls = true ->
        e_ts e = max_sighting (c :: calls)).
Proof.
  intros Hs Hall Hst.
  apply Forall_cons in Hall as [Hc Hall].
  rewrite run_updates_cons.
  assert (Hn : normalizeTitle (ev_title (snd c)) <> []) by (rewrite Hc; done).
  pose proof (with_id_first_sighting (fst c) (snd c) (list_titles st) Hn) as H1.
  rewrite Hc in H1. specialize (H1 Hst).
  assert (H0 : with_id (hashStr s) (list_titles (update_at (fst c) (snd c) st))
               = [new_entry (fst c) (snd c)])
    by (by rewrite list_titles_update_at).
  destruct (window_respected (call_ts c) calls) eqn:Hw.
  - destruct (resightings_keep_one s calls (update_at (fst c) (snd c) st)
                (new_entry (fst c) (snd c)) Hs Hall H0 Hw) as (e & He & Ht).
    exists e. split; [exact He|]. intros _. exact Ht.
  - destruct (resightings_always_one s calls (update_at (fst c) (snd c) st)
                (new_entry (fst c) (snd c)) Hs Hall H0) as (e & He).
    exists e. split; [exact He|]. intros [=].
Qed.

(** Two sightings of the same title inside the window. *)
Lemma title_dedup_exactly_one_latest_witness :
  exists e,
    with_id (hashStr (str "a"))
      (list_titles (run_updates [(100, feed_event "a" 100); (200, feed_event "A" 150)]
                      empty_store)) = [e]
    /\ e_ts e = 150.
Proof.
  destruct (title_dedup_exactly_one_latest (str "a") (100, feed_event "a" 100)
              [(200, feed_event "A" 150)] empty_store) as (e & He & Ht).
  - discriminate.
  - repeat constructor.
  - reflexivity.
  - exists e. split; [exact He|]. by apply Ht.
Defined.

(** C1 as stated fails: the first sighting (ts 100) is pruned by an update
    that runs more than 14 days later with an older timestamp (ts 50); the
    single entry then carries 50, not the maximum 100. *)
Lemma title_dedup_stale_counterexample :
  let calls := [(100, feed_event "a" 100); (fourteen_days + 101, feed_event "a" 50)] in
  Forall (fun c => normalizeTitle (ev_title (snd c)) = str "a") calls
  /\ max_sighting calls = 100
  /\ list_titles (run_updates calls empty_store)
     = [ {| e_id := hashStr (str "a"); e_title := str "a"; e_ts := 50;
            e_platform := str "youtube" |} ]
  /\ ~ (exists e,
          with_id (hashStr (str "a")) (list_titles (run_updates calls empty_store)) = [e]
          /\ e_ts e = max_sighting calls).
Proof.
  simpl. split; [repeat constructor|]. split; [reflexivity|].
  split; [vm_compute; reflexivity|].
  intros (e & He & Ht). vm_compute in He. inversion He; subst e.
  vm_compute in Ht. discriminate.
Qed.

(* ===================================================================== *)
(** * Rules for store invariants *)
(* ===================================================================== *)

Section Keeps.
Variable I : Store -> Prop.

Lemma keeps_weaken {A} (m : M A) (R R' : A -> Prop) :
  keeps I m R -> (forall a, R a -> R' a) -> keeps I m R'.
Proof. intros H HR w Hw. destruct (H w Hw) as [H1 H2]. split; eauto. Qed.

Lemma keeps_ret {A} (a : A) (R : A -> Prop) : R a -> keeps I (ret a) R.
Proof. intros Ha w Hw. split; [exact Hw|]. simpl. intros b [= <-]. exact Ha. Qed.

Lemma keeps_bind {A B} (m : M A) (k : A -> M B) (R : A -> Prop) (R' : B -> Prop) :
  keeps I m R -> (forall a, R a -> keeps I (k a) R') -> keeps I (bind m k) R'.
Proof.
  intros Hm Hk w Hw. unfold bind.
  destruct (Hm w Hw) as [H1 H2].
  destruct (m w) as [[a|e|] w'] eqn:E; simpl in *.
  - apply (Hk a (H2 a eq_refl) w' H1).
  - split; [exact H1|]. intros b [=].
  - split; [exact H1|]. intros b [=].
Qed.

Lemma keeps_try_catch {A} (m : M A) (h : jsstring -> M A) (R : A -> Prop) :
  keeps I m R -> (forall e, keeps I (h e) R) -> keeps I (try_catch m h) R.
Proof.
  intros Hm Hh w Hw. unfold try_catch.
  destruct (Hm w Hw) as [H1 H2].
  destruct (m w) as [[a|e|] w'] eqn:E; simpl in *.
  - split; [exact H1|]. intros b [= <-]. by apply H2.
  - apply (Hh e w' H1).
  - split; [exact H1|]. intros b [=].
Qed.

Lemma keeps_browser_call {A} (f : World -> A * World) (R : A -> Prop) :
  (forall w, I (w_store w) -> I (w_store (snd (f w))) /\ R (fst (f w))) ->
  keeps I (browser_call f) R.
Proof.
  intros Hf w Hw. unfold browser_call.
  destruct (w_faults w) as [|[e|] fs] eqn:E.
  - destruct (Hf w Hw) as [H1 H2]. destruct (f w) as [a w'] eqn:Ef; simpl in *.
    split; [exact H1|]. intros b [= <-]. exact H2.
  - simpl. split; [exact Hw|]. intros b [=].
  - destruct (Hf (with_faults fs w) Hw) as [H1 H2].
    destruct (f (with_faults fs w)) as [a w'] eqn:Ef; simpl in *.
    split; [exact H1|]. intros b [= <-]. exact H2.
Qed.

Lemma keeps_pending_call {A} (f : World -> A * World) (R : A -> Prop) :
  (forall w, I (w_store w) -> I (w_store (snd (f w))) /\ R (fst (f w))) ->
  keeps I (pending_call f) R.
Proof.
  intros Hf w Hw. unfold pending_call.
  destruct (w_faults w) as [|[e|] fs] eqn:E.
  - destruct (Hf w Hw) as [H1 H2]. destruct (f w) as [a w'] eqn:Ef; simpl in *.
    split; [exact H1|]. intros b [= <-]. exact H2.
  - simpl. split; [exact Hw|]. intros b [=].
  - destruct (Hf (with_faults fs w) Hw) as [H1 H2].
    destruct (f (with_faults fs w)) as [a w'] eqn:Ef; simpl in *.
    split; [exact H1|]. intros b [= <-]. exact H2.
Qed.

Lemma keeps_openDB : keeps I openDB (fun _ => True).
Proof. apply keeps_browser_call. intros w Hw. by split. Qed.

Lemma keeps_Date_now : keeps I Date_now (fun _ => True).
Proof. intros w Hw. split; [exact Hw|done]. Qed.

Lemma keeps_getStore : keeps I getStore I.
Proof. apply keeps_browser_call. intros w Hw. by split. Qed.

Lemma keeps_setStore upd :
  (forall s, I s -> I (upd s)) -> keeps I (setStore upd) (fun _ => True).
Proof. intros H. apply keeps_browser_call. intros w Hw. simpl. split; auto. Qed.

Lemma keeps_sendResponse r : keeps I (sendResponse r) (fun _ => True).
Proof. intros w Hw. split; [exact Hw|done]. Qed.

Lemma keeps_addEvent evt : keeps I (addEvent evt) (fun _ => True).
Proof. apply keeps_browser_call. intros w Hw. by split. Qed.

Lemma keeps_getRecent limit : keeps I (getRecent limit) (fun _ => True).
Proof.
  eapply keeps_bind; [apply keeps_openDB|]. intros _ _.
  apply keeps_pending_call. intros w Hw. by split.
Qed.

Lemma keeps_clearAll : keeps I clearAll (fun _ => True).
Proof.
  eapply keeps_bind; [apply keeps_openDB|]. intros _ _.
  apply keeps_pending_call. intros w Hw. by split.
Qed.
End Keeps.

(** One step of a proof that a handler keeps an invariant: split a bind,
    discharge a primitive. *)
Ltac keeps_prim :=
  first [ apply keeps_Date_now | apply keeps_getStore | apply keeps_sendResponse
        | apply keeps_addEvent | apply keeps_getRecent | apply keeps_clearAll
        | apply keeps_ret; exact Logic.I ].

Ltac keeps_step :=
  first [ keeps_prim
        | eapply keeps_bind; [ keeps_prim | intros ? ? ]
        | eapply keeps_weaken; [ keeps_prim | done ] ].

Section RouterKeeps.
Context {rt : JSRuntime}.
Variable I : Store -> Prop.

(** The conditions under which each write of the handlers keeps [I]. *)
Hypothesis I_update : forall now evt s st,
  I s -> I st -> I (set_titles_batch (updatedTitles now evt (default [] (titles_batch st))) s).
Hypothesis I_clear_titles : forall s, I s -> I (set_titles_batch [] s).
Hypothesis I_ack : forall ids s st,
  I s -> I st -> I (set_titles_batch (ackedTitles ids (default [] (titles_batch st))) s).
Hypothesis I_set_profile : forall p now s, I s ->
  I {| titles_batch := titles_batch s; profile_histogram := Some p;
       pieces_archive := pieces_archive s; last_webapp_sync_at := Some now |}.
Hypothesis I_append : forall arr now s, I s ->
  I {| titles_batch := titles_batch s; profile_histogram := profile_histogram s;
       pieces_archive := Some arr; last_webapp_sync_at := Some now |}.
Hypothesis I_clear_profile : forall now s, I s ->
  I {| titles_batch := titles_batch s; profile_histogram := None;
       pieces_archive := Some []; last_webapp_sync_at := Some now |}.

Lemma keeps_updateTitlesBatchFromEvent evt :
  keeps I (updateTitlesBatchFromEvent evt) (fun _ => True).
Proof.
  unfold updateTitlesBatchFromEvent.
  eapply keeps_bind; [apply keeps_Date_now|]. intros now _.
  eapply keeps_bind; [apply keeps_getStore|]. intros st Hst.
  apply keeps_setStore. intros s Hs. by apply I_update.
Qed.

Lemma keeps_enqueueTitlesUpdate evt :
  keeps I (enqueueTitlesUpdate evt) (fun _ => True).
Proof.
  apply keeps_try_catch; [apply keeps_updateTitlesBatchFromEvent|].
  intros e. by apply keeps_ret.
Qed.

Lemma keeps_getTitlesBatch : keeps I getTitlesBatch (fun _ => True).
Proof. unfold getTitlesBatch. repeat keeps_step. Qed.

Lemma keeps_clearTitlesBatch : keeps I clearTitlesBatch (fun _ => True).
Proof. apply keeps_setStore. exact I_clear_titles. Qed.

Lemma keeps_setProfileHistogram p : keeps I (setProfileHistogram p) (fun _ => True).
Proof.
  unfold setProfileHistogram.
  eapply keeps_bind; [apply keeps_Date_now|]. intros now _.
  apply keeps_setStore. intros s Hs. by apply I_set_profile.
Qed.

Lemma keeps_getProfileHistogram : keeps I getProfileHistogram (fun _ => True).
Proof. unfold getProfileHistogram. repeat keeps_step. Qed.

Lemma keeps_appendPiece p : keeps I (appendPiece p) (fun _ => True).
Proof.
  unfold appendPiece.
  eapply keeps_bind; [apply keeps_getStore|]. intros st Hst.
  eapply keeps_bind; [apply keeps_Date_now|]. intros now _.
  apply keeps_setStore. intros s Hs. by apply I_append.
Qed.

Lemma keeps_getArchive : keeps I getArchive (fun _ => True).
Proof. unfold getArchive. repeat keeps_step. Qed.

Lemma keeps_clearProfileAndArchive : keeps I clearProfileAndArchive (fun _ => True).
Proof.
  unfold clearProfileAndArchive.
  eapply keeps_bind; [apply keeps_Date_now|]. intros now _.
  apply keeps_setStore. intros s Hs. by apply I_clear_profile.
Qed.

Lemma keeps_getStatus : keeps I getStatus (fun _ => True).
Proof. unfold getStatus. repeat keeps_step. Qed.

Lemma keeps_ackTitles ids : keeps I (ackTitles ids) (fun _ => True).
Proof.
  unfold ackTitles. destruct ids as [|i ids]; [by apply keeps_ret|].
  eapply keeps_bind; [apply keeps_getStore|]. intros st Hst.
  destruct (default [] (titles_batch st)) as [|x l] eqn:E; [by apply keeps_ret|].
  apply keeps_setStore. intros s Hs. rewrite <- E. by apply I_ack.
Qed.

Ltac keeps_handler :=
  first [ apply keeps_enqueueTitlesUpdate | apply keeps_getTitlesBatch
        | apply keeps_clearTitlesBatch | apply keeps_setProfileHistogram
        | apply keeps_getProfileHistogram | apply keeps_appendPiece
        | apply keeps_getArchive | apply keeps_clearProfileAndArchive
        | apply keeps_getStatus | apply keeps_ackTitles | keeps_prim ].

Ltac keeps_branch :=
  repeat first [ keeps_handler
               | eapply keeps_bind; [ keeps_handler | intros ? ? ] ].

Lemma keeps_dispatch msg : keeps I (dispatch msg) (fun _ => True).
Proof.
  unfold dispatch. destruct msg as [msg|]; [|by apply keeps_ret].
  destruct (String.eqb (m_type msg) "LCL_ADD_EVENT").
  { eapply keeps_bind; [apply keeps_Date_now|]. intros now _.
    destruct (sanitizeEvent now (m_payload msg)); keeps_branch. }
  repeat (match goal with
          | |- context [if String.eqb ?a ?b then _ else _] =>
              destruct (String.eqb a b)
          end; [by keeps_branch|]).
  by apply keeps_ret.
Qed.

Lemma keeps_onMessage msg : keeps I (onMessage msg) (fun _ => True).
Proof.
  apply keeps_try_catch; [apply keeps_dispatch|].
  intros e. apply keeps_sendResponse.
Qed.

Lemma keeps_dispatchExternal msg : keeps I (dispatchExternal msg) (fun _ => True).
Proof.
  unfold dispatchExternal. destruct msg as [msg|]; [|apply keeps_sendResponse].
  repeat (match goal with
          | |- context [if String.eqb ?a ?b then _ else _] =>
              destruct (String.eqb a b)
          end; [by keeps_branch|]).
  apply keeps_sendResponse.
Qed.

Lemma keeps_onMessageExternal msg : keeps I (onMessageExternal msg) (fun _ => True).
Proof.
  apply keeps_try_catch; [apply keeps_dispatchExternal|].
  intros e. apply keeps_sendResponse.
Qed.
End RouterKeeps.

(* ===================================================================== *)
(** * Retention, and updates that add nothing *)
(* ===================================================================== *)

Lemma elem_of_upsert {A} (P : A -> Prop) `{forall x, Decision (P x)}
    (f : A -> A) (y : A) (l : list A) (x : A) :
  x ∈ upsert P f y l ->
  x ∈ l \/ (exists z, z ∈ l /\ P z /\ x = f z) \/ x = y.
Proof.
  induction l as [|a r IH]; simpl.
  - intros Hx. apply list_elem_of_singleton in Hx. auto.
  - destruct (decide (P a)) as [Ha|Ha]; intros Hx.
    + apply elem_of_cons in Hx as [->|Hx].
      * right. left. exists a. split; [left|]. done.
      * left. by right.
    + apply elem_of_cons in Hx as [->|Hx]; [left; left|].
      destruct (IH Hx) as [?|[(z & ? & ? & ?)|?]]; auto.
      * left. by right.
      * right. left. exists z. split; [by right|done].
Qed.

Lemma upsert_keeps {A} (P : A -> Prop) `{forall x, Decision (P x)}
    (f : A -> A) (y : A) (l : list A) (x : A) :
  x ∈ l -> x ∈ upsert P f y l \/ (P x /\ f x ∈ upsert P f y l).
Proof.
  induction l as [|a r IH]; simpl; intros Hx; [by apply elem_of_nil in Hx|].
  destruct (decide (P a)) as [Ha|Ha].
  - apply elem_of_cons in Hx as [->|Hx].
    + right. split; [done|left].
    + left. by right.
  - apply elem_of_cons in Hx as [->|Hx]; [left; left|].
    destruct (IH Hx) as [?|[? ?]]; [left|right; split; [done|]]; by right.
Qed.

Section Retention.
Context {rt : JSRuntime}.

Lemma elem_of_updatedTitles now evt l x :
  x ∈ updatedTitles now evt l ->
  x ∈ cleaned_titles now l
  \/ (exists z, z ∈ cleaned_titles now l /\ x = refreshed_entry now evt z)
  \/ (normalizeTitle (ev_title evt) <> [] /\ x = new_entry now evt).
Proof.
  destruct (normalizeTitle (ev_title evt)) as [|c s] eqn:E.
  - rewrite updatedTitles_empty_norm by done. auto.
  - rewrite updatedTitles_upsert by (rewrite E; done).
    intros Hx. apply elem_of_upsert in Hx as [?|[(z & ? & ? & ?)|?]];
      [auto | eauto 10 | right; right; split; done].
Qed.

Lemma updatedTitles_keeps now evt l x :
  x ∈ l -> keepAfter now <= e_ts x ->
  x ∈ updatedTitles now evt l \/ refreshed_entry now evt x ∈ updatedTitles now evt l.
Proof.
  intros Hx Hw.
  assert (Hc : x ∈ cleaned_titles now l) by (by apply elem_of_cleaned_titles).
  destruct (normalizeTitle (ev_title evt)) as [|c s] eqn:E.
  - rewrite updatedTitles_empty_norm by done. auto.
  - rewrite updatedTitles_upsert by (rewrite E; done).
    eapply upsert_keeps in Hc as [?|[_ ?]]; eauto.
Qed.

Lemma refreshed_entry_ts_ge now evt z : e_ts z <= e_ts (refreshed_entry now evt z).
Proof. simpl. rewrite or_num_0_r. lia. Qed.

Lemma updatedTitles_well_keyed now evt l :
  Forall well_keyed l -> Forall well_keyed (updatedTitles now evt l).
Proof.
  rewrite !Forall_forall. intros Hl x Hx.
  apply elem_of_updatedTitles in Hx as [Hx|[(z & Hz & ->)|[Hn ->]]].
  - apply Hl. by apply elem_of_cleaned_titles in Hx as [_ ?].
  - apply elem_of_cleaned_titles in Hz as [_ Hz]. exact (Hl z Hz).
  - split; [exact Hn|reflexivity].
Qed.

(** Every store the listener can produce keeps the entries well keyed. *)
Lemma well_keyed_conditions :
  let I := fun s : Store => Forall well_keyed (list_titles s) in
  (forall now evt s st, I s -> I st ->
     I (set_titles_batch (updatedTitles now evt (default [] (titles_batch st))) s))
  /\ (forall s, I s -> I (set_titles_batch [] s))
  /\ (forall ids s st, I s -> I st ->
     I (set_titles_batch (ackedTitles ids (default [] (titles_batch st))) s)).
Proof.
  intros I. split; [|split].
  - intros ? ? s st' _ H'. by apply updatedTitles_well_keyed.
  - intros s _. constructor.
  - intros ids s st' _ H'. unfold I, list_titles; simpl. unfold ackedTitles.
    apply Forall_forall. intros x Hx. apply list_elem_of_filter in Hx as [_ Hx].
    revert x Hx. by apply Forall_forall.
Qed.

Lemma reachable_well_keyed st :
  reachable st -> Forall well_keyed (list_titles st).
Proof.
  destruct well_keyed_conditions as (Hu & Hc & Ha).
  induction 1 as [|st msg now faults evs sent Hst IH
                  |st msg now faults evs sent Hst IH].
  - constructor.
  - assert (K : keeps (fun s => Forall well_keyed (list_titles s))
                  (onMessage msg) (fun _ => True))
      by (apply keeps_onMessage; by auto).
    exact (proj1 (K {| w_store := st; w_events := evs; w_clock := now;
                       w_faults := faults; w_sent := sent |} IH)).
  - assert (K : keeps (fun s => Forall well_keyed (list_titles s))
                  (onMessageExternal msg) (fun _ => True))
      by (apply keeps_onMessageExternal; by auto).
    exact (proj1 (K {| w_store := st; w_events := evs; w_clock := now;
                       w_faults := faults; w_sent := sent |} IH)).
Qed.
End Retention.

(* ===================================================================== *)
(** * C3: retention *)
(* ===================================================================== *)

(** C3 (as amended). When an [update] runs at time [now], an entry of the
    loaded list whose [ts] is older than [now] minus 14 days is pruned: it
    can only be found in the persisted list if the update's own event
    re-creates it as its new entry. An entry inside the window is kept, as
    it is or with its [ts] refreshed by the event. *)
Theorem retention_prunes_stale_entries `{rt : JSRuntime}
    (now : Z) (evt : Event) (st : Store) (e : TitleEntry) :
  e ∈ list_titles st ->
  keepAfter now = now - 14 * 24 * 60 * 60 * 1000
  /\ titles_batch (update_at now evt st) = Some (list_titles (update_at now evt st))
  /\ (e_ts e < keepAfter now ->
      e ∈ list_titles (update_at now evt st) -> e = new_entry now evt)
  /\ (keepAfter now <= e_ts e ->
      e ∈ list_titles (update_at now evt st)
      \/ refreshed_entry now evt e ∈ list_titles (update_at now evt st)).
Proof.
  intros He. split; [reflexivity|]. split; [reflexivity|].
  rewrite list_titles_update_at. split.
  - intros Hold Hin.
    apply elem_of_updatedTitles in Hin as [Hin|[(z & Hz & ->)|[_ ->]]].
    + apply elem_of_cleaned_titles in Hin as [? _]. lia.
    + apply elem_of_cleaned_titles in Hz as [Hz _].
      pose proof (refreshed_entry_ts_ge now evt z). lia.
    + reflexivity.
  - intros Hw. by apply updatedTitles_keeps.
Qed.

(** A store with one stale and one recent entry, updated by another title. *)
Lemma retention_prunes_stale_entries_witness :
  let stale := {| e_id := hashStr (str "old"); e_title := str "old"; e_ts := 5;
                  e_platform := str "youtube" |} in
  let st := set_titles_batch
              [stale; {| e_id := hashStr (str "new"); e_title := str "new";
                         e_ts := fourteen_days; e_platform := str "youtube" |}]
              empty_store in
  let now := fourteen_days + 100 in
  e_ts stale < keepAfter now
  /\ (stale ∈ list_titles (update_at now (feed_event "b" now) st) ->
      stale = new_entry now (feed_event "b" now)).
Proof.
  intros stale st now. split; [reflexivity|].
  apply (retention_prunes_stale_entries now (feed_event "b" now) st stale).
  - left.
  - reflexivity.
Defined.

(** C3 as stated fails: an event that carries a timestamp older than the
    window re-creates the very entry the update has just pruned, so an entry
    older than 14 days is in the persisted list afterwards. *)
Lemma retention_stale_event_counterexample :
  let e := {| e_id := hashStr (str "a"); e_title := str "a"; e_ts := 5;
              e_platform := str "youtube" |} in
  let st := set_titles_batch [e] empty_store in
  let now := fourteen_days + 100 in
  e ∈ list_titles st
  /\ e_ts e < keepAfter now
  /\ list_titles (update_at now (feed_event "a" 5) st) = [e]
  /\ ~ (e ∉ list_titles (update_at now (feed_event "a" 5) st)).
Proof.
  intros e st now. split; [left|]. split; [reflexivity|].
  assert (H : list_titles (update_at now (feed_event "a" 5) st) = [e])
    by (vm_compute; reflexivity).
  split; [exact H|]. rewrite H. intros Hn. apply Hn. left.
Qed.

(* ===================================================================== *)
(** * C10: events whose title normalizes to the empty string *)
(* ===================================================================== *)

(** C10. An [update] whose event title normalizes to the empty string
    persists exactly the pruned list: nothing is appended and no entry is
    modified. Hence, in every store the listener can reach, each entry is
    keyed by the hash of a non-empty normalized title: none stems from such
    an event. *)
Theorem empty_normalization_only_prunes `{rt : JSRuntime}
    (now : Z) (evt : Event) (st : Store) :
  normalizeTitle (ev_title evt) = [] ->
  titles_batch (update_at now evt st) = Some (cleaned_titles now (list_titles st))
  /\ (forall e, e ∈ list_titles (update_at now evt st) ->
        e ∈ list_titles st /\ keepAfter now <= e_ts e)
  /\ (forall e, e ∈ list_titles st -> keepAfter now <= e_ts e ->
        e ∈ list_titles (update_at now evt st))
  /\ (forall st', reachable st' ->
        forall e, e ∈ list_titles st' ->
          normalizeTitle (e_title e) <> []
          /\ e_id e = hashStr (normalizeTitle (e_title e))).
Proof.
  intros Hn.
  assert (H : list_titles (update_at now evt st) = cleaned_titles now (list_titles st)).
  { rewrite list_titles_update_at. by apply updatedTitles_empty_norm. }
  split; [rewrite update_at_eq; simpl; by rewrite updatedTitles_empty_norm|].
  rewrite H. split; [|split].
  - intros e He. apply elem_of_cleaned_titles in He. tauto.
  - intros e He Hw. by apply elem_of_cleaned_titles.
  - intros st' Hr e He.
    pose proof (reachable_well_keyed st' Hr) as Hk.
    rewrite Forall_forall in Hk. exact (Hk e He).
Qed.

(** A title made of a quote only passes [sanitizeEvent]. *)
Example sanitizeEvent_quote_title :
  sanitizeEvent 7 (Some (feed_payload "'" 7)) = Some (feed_event "'" 7).
Proof. vm_compute. reflexivity. Qed.

(** Such a title normalizes to the empty string. *)
Lemma empty_normalization_only_prunes_witness :
  let st := set_titles_batch
              [ {| e_id := hashStr (str "old"); e_title := str "old"; e_ts := 5;
                   e_platform := str "youtube" |};
                {| e_id := hashStr (str "new"); e_title := str "new";
                   e_ts := fourteen_days; e_platform := str "youtube" |} ]
              empty_store in
  titles_batch (update_at (fourteen_days + 100) (feed_event "'" 7) st)
  = Some (cleaned_titles (fourteen_days + 100) (list_titles st)).
Proof.
  intros st.
  apply (empty_normalization_only_prunes (fourteen_days + 100) (feed_event "'" 7) st).
  reflexivity.
Defined.

(* ===================================================================== *)
(** * The archive *)
(* ===================================================================== *)

Lemma take_app_take {A} (n k : nat) (l m : list A) :
  (n <= k)%nat -> take n (l ++ take k m) = take n (l ++ m).
Proof.
  revert n. induction l as [|x l IH]; intros n Hn; simpl.
  - rewrite take_take. f_equal. lia.
  - destruct n as [|n]; [reflexivity|]. simpl. f_equal. apply IH. lia.
Qed.

Lemma readPiece_storedPiece d p : readPiece (storedPiece d p) = storedPiece d p.
Proof.
  unfold readPiece, storedPiece; simpl.
  destruct (or_opt_str (p_image_url p) (or_opt_str (p_imageUrl p) [])) as [|c img];
    reflexivity.
Qed.

Section Archive.
Context {rt : JSRuntime}.

Lemma list_archive_eq st : list_archive st = map readPiece (archive_of st).
Proof. reflexivity. Qed.

Lemma archive_of_append_at now piece st :
  archive_of (append_at now piece st)
  = take ARCHIVE_MAX (storedPiece (today now) piece :: archive_of st).
Proof. reflexivity. Qed.

Lemma run_appends_cons c calls st :
  run_appends (c :: calls) st = run_appends calls (append_at (fst c) (snd c) st).
Proof. reflexivity. Qed.

Lemma archive_of_run_appends calls : forall st,
  take ARCHIVE_MAX (archive_of (run_appends calls st))
  = take ARCHIVE_MAX (reverse (map appended_piece calls) ++ archive_of st).
Proof.
  induction calls as [|c calls IH]; intros st; [reflexivity|].
  rewrite run_appends_cons, IH, archive_of_append_at.
  rewrite take_app_take by done.
  simpl map. rewrite reverse_cons, <- app_assoc. reflexivity.
Qed.

Lemma archive_of_run_appends_capped calls st :
  calls <> [] ->
  take ARCHIVE_MAX (archive_of (run_appends calls st)) = archive_of (run_appends calls st).
Proof.
  intros Hne. induction calls as [|c calls' _] using rev_ind; [done|].
  unfold run_appends. rewrite fold_left_app. simpl.
  rewrite archive_of_append_at. by rewrite take_take.
Qed.
End Archive.

(* ===================================================================== *)
(** * C4: archive bound and order *)
(* ===================================================================== *)

(** C4. After more than 365 appends, whatever the archive held before,
    [list()] returns exactly 365 pieces: the appended ones in reverse order
    of insertion (each [append] puts its piece at index 0), cut after the
    365 most recent, so that the pieces dropped are the oldest ones. *)
Theorem archive_bound_newest_first `{rt : JSRuntime}
    (calls : list (Z * Piece)) (st : Store) :
  (ARCHIVE_MAX < length calls)%nat ->
  list_archive (run_appends calls st)
    = take ARCHIVE_MAX (reverse (map appended_piece calls))
  /\ list_archive (run_appends calls st)
    = reverse (drop (length calls - ARCHIVE_MAX) (map appended_piece calls))
  /\ length (list_archive (run_appends calls st)) = 365%nat
  /\ (forall now piece s,
        head (list_archive (append_at now piece s)) = Some (storedPiece (today now) piece)).
Proof.
  intros Hlen.
  assert (Hne : calls <> []) by (destruct calls; [simpl in Hlen; lia|done]).
  assert (Harch : archive_of (run_appends calls st)
                  = take ARCHIVE_MAX (reverse (map appended_piece calls))).
  { rewrite <- archive_of_run_appends_capped by done.
    rewrite archive_of_run_appends. apply take_app_le.
    rewrite length_reverse, length_map. lia. }
  assert (Hread : list_archive (run_appends calls st)
                  = take ARCHIVE_MAX (reverse (map appended_piece calls))).
  { rewrite list_archive_eq, Harch.
    rewrite <- (map_id (take _ _)) at 2. apply map_ext_in.
    intros p Hp. apply list_elem_of_In in Hp.
    apply elem_of_take in Hp as (i & Hp & _).
    apply list_elem_of_lookup_2 in Hp. rewrite elem_of_reverse in Hp.
    apply list_elem_of_In, in_map_iff in Hp as (c & <- & _).
    apply readPiece_storedPiece. }
  split; [exact Hread|]. split; [|split].
  - rewrite Hread, take_reverse, length_map. reflexivity.
  - rewrite Hread, length_take, length_reverse, length_map. unfold ARCHIVE_MAX in *. lia.
  - intros now piece s. rewrite list_archive_eq, archive_of_append_at. simpl.
    by rewrite readPiece_storedPiece.
Qed.

(** 366 appends on the empty storage. *)
Lemma archive_bound_newest_first_witness :
  length (list_archive (run_appends (repeat (0, empty_piece) 366) empty_store)) = 365%nat.
Proof.
  apply (archive_bound_newest_first (repeat (0, empty_piece) 366) empty_store).
  rewrite repeat_length. unfold ARCHIVE_MAX. lia.
Defined.

(* ===================================================================== *)
(** * Responses of the router *)
(* ===================================================================== *)

Lemma silent_ret {A} (a : A) : silent (ret a).
Proof. intros w. reflexivity. Qed.

Lemma silent_bind {A B} (m : M A) (k : A -> M B) :
  silent m -> (forall a, silent (k a)) -> silent (bind m k).
Proof.
  intros Hm Hk w. unfold bind. specialize (Hm w).
  destruct (m w) as [[a|e|] w'] eqn:E; simpl in *; [|exact Hm|exact Hm].
  by rewrite Hk.
Qed.

Lemma silent_try_catch {A} (m : M A) (h : jsstring -> M A) :
  silent m -> (forall e, silent (h e)) -> silent (try_catch m h).
Proof.
  intros Hm Hh w. unfold try_catch. specialize (Hm w).
  destruct (m w) as [[a|e|] w'] eqn:E; simpl in *; [exact Hm| |exact Hm].
  by rewrite Hh.
Qed.

Lemma silent_browser_call {A} (f : World -> A * World) :
  (forall w, w_sent (snd (f w)) = w_sent w) -> silent (browser_call f).
Proof.
  intros Hf w. unfold browser_call.
  destruct (w_faults w) as [|[e|] fs]; simpl.
  - specialize (Hf w). by destruct (f w).
  - reflexivity.
  - specialize (Hf (with_faults fs w)). by destruct (f (with_faults fs w)).
Qed.

Lemma silent_pending_call {A} (f : World -> A * World) :
  (forall w, w_sent (snd (f w)) = w_sent w) -> silent (pending_call f).
Proof.
  intros Hf w. unfold pending_call.
  destruct (w_faults w) as [|[e|] fs]; simpl.
  - specialize (Hf w). by destruct (f w).
  - reflexivity.
  - specialize (Hf (with_faults fs w)). by destruct (f (with_faults fs w)).
Qed.

Lemma silent_Date_now : silent Date_now.
Proof. intros w. reflexivity. Qed.

Lemma silent_getStore : silent getStore.
Proof. by apply silent_browser_call. Qed.

Lemma silent_setStore upd : silent (setStore upd).
Proof. by apply silent_browser_call. Qed.

Lemma silent_addEvent evt : silent (addEvent evt).
Proof. by apply silent_browser_call. Qed.

Lemma silent_openDB : silent openDB.
Proof. by apply silent_browser_call. Qed.

Lemma silent_getRecent limit : silent (getRecent limit).
Proof.
  apply silent_bind; [apply silent_openDB|]. intros _. by apply silent_pending_call.
Qed.

Lemma silent_clearAll : silent clearAll.
Proof.
  apply silent_bind; [apply silent_openDB|]. intros _. by apply silent_pending_call.
Qed.

Ltac silent_tac :=
  repeat first
    [ apply silent_ret | apply silent_Date_now | apply silent_getStore
    | apply silent_setStore | apply silent_addEvent | apply silent_getRecent
    | apply silent_clearAll
    | apply silent_bind; [|intros ?]
    | apply silent_try_catch; [|intros ?] ].

Section RouterResponses.
Context {rt : JSRuntime}.

Lemma silent_enqueueTitlesUpdate evt : silent (enqueueTitlesUpdate evt).
Proof. unfold enqueueTitlesUpdate, updateTitlesBatchFromEvent. silent_tac. Qed.

Lemma silent_getTitlesBatch : silent getTitlesBatch.
Proof. unfold getTitlesBatch. silent_tac. Qed.

Lemma silent_clearTitlesBatch : silent clearTitlesBatch.
Proof. unfold clearTitlesBatch. silent_tac. Qed.

Lemma silent_setProfileHistogram p : silent (setProfileHistogram p).
Proof. unfold setProfileHistogram. silent_tac. Qed.

Lemma silent_getProfileHistogram : silent getProfileHistogram.
Proof. unfold getProfileHistogram. silent_tac. Qed.

Lemma silent_appendPiece p : silent (appendPiece p).
Proof. unfold appendPiece. silent_tac. Qed.

Lemma silent_getArchive : silent getArchive.
Proof. unfold getArchive. silent_tac. Qed.

Lemma silent_clearProfileAndArchive : silent clearProfileAndArchive.
Proof. unfold clearProfileAndArchive. silent_tac. Qed.

Lemma silent_getStatus : silent getStatus.
Proof. unfold getStatus. silent_tac. Qed.

Lemma silent_ackTitles ids : silent (ackTitles ids).
Proof.
  unfold ackTitles. destruct ids; [apply silent_ret|].
  apply silent_bind; [apply silent_getStore|]. intros st.
  destruct (default [] (titles_batch st)); silent_tac.
Qed.

Lemma answers_once_send r : ok r = true -> answers_once (sendResponse r).
Proof. intros Hr w. simpl. by exists r. Qed.

Lemma answers_once_bind {A} (m : M A) (k : A -> M unit) :
  silent m -> (forall a, answers_once (k a)) -> answers_once (bind m k).
Proof.
  intros Hm Hk w. unfold bind. specialize (Hm w).
  destruct (m w) as [[a|e|] w'] eqn:E; simpl in *; [|exact Hm|exact Hm].
  specialize (Hk a w'). destruct (k a w') as [[u|e|] w'']; by rewrite <- Hm.
Qed.

Ltac answers_tac :=
  repeat first
    [ apply answers_once_send; reflexivity
    | apply answers_once_bind;
      [ first [ apply silent_Date_now | apply silent_addEvent
              | apply silent_getRecent | apply silent_clearAll
              | apply silent_enqueueTitlesUpdate | apply silent_getTitlesBatch
              | apply silent_clearTitlesBatch | apply silent_setProfileHistogram
              | apply silent_getProfileHistogram | apply silent_appendPiece
              | apply silent_getArchive | apply silent_clearProfileAndArchive
              | apply silent_getStatus | apply silent_ackTitles ]
      | intros ? ] ].

(** Every action of the vocabulary ends with one successful response. *)
Lemma answers_once_dispatch msg :
  m_type msg ∈ vocabulary -> answers_once (dispatch (Some msg)).
Proof.
  intros Hv. unfold vocabulary in Hv.
  destruct msg as [ty pl lim ids pids prof pprof piece ppiece]; simpl in Hv.
  repeat (apply elem_of_cons in Hv as [->|Hv]);
    try (by apply elem_of_nil in Hv);
    unfold dispatch; simpl; answers_tac.
  match goal with |- context [sanitizeEvent ?n pl] => destruct (sanitizeEvent n pl) end;
    answers_tac.
Qed.
End RouterResponses.

(* ===================================================================== *)
(** * Which handlers settle *)
(* ===================================================================== *)

Lemma settles_ret {A} (a : A) : settles (ret a).
Proof. intros w. done. Qed.

Lemma settles_bind {A B} (m : M A) (k : A -> M B) :
  settles m -> (forall a, settles (k a)) -> settles (bind m k).
Proof.
  intros Hm Hk w. unfold bind. specialize (Hm w).
  destruct (m w) as [[a|e|] w']; simpl in *; [apply Hk|done|done].
Qed.

Lemma settles_try_catch {A} (m : M A) (h : jsstring -> M A) :
  settles m -> (forall e, settles (h e)) -> settles (try_catch m h).
Proof.
  intros Hm Hh w. unfold try_catch. specialize (Hm w).
  destruct (m w) as [[a|e|] w']; simpl in *; [done|apply Hh|done].
Qed.

Lemma settles_browser_call {A} (f : World -> A * World) : settles (browser_call f).
Proof.
  intros w. unfold browser_call.
  destruct (w_faults w) as [|[e|] fs]; simpl; [by destruct (f w)|done|].
  by destruct (f (with_faults fs w)).
Qed.

Lemma settles_Date_now : settles Date_now.
Proof. intros w. done. Qed.

Lemma settles_sendResponse r : settles (sendResponse r).
Proof. intros w. done. Qed.

Ltac settles_tac :=
  repeat first
    [ apply settles_ret | apply settles_Date_now | apply settles_sendResponse
    | apply settles_browser_call
    | apply settles_bind; [|intros ?]
    | apply settles_try_catch; [|intros ?] ].

Section RouterSettles.
Context {rt : JSRuntime}.

Lemma settles_ackTitles ids : settles (ackTitles ids).
Proof.
  unfold ackTitles. destruct ids; settles_tac.
  unfold getStore. settles_tac.
  match goal with |- context [default [] ?x] => destruct (default [] x) end;
    unfold setStore; settles_tac.
Qed.

(** Every action but [LCL_GET_RECENT] and [LCL_CLEAR] settles, whatever
    the browser calls do. *)
Lemma settles_dispatch msg :
  m_type msg <> "LCL_GET_RECENT"%string -> m_type msg <> "LCL_CLEAR"%string ->
  settles (dispatch (Some msg)).
Proof.
  intros H1 H2. unfold dispatch.
  destruct (String.eqb_spec (m_type msg) "LCL_ADD_EVENT").
  { apply settles_bind; [apply settles_Date_now|]. intros now.
    destruct (sanitizeEvent now (m_payload msg)); [|apply settles_sendResponse].
    unfold addEvent, enqueueTitlesUpdate, updateTitlesBatchFromEvent, getStore, setStore.
    settles_tac. }
  destruct (String.eqb_spec (m_type msg) "LCL_GET_RECENT"); [done|].
  destruct (String.eqb_spec (m_type msg) "LCL_CLEAR"); [done|].
  repeat (match goal with
          | |- context [if String.eqb ?a ?b then _ else _] =>
              destruct (String.eqb a b)
          end;
          [ first [ apply settles_bind; [apply settles_ackTitles|intros ?; settles_tac]
                  | unfold getTitlesBatch, clearTitlesBatch, setProfileHistogram,
                      getProfileHistogram, appendPiece, getArchive, getStatus,
                      clearProfileAndArchive, getStore, setStore; by settles_tac ] |]).
  apply settles_ret.
Qed.
End RouterSettles.

(* ===================================================================== *)
(** * C5: error containment *)
(* ===================================================================== *)




(** The other departure: the cursor request of [LCL_GET_RECENT] fails after
    the database was opened. The promise of [getRecent] has no rejection
    path, the listener stays at its [await], and nothing is answered. *)
Example get_recent_failure_unanswered :
  let w := {| w_store := empty_store; w_events := []; w_clock := 7;
              w_faults := [None; Some (str "AbortError")]; w_sent := [] |} in
  fst (onMessage (rt := latin_runtime) (Some (bare_msg "LCL_GET_RECENT")) w) = Never
  /\ w_sent (snd (onMessage (rt := latin_runtime) (Some (bare_msg "LCL_GET_RECENT")) w)) = [].
Proof. vm_compute. by split. Qed.

(** No message at all makes the listener throw. *)
Lemma onMessage_never_throws `{rt : JSRuntime} (msg : option Msg) (w : World) e :
  fst (onMessage msg w) <> Throw e.
Proof.
  unfold onMessage, try_catch.
  by destruct (dispatch msg w) as [[[]|e'|] w1].
Qed.

(** A failure of the title update is not the handler's: the queue swallows
    it, and [LCL_ADD_EVENT] is answered with a success. Here the event is
    logged and the read of [titles_batch] throws. *)
Example add_event_update_failure_swallowed :
  let w := {| w_store := empty_store; w_events := []; w_clock := 7;
              w_faults := [None; Some (str "Error: storage")]; w_sent := [] |} in
  w_sent (snd (onMessage (Some (add_event_msg (feed_payload "A title" 7))) w))
  = [resp_stored true].
Proof. vm_compute. reflexivity. Qed.

(* ===================================================================== *)
(** * C8: who writes [last_webapp_sync_at] *)
(* ===================================================================== *)

Section SyncFrame.
Context {rt : JSRuntime}.

(** Every action other than [SET_PROFILE], [APPEND_PIECE] and
    [CLEAR_PROFILE_ARCHIVE] leaves [last_webapp_sync_at] as it was,
    also when a browser call fails on the way. *)
Lemma sync_status_frame (msg : Msg) (w : World) :
  m_type msg <> "SET_PROFILE"%string ->
  m_type msg <> "APPEND_PIECE"%string ->
  m_type msg <> "CLEAR_PROFILE_ARCHIVE"%string ->
  last_webapp_sync_at (w_store (snd (onMessage (Some msg) w)))
  = last_webapp_sync_at (w_store w).
Proof.
  intros H1 H2 H3.
  set (I := fun s : Store => last_webapp_sync_at s = last_webapp_sync_at (w_store w)).
  assert (K : keeps I (onMessage (Some msg)) (fun _ => True)).
  2: exact (proj1 (K w eq_refl)).
  assert (Ku : forall evt, keeps I (enqueueTitlesUpdate evt) (fun _ => True)).
  { intros evt. apply keeps_enqueueTitlesUpdate. by intros. }
  assert (Ka : forall ids, keeps I (ackTitles ids) (fun _ => True)).
  { intros ids. apply keeps_ackTitles. by intros. }
  assert (Kc : keeps I clearTitlesBatch (fun _ => True)).
  { apply keeps_clearTitlesBatch. by intros. }
  apply keeps_try_catch; [|intros e; apply keeps_sendResponse].
  unfold dispatch.
  destruct (String.eqb_spec (m_type msg) "SET_PROFILE"); [done|].
  destruct (String.eqb_spec (m_type msg) "APPEND_PIECE"); [done|].
  destruct (String.eqb_spec (m_type msg) "CLEAR_PROFILE_ARCHIVE"); [done|].
  destruct (String.eqb (m_type msg) "LCL_ADD_EVENT").
  { eapply keeps_bind; [apply keeps_Date_now|]. intros now _.
    destruct (sanitizeEvent now (m_payload msg)); [|apply keeps_sendResponse].
    eapply keeps_bind; [apply keeps_addEvent|]. intros _ _.
    eapply keeps_bind; [apply Ku|]. intros _ _. apply keeps_sendResponse. }
  repeat (match goal with
          | |- context [if String.eqb ?a ?b then _ else _] =>
              destruct (String.eqb a b)
          end;
          [ by repeat first
              [ apply keeps_sendResponse | apply Ka | apply Kc
              | apply keeps_getTitlesBatch | apply keeps_getProfileHistogram
              | apply keeps_getArchive | apply keeps_getStatus
              | apply keeps_getRecent | apply keeps_clearAll
              | eapply keeps_bind; [|intros ? ?] ] |]).
  by apply keeps_ret.
Qed.
End SyncFrame.

(** C8, at the input where the code departs from it. The header of
    background.js documents [last_webapp_sync_at] as set on [SET_PROFILE]
    and [APPEND_PIECE]; [CLEAR_PROFILE_ARCHIVE] stamps it as well: sent at
    time 5000 to a store last synchronised at time 1000, it leaves 5000. *)
Theorem clear_profile_archive_stamps_sync :
  let st := {| titles_batch := None; profile_histogram := None;
               pieces_archive := None; last_webapp_sync_at := Some 1000 |} in
  let w' := snd (onMessage (Some (bare_msg "CLEAR_PROFILE_ARCHIVE")) (quiet_world st 5000)) in
  last_webapp_sync_at (w_store w') = Some 5000
  /\ last_webapp_sync_at (w_store w') <> last_webapp_sync_at st
  /\ w_sent w' = [resp_ok].
Proof. vm_compute. repeat split; congruence. Qed.

(** The same at every store and clock. *)
Lemma clearProfileAndArchive_stamps `{rt : JSRuntime} (st : Store) (now : Z) :
  last_webapp_sync_at
    (w_store (snd (onMessage (Some (bare_msg "CLEAR_PROFILE_ARCHIVE")) (quiet_world st now))))
  = Some now.
Proof. reflexivity. Qed.

(* ===================================================================== *)
(** * The web bridge *)
(* ===================================================================== *)

(** Once the promise is settled and the listener removed, nothing changes
    its value. *)
Lemma pm_run_settled rid T v inbox : forall fired s,
  pm_listening s = false -> pm_settled s = Some v ->
  pm_settled (pm_run rid T fired s inbox) = Some v.
Proof.
  assert (Ht : forall s, pm_listening s = false -> pm_settled s = Some v ->
             pm_listening (pm_timeout s) = false /\ pm_settled (pm_timeout s) = Some v).
  { intros s Hl Hs. unfold pm_timeout. destruct (pm_done s); simpl; [done|].
    by rewrite Hs. }
  assert (Hm : forall s d, pm_listening s = false -> pm_listener rid s d = s).
  { intros s d Hl. unfold pm_listener. by rewrite Hl. }
  induction inbox as [|[t d] rest IH]; intros fired s Hl Hs; simpl.
  - destruct fired; [done|]. by apply Ht.
  - destruct (negb fired && (T <=? t)).
    + destruct (Ht s Hl Hs) as [Hl' Hs']. rewrite Hm by done. by apply IH.
    + rewrite Hm by done. by apply IH.
Qed.

(** The callbacks of [pmSend] settle the promise to the response of the
    first matching message delivered within the timeout, else to null. *)
Lemma pm_run_relay_response rid T inbox :
  pm_settled (pm_run rid T false pm_start inbox)
  = Some (match relay_response rid T inbox with
          | Some v => v
          | None => None
          end).
Proof.
  unfold relay_response.
  induction inbox as [|[t d] rest IH]; simpl; [reflexivity|].
  destruct (Z.ltb_spec t T) as [Hlt|Hge].
  - replace (T <=? t) with false by (symmetry; apply Z.leb_gt; lia). simpl.
    unfold answers at 1. unfold pm_listener. simpl.
    destruct d as [d|]; simpl; [|exact IH].
    destruct (bool_decide (bd_namespace d = PM_NAMESPACE_OUT)); simpl; [|exact IH].
    destruct (bool_decide (bd_requestId d = rid)); simpl; [|exact IH].
    by apply pm_run_settled.
  - replace (T <=? t) with true by (symmetry; apply Z.leb_le; lia). simpl.
    unfold pm_listener. simpl. by apply pm_run_settled.
Qed.

Lemma pmSend_relay_response T p :
  hasWindow p = true ->
  pmSend T p = match relay_response (nextRequestId p) T (inbox p) with
               | Some v => v
               | None => None
               end.
Proof. intros Hw. unfold pmSend. by rewrite Hw, pm_run_relay_response. Qed.

Lemma runtimeSend_called p : CallRuntimeSend ∈ snd (runtimeSend p).
Proof.
  unfold runtimeSend.
  destruct (negb (canUseRuntime p) || negb (truthy_str (EXTENSION_ID p)));
    [|destruct (runtimeReply p)]; simpl; left.
Qed.

Lemma sendMessage_called_iff p :
  CallSendMessage ∈ snd (runtimeSend p)
  <-> canUseRuntime p = true /\ EXTENSION_ID p <> [].
Proof.
  unfold runtimeSend.
  destruct (canUseRuntime p); destruct (EXTENSION_ID p) as [|c e]; simpl;
    try destruct (runtimeReply p); simpl;
    rewrite ?elem_of_cons, ?elem_of_nil; intuition congruence.
Qed.

Lemma send_falls_back p :
  pmSend default_timeoutMs p = None ->
  send p = (fst (runtimeSend p), CallRelay :: snd (runtimeSend p)).
Proof. intros H. unfold send. rewrite H. by destruct (runtimeSend p). Qed.

(* ===================================================================== *)
(** * C6: transport fallback *)
(* ===================================================================== *)

(** C6 (as amended). For every request sent from a page: if no message
    with the outbound namespace and the request's id is delivered within
    1500 ms, or if the first such message carries an empty response, the
    relay attempt resolves to null and [runtimeSend] is called, whose
    result is returned (it messages the extension only when a runtime and
    an extension id are available); if it carries a non-empty response,
    that response is returned and the direct transport is not used. *)
Theorem transport_fallback (p : Page) :
  hasWindow p = true ->
  default_timeoutMs = 1500
  /\ (relay_response (nextRequestId p) 1500 (inbox p) = None
      \/ relay_response (nextRequestId p) 1500 (inbox p) = Some None ->
      pmSend 1500 p = None
      /\ send p = (fst (runtimeSend p), CallRelay :: snd (runtimeSend p))
      /\ CallRuntimeSend ∈ snd (send p)
      /\ (CallSendMessage ∈ snd (send p)
          <-> canUseRuntime p = true /\ EXTENSION_ID p <> []))
  /\ (forall r, relay_response (nextRequestId p) 1500 (inbox p) = Some (Some r) ->
      pmSend 1500 p = Some r /\ send p = (Some r, [CallRelay])).
Proof.
  intros Hw. split; [reflexivity|]. split.
  - intros Hr.
    assert (Hpm : pmSend 1500 p = None).
    { rewrite pmSend_relay_response by done. by destruct Hr as [-> | ->]. }
    split; [exact Hpm|].
    rewrite (send_falls_back p Hpm). split; [reflexivity|]. simpl. split.
    + right. apply runtimeSend_called.
    + rewrite elem_of_cons, <- sendMessage_called_iff.
      split; [intros [?|?]; [discriminate|done]|by right].
  - intros r Hr.
    assert (Hpm : pmSend 1500 p = Some r).
    { rewrite pmSend_relay_response by done. by rewrite Hr. }
    split; [exact Hpm|]. unfold send. unfold default_timeoutMs. by rewrite Hpm.
Qed.

(** A request whose only message arrives after 2000 ms: the direct
    transport answers. *)
Lemma transport_fallback_witness :
  send (page_receiving [(2000, relay_msg "r1" (Some resp_ok))])
  = (Some resp_ok, [CallRelay; CallRuntimeSend; CallSendMessage]).
Proof.
  destruct (transport_fallback (page_receiving [(2000, relay_msg "r1" (Some resp_ok))]))
    as (_ & H & _); [reflexivity|].
  destruct H as (_ & H & _); [left; reflexivity|].
  exact H.
Defined.

(** C6 as stated fails: the relay does respond within the timeout, with an
    empty response; [pmSend] turns it into null, and [send] goes on to the
    direct transport and returns that one's answer. *)
Lemma transport_empty_response_counterexample :
  let p := page_receiving [(10, relay_msg "r1" None)] in
  List.find (answers (nextRequestId p)) (within 1500 (inbox p))
    = Some (10, relay_msg "r1" None)
  /\ send p = (Some resp_ok, [CallRelay; CallRuntimeSend; CallSendMessage])
  /\ ~ (CallRuntimeSend ∉ snd (send p)).
Proof.
  simpl. split; [reflexivity|]. split; [reflexivity|].
  intros H. apply H. vm_compute. right. left.
Qed.

(** Outside a browser window neither transport sends anything. *)
Lemma send_without_window p :
  hasWindow p = false -> send p = (None, [CallRelay; CallRuntimeSend]).
Proof.
  intros Hw. unfold send, pmSend, runtimeSend, canUseRuntime. by rewrite Hw.
Qed.

(* ===================================================================== *)
(** * C9: the duration-strip scenario *)
(* ===================================================================== *)

(** The suffix pattern matches from the blank before the dash. *)
Example durationSuffixRe_breaking_news :
  option_map m_index (exec durationSuffixRe (str breaking_news)) = Some 19%nat.
Proof. vm_compute. reflexivity. Qed.

Example clean_duration_breaking_news :
  clean_duration (str breaking_news) [] = (str "Breaking News Today", str "3:12").
Proof. vm_compute. reflexivity. Qed.

(** An extracted length is kept. *)
Example clean_duration_keeps_length :
  clean_duration (str breaking_news) (str "3:13") = (str "Breaking News Today", str "3:13").
Proof. vm_compute. reflexivity. Qed.

(** C9 (as amended). Sighting the title on two feed items, at time 0 and
    at time 100, with no explicit length: each sighting sends a payload with
    title [Breaking News Today] and length [3:12]; the Title Store ends with
    exactly one entry, with that title and [ts] 100, keyed by the hash of
    the normalized title, and with no [length] property. *)
Theorem duration_strip_scenario :
  option_map pl_title (snd first_sighting) = Some (Some (str "Breaking News Today"))
  /\ option_map pl_length (snd first_sighting) = Some (Some (str "3:12"))
  /\ option_map pl_title (snd second_sighting) = Some (Some (str "Breaking News Today"))
  /\ option_map pl_length (snd second_sighting) = Some (Some (str "3:12"))
  /\ exists e,
       titles_batch (snd (fst second_sighting)) = Some [e]
       /\ e_id e = hashStr (str "breaking news today")
       /\ entry_prop e "title" = JStr (str "Breaking News Today")
       /\ entry_prop e "ts" = JNum 100
       /\ entry_prop e "length" = JUndefined.
Proof.
  repeat (split; [vm_compute; reflexivity|]).
  eexists. split; [vm_compute; reflexivity|].
  repeat split; vm_compute; reflexivity.
Qed.

(** C9 as stated fails: the entry of the Title Store has no length. *)
Lemma duration_strip_no_length_counterexample :
  ~ (exists e,
       titles_batch (snd (fst second_sighting)) = Some [e]
       /\ entry_prop e "title" = JStr (str "Breaking News Today")
       /\ entry_prop e "length" = JStr (str "3:12")
       /\ entry_prop e "ts" = JNum 100).
Proof.
  intros (e & He & _ & Hl & _).
  vm_compute in He. injection He as <-. vm_compute in Hl. discriminate.
Qed.

(* ===================================================================== *)
(** * C7: normalization *)
(* ===================================================================== *)

Lemma replace_each_filter cls s :
  replace_each cls [] s = List.filter (fun c => negb (cls c)) s.
Proof.
  induction s as [|c s IH]; simpl; [reflexivity|].
  destruct (cls c); simpl; by rewrite IH.
Qed.

Lemma skip_class_length cls s : (length (skip_class cls s) <= length s)%nat.
Proof.
  induction s as [|c s IH]; simpl; [lia|]. destruct (cls c); simpl; lia.
Qed.

Lemma filter_skip_class cls s :
  List.filter (fun c => negb (cls c)) (skip_class cls s)
  = List.filter (fun c => negb (cls c)) s.
Proof.
  induction s as [|c s IH]; simpl; [reflexivity|].
  destruct (cls c) eqn:E; simpl; [exact IH|]. by rewrite E.
Qed.

(** Removing the runs of a class removes its code units. *)
Lemma replace_runs_fuel_filter cls fuel : forall s,
  (length s <= fuel)%nat ->
  replace_runs_fuel fuel cls [] s = List.filter (fun c => negb (cls c)) s.
Proof.
  induction fuel as [|fuel IH]; intros s Hlen.
  - destruct s; [reflexivity|simpl in Hlen; lia].
  - destruct s as [|c s]; [reflexivity|]. simpl in *.
    destruct (cls c) eqn:E; simpl.
    + rewrite IH by (pose proof (skip_class_length cls s); lia).
      apply filter_skip_class.
    + rewrite IH by lia. reflexivity.
Qed.

Lemma replace_runs_strip_quotes s : replace_runs is_quote [] s = strip_quotes s.
Proof. unfold replace_runs. by apply replace_runs_fuel_filter. Qed.

Lemma is_space_class_is_space c : is_space_class c = is_space c.
Proof.
  unfold is_space_class, is_space.
  destruct (N.eqb_spec c 9) as [->|]; [reflexivity|].
  destruct (N.eqb_spec c 10) as [->|]; [reflexivity|].
  destruct (N.eqb_spec c 13) as [->|]; [reflexivity|].
  by rewrite !orb_false_r.
Qed.

Lemma skip_class_not_head cls c s : cls c = false -> skip_class cls (c :: s) = c :: s.
Proof. intros H. simpl. by rewrite H. Qed.

(** A string that starts with whitespace collapses to a space followed by
    what is left after the run. *)
Lemma collapse_whitespace_run c s :
  is_space c = true ->
  collapse_whitespace (c :: s) = 32%N :: collapse_whitespace (skip_class is_space s).
Proof.
  revert c. induction s as [|c' s IH]; intros c Hc.
  - simpl. by rewrite Hc.
  - change (collapse_whitespace (c :: c' :: s))
      with (if is_space c
            then if is_space c' then collapse_whitespace (c' :: s)
                 else 32%N :: collapse_whitespace (c' :: s)
            else c :: collapse_whitespace (c' :: s)).
    rewrite Hc. destruct (is_space c') eqn:E.
    + rewrite (IH c' E). simpl. by rewrite E.
    + by rewrite skip_class_not_head.
Qed.

Lemma replace_runs_fuel_collapse fuel : forall s,
  (length s <= fuel)%nat ->
  replace_runs_fuel fuel is_space (str " ") s = collapse_whitespace s.
Proof.
  induction fuel as [|fuel IH]; intros s Hlen.
  - destruct s; [reflexivity|simpl in Hlen; lia].
  - destruct s as [|c s]; [reflexivity|].
    change (replace_runs_fuel (S fuel) is_space (str " ") (c :: s))
      with (if is_space c
            then str " " ++ replace_runs_fuel fuel is_space (str " ") (skip_class is_space s)
            else c :: replace_runs_fuel fuel is_space (str " ") s).
    simpl in Hlen. destruct (is_space c) eqn:E.
    + rewrite IH by (pose proof (skip_class_length is_space s); lia).
      by rewrite collapse_whitespace_run.
    + rewrite IH by lia. simpl. by rewrite E.
Qed.

Lemma replace_runs_fuel_ext fuel cls cls' r : forall s,
  (forall c, cls c = cls' c) ->
  replace_runs_fuel fuel cls r s = replace_runs_fuel fuel cls' r s.
Proof.
  induction fuel as [|fuel IH]; intros s H; [reflexivity|].
  destruct s as [|c s]; [reflexivity|]. simpl. rewrite <- H.
  assert (Hs : skip_class cls s = skip_class cls' s).
  { clear -H. induction s as [|x s IHs]; simpl; [reflexivity|].
    rewrite <- H. by rewrite IHs. }
  rewrite Hs. by rewrite !IH.
Qed.

Lemma replace_runs_collapse_whitespace s :
  replace_runs is_space_class (str " ") s = collapse_whitespace s.
Proof.
  unfold replace_runs.
  rewrite (replace_runs_fuel_ext _ is_space_class is_space)
    by apply is_space_class_is_space.
  by apply replace_runs_fuel_collapse.
Qed.

(** C7 (as amended). For every input string, and whatever the engine's
    case mapping and normalization tables are, the normalized form is the
    result of lowercasing, Unicode compatibility decomposition (NFKD) with
    diacritic stripping, collapsing all whitespace runs to single spaces,
    stripping quote characters, and trimming, in that order. *)
Theorem normalizeTitle_steps `{rt : JSRuntime} (t : jsstring) :
  normalizeTitle t = normalized_with NFKD t.
Proof.
  unfold normalizeTitle, normalized_with.
  rewrite replace_runs_strip_quotes, replace_runs_collapse_whitespace.
  unfold strip_diacritics. by rewrite replace_each_filter.
Qed.

(** C7 as stated fails: the ligature U+FB01 has a compatibility
    decomposition only; the code turns it into the two letters [fi], the
    canonical decomposition leaves it as it is. *)
Lemma normalizeTitle_canonical_counterexample :
  normalizeTitle [64257%N] = str "fi"
  /\ normalized_as_specified [64257%N] = [64257%N]
  /\ normalizeTitle [64257%N] <> normalized_as_specified [64257%N].
Proof. repeat split; vm_compute; congruence. Qed.

(** The steps run in that order: quotes are stripped after whitespace is
    collapsed, so blanks around a quote stay two. *)
Example normalizeTitle_quote_between_blanks :
  normalizeTitle (str "a ' b") = str "a  b".
Proof. vm_compute. reflexivity. Qed.

(* ===================================================================== *)
(** * The queue: serialization derived from the promise chain *)
(* ===================================================================== *)

Lemma lookup_snoc_inv {A} (l : list A) (x k : A) (i : nat) :
  (l ++ [x]) !! i = Some k -> l !! i = Some k \/ (i = length l /\ k = x).
Proof.
  intros H. apply lookup_app_Some in H as [H|[Hle H]]; [by left|right].
  destruct (i - length l)%nat as [|m] eqn:E; simpl in H; [|done].
  injection H as <-. split; [lia|done].
Qed.

Lemma omap_insert_same {A B} (f : A -> option B) (l : list A) (i : nat) (x y : A) :
  l !! i = Some x -> f y = f x -> omap f (<[i := y]> l) = omap f l.
Proof.
  revert i. induction l as [|a l IH]; intros [|i] Hl Hf; simpl in *; try done.
  - injection Hl as ->. by rewrite Hf.
  - specialize (IH i Hl Hf). destruct (f a); [f_equal|]; exact IH.
Qed.

Lemma omap_insert_split {A B} (f : A -> option B) (l : list A) (i : nat) (y : A) :
  (i < length l)%nat ->
  omap f (<[i := y]> l) = omap f (take i l) ++ omap f [y] ++ omap f (drop (S i) l).
Proof.
  intros Hi. rewrite insert_take_drop by done.
  rewrite omap_app. f_equal. simpl. by destruct (f y).
Qed.

Lemma omap_split_at {A B} (f : A -> option B) (l : list A) (i : nat) (x : A) :
  l !! i = Some x ->
  omap f l = omap f (take i l) ++ omap f [x] ++ omap f (drop (S i) l).
Proof.
  intros Hl. rewrite <- (take_drop_middle l i x Hl) at 1.
  rewrite omap_app. f_equal. simpl. by destruct (f x).
Qed.

Lemma effect_waiting (l : list Link) :
  (forall j k, l !! j = Some k -> k_call k = None) -> omap effect l = [].
Proof.
  induction l as [|a l IH]; intros H; [done|]. simpl.
  unfold effect at 1. rewrite (H 0%nat a eq_refl).
  apply IH. intros j k Hj. apply (H (S j) k Hj).
Qed.

Section ChainProofs.
Context {rt : JSRuntime}.

Lemma elem_of_with_id h l x : with_id h l = [x] -> x ∈ l.
Proof.
  intros H. assert (Hx : x ∈ with_id h l) by (rewrite H; left).
  unfold with_id in Hx. by apply list_elem_of_filter in Hx as [_ ?].
Qed.

Lemma run_updates_snoc calls c st :
  run_updates (calls ++ [c]) st = update_at (fst c) (snd c) (run_updates calls st).
Proof. unfold run_updates. by rewrite fold_left_app. Qed.

Lemma chain_inv_new st : chain_inv st (new_chain st).
Proof.
  exists 0%nat. unfold new_chain; simpl.
  split; [lia|]. by repeat split.
Qed.

(** A link whose update is in progress is the one at the frontier. *)
Lemma chain_inv_frontier q n i k c :
  (forall i k, q_links q !! i = Some k -> (i < n)%nat -> link_settled k = true) ->
  (forall i k, q_links q !! i = Some k -> (n < i)%nat -> k_call k = None) ->
  q_links q !! i = Some k -> k_call k = Some c -> is_finished c = false -> i = n.
Proof.
  intros Hfin Hwait Hl Hc Hf.
  destruct (lt_eq_lt_dec i n) as [[Hlt|]|Hgt]; [|done|].
  - specialize (Hfin i k Hl Hlt). unfold link_settled in Hfin. rewrite Hc in Hfin. congruence.
  - specialize (Hwait i k Hl Hgt). congruence.
Qed.

Lemma chain_step_inv st0 ev q q' :
  chain_inv st0 q -> chain_step ev q = Some q' -> chain_inv st0 q'.
Proof.
  intros (n & Hn & Hprev & Hfin & Hwait & Hstore & Hcomp & Hevt) Hstep.
  destruct ev as [evt|i now|i|i]; cbn [chain_step] in Hstep.
  - (* a call of enqueueTitlesUpdate *)
    injection Hstep as <-. exists n. unfold enqueueTitlesUpdate_chain; cbn [q_links q_store].
    split; [rewrite length_app; lia|].
    split.
    { intros j k [H|[-> ->]]%lookup_snoc_inv; [by apply Hprev|reflexivity]. }
    split.
    { intros j k [H|[-> ->]]%lookup_snoc_inv Hj; [by eapply Hfin|lia]. }
    split.
    { intros j k [H|[-> ->]]%lookup_snoc_inv Hj; [by eapply Hwait|reflexivity]. }
    split.
    { unfold effective; cbn [q_links]. rewrite omap_app. cbn. by rewrite app_nil_r. }
    split.
    { intros j k c l [H|[-> ->]]%lookup_snoc_inv; [by eapply Hcomp|done]. }
    intros j k c [H|[-> ->]]%lookup_snoc_inv; [by eapply Hevt|done].
  - (* the callback of then runs *)
    destruct (q_links q !! i) as [k|] eqn:Hl; [|done].
    destruct (k_call k) as [c|] eqn:Hc; [done|].
    destruct (fulfilled q (k_prev k)) eqn:Hful; [|done].
    injection Hstep as <-. rewrite (Hprev i k Hl) in Hful.
    pose proof (lookup_lt_Some _ _ _ Hl) as Hi.
    assert (Hin : (n <= i)%nat).
    { destruct (le_lt_dec n i) as [|Hlt]; [done|].
      specialize (Hfin i k Hl Hlt). unfold link_settled in Hfin. by rewrite Hc in Hfin. }
    assert (Hbefore : forall j kj, q_links q !! j = Some kj -> (j < i)%nat ->
                        link_settled kj = true).
    { intros j kj Hj Hji. destruct (le_lt_dec n j) as [Hnj|]; [|by eapply Hfin].
      destruct i as [|i0]; [lia|]. cbn [fulfilled] in Hful.
      destruct (q_links q !! i0) as [k0|] eqn:H0; [|done].
      destruct (decide (i0 = j)) as [->|Hne]; [congruence|].
      assert (Hk0 : k_call k0 = None) by (apply (Hwait i0 k0 H0); lia).
      unfold link_settled in Hful. by rewrite Hk0 in Hful. }
    exists i. unfold set_link; cbn [q_links q_store].
    split; [rewrite length_insert; lia|].
    split.
    { intros j kj [(<- & <- & _)|[_ Hj]]%list_lookup_insert_Some;
        [exact (Hprev _ _ Hl)|by apply Hprev]. }
    split.
    { intros j kj [(<- & <- & _)|[_ Hj]]%list_lookup_insert_Some Hji; [lia|by eapply Hbefore]. }
    split.
    { intros j kj [(<- & <- & _)|[_ Hj]]%list_lookup_insert_Some Hji; [lia|].
      apply (Hwait j kj Hj). lia. }
    split.
    { unfold effective; cbn [q_links].
      rewrite (omap_insert_same effect _ i k); [exact Hstore|exact Hl|].
      unfold effect. by rewrite Hc. }
    split.
    { intros j kj c l [(<- & <- & _)|[_ Hj]]%list_lookup_insert_Some;
        [by intros [= <-]|by eapply Hcomp]. }
    intros j kj c [(<- & <- & _)|[_ Hj]]%list_lookup_insert_Some;
      [by intros [= <-]|by eapply Hevt].
  - (* an await resumes *)
    destruct (q_links q !! i) as [k|] eqn:Hl; [|done].
    destruct (k_call k) as [c|] eqn:Hc; [|done].
    pose proof (lookup_lt_Some _ _ _ Hl) as Hi.
    destruct (c_phase c) as [|l|] eqn:Hph; [| |done]; injection Hstep as <-.
    + assert (i = n) as ->.
      { eapply (chain_inv_frontier q); try done. unfold is_finished. by rewrite Hph. }
      exists n. unfold set_link; cbn [q_links q_store].
      split; [rewrite length_insert; lia|].
      split.
      { intros j kj [(<- & <- & _)|[_ Hj]]%list_lookup_insert_Some;
          [exact (Hprev _ _ Hl)|by apply Hprev]. }
      split.
      { intros j kj [(<- & <- & _)|[_ Hj]]%list_lookup_insert_Some Hji; [lia|by eapply Hfin]. }
      split.
      { intros j kj [(<- & <- & _)|[_ Hj]]%list_lookup_insert_Some Hji; [lia|by eapply Hwait]. }
      split.
      { unfold effective; cbn [q_links].
        rewrite (omap_insert_same effect _ n k); [exact Hstore|exact Hl|].
        unfold effect, with_phase, is_finished. cbn. by rewrite Hc, Hph. }
      split.
      { intros j kj c' l [(<- & <- & _)|[_ Hj]]%list_lookup_insert_Some;
          [|by eapply Hcomp].
        unfold with_phase. cbn. by intros [= <-] [= <-]. }
      intros j kj c' [(<- & <- & _)|[_ Hj]]%list_lookup_insert_Some;
        [|by eapply Hevt].
      unfold with_phase. cbn. intros [= <-]. cbn. by eapply Hevt.
    + assert (i = n) as ->.
      { eapply (chain_inv_frontier q); try done. unfold is_finished. by rewrite Hph. }
      exists n. unfold set_link; cbn [q_links q_store].
      split; [rewrite length_insert; lia|].
      split.
      { intros j kj [(<- & <- & _)|[_ Hj]]%list_lookup_insert_Some;
          [exact (Hprev _ _ Hl)|by apply Hprev]. }
      split.
      { intros j kj [(<- & <- & _)|[_ Hj]]%list_lookup_insert_Some Hji; [lia|by eapply Hfin]. }
      split.
      { intros j kj [(<- & <- & _)|[_ Hj]]%list_lookup_insert_Some Hji; [lia|by eapply Hwait]. }
      assert (Htail : omap effect (drop (S n) (q_links q)) = []).
      { apply effect_waiting. intros j kj Hj. rewrite lookup_drop in Hj.
        apply (Hwait _ kj Hj). lia. }
      split.
      { unfold effective; cbn [q_links].
        rewrite omap_insert_split by done. rewrite Htail, app_nil_r.
        assert (He : omap effect [with_phase k c Finished false] = [(c_now c, c_evt c)]) by done.
        rewrite He, run_updates_snoc. cbn [fst snd].
        assert (Hold : effective q = omap effect (take n (q_links q))).
        { unfold effective. rewrite (omap_split_at effect _ n k Hl), Htail.
          cbn. unfold effect at 2. unfold is_finished. rewrite Hc, Hph. cbn.
          by rewrite app_nil_r. }
        rewrite <- Hold, <- Hstore, update_at_eq.
        by rewrite <- (Hcomp n k c l Hl Hc Hph). }
      split.
      { intros j kj c' l' [(<- & <- & _)|[Hne Hj]]%list_lookup_insert_Some.
        - unfold with_phase. cbn. by intros [= <-].
        - intros Hc' Hph'. exfalso.
          destruct (lt_eq_lt_dec j n) as [[Hlt|]|Hgt]; [|done|].
          + specialize (Hfin j kj Hj Hlt). unfold link_settled, is_finished in Hfin.
            by rewrite Hc', Hph' in Hfin.
          + specialize (Hwait j kj Hj Hgt). congruence. }
      intros j kj c' [(<- & <- & _)|[_ Hj]]%list_lookup_insert_Some;
        [|by eapply Hevt].
      unfold with_phase. cbn. intros [= <-]. cbn. by eapply Hevt.
  - (* the awaited storage call fails *)
    destruct (q_links q !! i) as [k|] eqn:Hl; [|done].
    destruct (k_call k) as [c|] eqn:Hc; [|done].
    pose proof (lookup_lt_Some _ _ _ Hl) as Hi.
    assert (Hnf : is_finished c = false /\
                  q' = set_link i (with_phase k c Finished true) (q_store q) q).
    { unfold is_finished. destruct (c_phase c); [| |done]; by injection Hstep as <-. }
    destruct Hnf as [Hnf ->].
    assert (i = n) as -> by (by eapply (chain_inv_frontier q)).
    exists n. unfold set_link; cbn [q_links q_store].
    split; [rewrite length_insert; lia|].
    split.
    { intros j kj [(<- & <- & _)|[_ Hj]]%list_lookup_insert_Some;
        [exact (Hprev _ _ Hl)|by apply Hprev]. }
    split.
    { intros j kj [(<- & <- & _)|[_ Hj]]%list_lookup_insert_Some Hji; [lia|by eapply Hfin]. }
    split.
    { intros j kj [(<- & <- & _)|[_ Hj]]%list_lookup_insert_Some Hji; [lia|by eapply Hwait]. }
    split.
    { unfold effective; cbn [q_links].
      rewrite (omap_insert_same effect _ n k); [exact Hstore|exact Hl|].
      unfold effect, with_phase. cbn. by rewrite Hc, Hnf. }
    split.
    { intros j kj c' l [(<- & <- & _)|[_ Hj]]%list_lookup_insert_Some;
        [|by eapply Hcomp].
      unfold with_phase. cbn. by intros [= <-]. }
    intros j kj c' [(<- & <- & _)|[_ Hj]]%list_lookup_insert_Some;
      [|by eapply Hevt].
    unfold with_phase. cbn. intros [= <-]. cbn. by eapply Hevt.
Qed.

Lemma chain_run_inv st0 trace : forall q q',
  chain_inv st0 q -> chain_run trace q = Some q' -> chain_inv st0 q'.
Proof.
  induction trace as [|ev trace IH]; intros q q' Hq Hrun; cbn [chain_run] in Hrun.
  - by injection Hrun as <-.
  - destruct (chain_step ev q) as [q1|] eqn:E; [|done].
    eapply IH; [|exact Hrun]. by eapply chain_step_inv.
Qed.

(** Serialization: the guard of a link looks at the one promise it was
    chained to, and yet no update starts before all earlier ones are
    over. *)
Lemma chain_inv_one_at_a_time st0 q : chain_inv st0 q -> one_at_a_time q.
Proof.
  intros (n & _ & _ & Hfin & Hwait & _) i j ki kj Hi Hj Hij Hstarted.
  apply (Hfin i ki Hi).
  destruct (le_lt_dec j n) as [|Hgt]; [lia|].
  by specialize (Hwait j kj Hj Hgt).
Qed.

(** The links are the calls of [enqueueTitlesUpdate], in order. *)
Lemma chain_step_events ev q q' :
  chain_step ev q = Some q' ->
  k_evt <$> q_links q' = (k_evt <$> q_links q) ++ enqueued [ev].
Proof.
  assert (Hins : forall i k k', q_links q !! i = Some k -> k_evt k' = k_evt k ->
            k_evt <$> <[i := k']> (q_links q) = k_evt <$> q_links q).
  { intros i k k' Hl He. rewrite list_fmap_insert, He.
    apply list_insert_id. by rewrite list_lookup_fmap, Hl. }
  destruct ev as [evt|i now|i|i]; cbn [chain_step enqueued omap]; intros Hstep.
  - injection Hstep as <-. unfold enqueueTitlesUpdate_chain; cbn [q_links]. by rewrite fmap_app.
  - destruct (q_links q !! i) as [k|] eqn:Hl; [|done].
    destruct (k_call k); [done|]. destruct (fulfilled q (k_prev k)); [|done].
    injection Hstep as <-. cbn. rewrite app_nil_r. by eapply Hins.
  - destruct (q_links q !! i) as [k|] eqn:Hl; [|done].
    destruct (k_call k) as [c|]; [|done].
    destruct (c_phase c); [| |done]; injection Hstep as <-; cbn; rewrite app_nil_r;
      by eapply Hins.
  - destruct (q_links q !! i) as [k|] eqn:Hl; [|done].
    destruct (k_call k) as [c|]; [|done].
    destruct (c_phase c); [| |done]; injection Hstep as <-; cbn; rewrite app_nil_r;
      by eapply Hins.
Qed.

Lemma chain_run_events trace : forall q q',
  chain_run trace q = Some q' ->
  k_evt <$> q_links q' = (k_evt <$> q_links q) ++ enqueued trace.
Proof.
  induction trace as [|ev trace IH]; intros q q' Hrun; cbn [chain_run] in Hrun.
  - injection Hrun as <-. by rewrite app_nil_r.
  - destruct (chain_step ev q) as [q1|] eqn:E; [|done].
    rewrite (IH q1 q' Hrun), (chain_step_events ev q q1 E), <- app_assoc.
    f_equal. unfold enqueued. by destruct ev.
Qed.

(** The clock value of an update is the one read when the callback of
    [then] ran. *)
Lemma chain_step_starts ev q q' i k c :
  chain_step ev q = Some q' ->
  q_links q' !! i = Some k -> k_call k = Some c ->
  ev = Start i (c_now c)
  \/ exists k0 c0, q_links q !! i = Some k0 /\ k_call k0 = Some c0 /\ c_now c0 = c_now c.
Proof.
  destruct ev as [evt|j now|j|j]; cbn [chain_step]; intros Hstep Hl Hc.
  - injection Hstep as <-. unfold enqueueTitlesUpdate_chain in Hl; cbn [q_links] in Hl.
    apply lookup_snoc_inv in Hl as [Hl|[-> ->]]; [|done]. right. by exists k, c.
  - destruct (q_links q !! j) as [kj|] eqn:Hj; [|done].
    destruct (k_call kj) eqn:Hcj; [done|].
    destruct (fulfilled q (k_prev kj)); [|done]. injection Hstep as <-.
    unfold set_link in Hl; cbn [q_links] in Hl.
    apply list_lookup_insert_Some in Hl as [(<- & <- & _)|[_ Hl]].
    + left. cbn in Hc. by injection Hc as <-.
    + right. by exists k, c.
  - destruct (q_links q !! j) as [kj|] eqn:Hj; [|done].
    destruct (k_call kj) as [cj|] eqn:Hcj; [|done].
    destruct (c_phase cj); [| |done]; injection Hstep as <-;
      unfold set_link in Hl; cbn [q_links] in Hl;
      apply list_lookup_insert_Some in Hl as [(<- & <- & _)|[_ Hl]];
      right; try (by exists k, c);
      exists kj, cj; cbn in Hc; by injection Hc as <-.
  - destruct (q_links q !! j) as [kj|] eqn:Hj; [|done].
    destruct (k_call kj) as [cj|] eqn:Hcj; [|done].
    destruct (c_phase cj); [| |done]; injection Hstep as <-;
      unfold set_link in Hl; cbn [q_links] in Hl;
      apply list_lookup_insert_Some in Hl as [(<- & <- & _)|[_ Hl]];
      right; try (by exists k, c);
      exists kj, cj; cbn in Hc; by injection Hc as <-.
Qed.

Lemma chain_run_starts trace : forall q q' i k c,
  chain_run trace q = Some q' ->
  q_links q' !! i = Some k -> k_call k = Some c ->
  Start i (c_now c) ∈ trace
  \/ exists k0 c0, q_links q !! i = Some k0 /\ k_call k0 = Some c0 /\ c_now c0 = c_now c.
Proof.
  induction trace as [|ev trace IH]; intros q q' i k c Hrun Hl Hc; cbn [chain_run] in Hrun.
  - injection Hrun as <-. right. by exists k, c.
  - destruct (chain_step ev q) as [q1|] eqn:E; [|done].
    destruct (IH q1 q' i k c Hrun Hl Hc) as [Hin|(k1 & c1 & Hl1 & Hc1 & Hnow)].
    + left. by right.
    + destruct (chain_step_starts ev q q1 i k1 c1 E Hl1 Hc1) as [->|(k0 & c0 & ? & ? & ?)].
      * left. rewrite Hnow. left.
      * right. exists k0, c0. split; [done|]. split; [done|]. congruence.
Qed.

(** One call on an idle chain, run to its end, does what
    [enqueueTitlesUpdate] awaited on an idle queue does. *)
Lemma idle_chain_agrees st evt now :
  exists q,
    chain_run [Enqueue evt; Start 0 now; Resume 0; Resume 0] (new_chain st) = Some q
    /\ q_store q = w_store (snd (enqueueTitlesUpdate evt (quiet_world st now))).
Proof. eexists. split; reflexivity. Qed.

(** The chain never blocks: while a link is not settled, a turn of the
    event loop other than a new call is possible, whatever was rejected
    before. *)
Lemma chain_inv_progress st0 q :
  chain_inv st0 q ->
  Exists (fun k => link_settled k = false) (q_links q) ->
  exists i, (forall now, chain_step (Start i now) q <> None)
            \/ chain_step (Resume i) q <> None.
Proof.
  intros (n & Hn & Hprev & Hfin & Hwait & _) Hex.
  assert (Hcase : exists i k, q_links q !! i = Some k /\ link_settled k = false
                    /\ forall j kj, q_links q !! j = Some kj -> (j < i)%nat ->
                         link_settled kj = true).
  { apply Exists_exists in Hex as (k0 & Hk0 & Hs0).
    apply list_elem_of_lookup in Hk0 as (i0 & Hi0).
    assert (Hni : (n <= i0)%nat).
    { destruct (le_lt_dec n i0); [done|]. rewrite (Hfin i0 k0 Hi0) in Hs0; [done|lia]. }
    destruct (q_links q !! n) as [kn|] eqn:Hkn.
    2: { apply lookup_ge_None in Hkn. apply lookup_lt_Some in Hi0. lia. }
    destruct (link_settled kn) eqn:Hsn.
    - assert (Hlt : (S n <= i0)%nat).
      { destruct (decide (i0 = n)) as [->|]; [congruence|lia]. }
      destruct (q_links q !! S n) as [k1|] eqn:Hk1.
      2: { apply lookup_ge_None in Hk1. apply lookup_lt_Some in Hi0. lia. }
      exists (S n), k1. split; [done|]. split.
      + unfold link_settled. rewrite (Hwait (S n) k1 Hk1); [done|lia].
      + intros j kj Hj Hlt'. destruct (decide (j = n)) as [->|]; [congruence|].
        apply (Hfin j kj Hj). lia.
    - exists n, kn. split; [done|]. split; [done|]. intros j kj Hj Hlt.
      by apply (Hfin j kj Hj). }
  destruct Hcase as (i & k & Hl & Hs & Hbefore). exists i.
  unfold link_settled in Hs. destruct (k_call k) as [c|] eqn:Hc.
  - right. cbn [chain_step]. rewrite Hl, Hc. unfold is_finished in Hs.
    by destruct (c_phase c).
  - left. intros now. cbn [chain_step]. rewrite Hl, Hc, (Hprev i k Hl).
    assert (Hf : fulfilled q i = true).
    { destruct i as [|i0]; [done|]. cbn [fulfilled].
      assert (Hlt : (i0 < length (q_links q))%nat) by (apply lookup_lt_Some in Hl; lia).
      destruct (lookup_lt_is_Some_2 _ _ Hlt) as (k0 & H0). rewrite H0.
      apply (Hbefore i0 k0 H0). lia. }
    by rewrite Hf.
Qed.
End ChainProofs.

(* ===================================================================== *)
(** * C2: no lost update through the queue *)
(* ===================================================================== *)

(** C2 (as amended). Two calls of [enqueueTitlesUpdate], in this order and
    anywhere among the turns of the event loop, for two new titles whose
    normalized forms are not empty and have distinct ids. The chain runs
    both updates to the end. At every point of every run at most one update
    is in progress, and none starts before the earlier one is over,
    although the guard of a link only looks at the promise it was chained
    to; the chain never blocks. When both updates are over and no storage
    call was rejected, the store is the one of the two updates one after
    the other, in arrival order, each with the clock read when it started;
    the entry of the second title is in it, and so is the entry of the
    first as long as its timestamp is inside the retention window when
    the second update starts. *)
Theorem queued_updates_not_lost `{rt : JSRuntime} (st : Store) (evt1 evt2 : Event) :
  normalizeTitle (ev_title evt1) <> [] ->
  normalizeTitle (ev_title evt2) <> [] ->
  hashStr (normalizeTitle (ev_title evt1)) <> hashStr (normalizeTitle (ev_title evt2)) ->
  with_id (hashStr (normalizeTitle (ev_title evt1))) (list_titles st) = [] ->
  with_id (hashStr (normalizeTitle (ev_title evt2))) (list_titles st) = [] ->
  (forall now1 now2, exists q,
      chain_run (two_calls evt1 evt2 now1 now2) (new_chain st) = Some q
      /\ Forall (fun k => link_settled k = true) (q_links q))
  /\ (forall trace q,
        chain_run trace (new_chain st) = Some q ->
        enqueued trace = [evt1; evt2] ->
        one_at_a_time q
        /\ (Exists (fun k => link_settled k = false) (q_links q) ->
            exists i, (forall now, chain_step (Start i now) q <> None)
                      \/ chain_step (Resume i) q <> None)
        /\ (Forall (fun k => link_settled k = true /\ k_rejected k = false) (q_links q) ->
            exists now1 now2,
              Start 0 now1 ∈ trace /\ Start 1 now2 ∈ trace
              /\ q_store q = update_at now2 evt2 (update_at now1 evt1 st)
              /\ new_entry now2 evt2 ∈ list_titles (q_store q)
              /\ (keepAfter now2 <= sighting_ts now1 evt1 ->
                  new_entry now1 evt1 ∈ list_titles (q_store q)))).
Proof.
  intros Hn1 Hn2 Hne H1 H2. split.
  { intros now1 now2. eexists. split; [reflexivity|]. cbn. by repeat constructor. }
  intros trace q Hrun Henq.
  pose proof (chain_run_inv st trace _ q (chain_inv_new st) Hrun) as Hinv.
  split; [by eapply chain_inv_one_at_a_time|].
  split; [by eapply chain_inv_progress|].
  intros Hall.
  pose proof (chain_run_events trace _ q Hrun) as Hev.
  pose proof (fun i k c => chain_run_starts trace _ q i k c Hrun) as Hstarts.
  rewrite Henq in Hev. cbn in Hev.
  destruct Hinv as (n & _ & _ & _ & _ & Hstore & _ & Hevt).
  destruct (q_links q) as [|k1 [|k2 [|k3 links]]] eqn:El; try done.
  injection Hev as He1 He2.
  apply Forall_cons in Hall as [[Hs1 Hr1] Hall].
  apply Forall_cons in Hall as [[Hs2 Hr2] _].
  unfold link_settled in Hs1, Hs2.
  destruct (k_call k1) as [c1|] eqn:Hc1; [|done].
  destruct (k_call k2) as [c2|] eqn:Hc2; [|done].
  pose proof (Hevt 0%nat k1 c1 eq_refl Hc1) as Hevt1.
  pose proof (Hevt 1%nat k2 c2 eq_refl Hc2) as Hevt2.
  rewrite He1 in Hevt1. rewrite He2 in Hevt2.
  exists (c_now c1), (c_now c2).
  split.
  { destruct (Hstarts 0%nat k1 c1 eq_refl Hc1) as [?|(k0 & c0 & Hk0 & _)]; [done|].
    cbn in Hk0. discriminate Hk0. }
  split.
  { destruct (Hstarts 1%nat k2 c2 eq_refl Hc2) as [?|(k0 & c0 & Hk0 & _)]; [done|].
    cbn in Hk0. discriminate Hk0. }
  assert (Hst : q_store q
                = update_at (c_now c2) evt2 (update_at (c_now c1) evt1 st)).
  { rewrite Hstore. unfold effective. rewrite El. cbn [omap list_omap].
    unfold effect. rewrite Hc1, Hc2, Hs1, Hs2, Hr1, Hr2, Hevt1, Hevt2. reflexivity. }
  rewrite Hst, !list_titles_update_at.
  set (now1 := c_now c1). set (now2 := c_now c2).
  set (l1 := updatedTitles now1 evt1 (list_titles st)).
  assert (E1 : with_id (hashStr (normalizeTitle (ev_title evt1))) l1
               = [new_entry now1 evt1]) by (by apply with_id_first_sighting).
  assert (E2 : with_id (hashStr (normalizeTitle (ev_title evt2))) l1 = []).
  { unfold l1. rewrite with_id_updated_other by congruence.
    by rewrite with_id_cleaned, H2, filter_nil. }
  split; [reflexivity|]. split.
  - apply (elem_of_with_id (hashStr (normalizeTitle (ev_title evt2)))).
    by apply with_id_first_sighting.
  - intros Hw.
    apply (elem_of_with_id (hashStr (normalizeTitle (ev_title evt1)))).
    rewrite with_id_updated_other by done.
    rewrite with_id_cleaned, E1. by rewrite filter_cons_True, filter_nil.
Qed.

(** Two titles seen one millisecond apart on an empty storage. *)
Lemma queued_updates_not_lost_witness :
  let evt1 := feed_event "First title" 1000 in
  let evt2 := feed_event "Second title" 1001 in
  exists q,
    chain_run (rt := latin_runtime) (two_calls evt1 evt2 1000 1001) (new_chain empty_store)
    = Some q
    /\ exists now1 now2,
         Start 0 now1 ∈ two_calls evt1 evt2 1000 1001
         /\ Start 1 now2 ∈ two_calls evt1 evt2 1000 1001
         /\ q_store q = update_at now2 evt2 (update_at now1 evt1 empty_store)
         /\ new_entry now2 evt2 ∈ list_titles (q_store q)
         /\ (keepAfter now2 <= sighting_ts now1 evt1 ->
             new_entry now1 evt1 ∈ list_titles (q_store q)).
Proof.
  cbv zeta. eexists. split; [vm_compute; reflexivity|].
  refine (proj2 (proj2 (proj2 (queued_updates_not_lost (rt := latin_runtime) empty_store
            (feed_event "First title" 1000) (feed_event "Second title" 1001)
            _ _ _ _ _)
            (two_calls (feed_event "First title" 1000) (feed_event "Second title" 1001)
               1000 1001) _ _ _)) _).
  - vm_compute. discriminate.
  - vm_compute. discriminate.
  - vm_compute. discriminate.
  - reflexivity.
  - reflexivity.
  - vm_compute. reflexivity.
  - reflexivity.
  - cbn. by repeat constructor.
Defined.

(** C2 as stated fails. The titles [az] and [c8] are distinct and new, and
    their normalized forms have the same id: queued on an empty storage
    and run to the end without any rejection, the two updates leave a
    single entry, the one of [az]; nothing of [c8] is stored. *)
Lemma queued_updates_collision_counterexample :
  let evt1 := feed_event "az" 1000 in
  let evt2 := feed_event "c8" 1000 in
  ev_title evt1 <> ev_title evt2
  /\ normalizeTitle (rt := latin_runtime) (ev_title evt1) = str "az"
  /\ normalizeTitle (rt := latin_runtime) (ev_title evt2) = str "c8"
  /\ hashStr (str "az") = hashStr (str "c8")
  /\ exists q,
       chain_run (rt := latin_runtime) (two_calls evt1 evt2 1000 1000)
         (new_chain empty_store) = Some q
       /\ Forall (fun k => link_settled k = true /\ k_rejected k = false) (q_links q)
       /\ list_titles (q_store q) = [new_entry 1000 evt1]
       /\ ~ (exists e, e ∈ list_titles (q_store q) /\ e_title e = str "c8").
Proof.
  cbv zeta. split; [vm_compute; discriminate|].
  split; [vm_compute; reflexivity|]. split; [vm_compute; reflexivity|].
  split; [vm_compute; reflexivity|].
  eexists. split; [vm_compute; reflexivity|].
  split; [cbn; by repeat constructor|].
  split; [vm_compute; reflexivity|].
  intros (e & He & Ht). cbn [q_store] in He.
  replace (list_titles _) with [new_entry 1000 (feed_event "az" 1000)] in He
    by (vm_compute; reflexivity).
  apply list_elem_of_singleton in He. subst e. vm_compute in Ht. discriminate Ht.
Qed.

(** The other way the two are not both present: the first sighting carries
    a timestamp that is out of the retention window when the second update
    starts, and is pruned by it. *)
Example queued_updates_stale_first_pruned :
  let evt1 := feed_event "First title" 5 in
  let evt2 := feed_event "Second title" (fourteen_days + 1000) in
  exists q,
    chain_run (rt := latin_runtime) (two_calls evt1 evt2 1000 (fourteen_days + 1000))
      (new_chain empty_store) = Some q
    /\ list_titles (q_store q) = [new_entry (fourteen_days + 1000) evt2].
Proof. cbv zeta. eexists. split; vm_compute; reflexivity. Qed.

(** Without the queue the same two calls can interleave so that both read
    the empty list; the write of the second then replaces the first's. *)
Lemma unqueued_updates_can_be_lost :
  let evt1 := feed_event "First title" 1000 in
  let evt2 := feed_event "Second title" 1000 in
  exists st' calls,
    rtc free_step (empty_store, [pending 1000 evt1; pending 1000 evt2]) (st', calls)
    /\ Forall finished calls
    /\ list_titles st' = [new_entry 1000 evt2].
Proof.
  intros evt1 evt2. eexists _, _. split; [|split].
  - eapply rtc_l; [eapply (free_step_at _ _ [] _ _ [_]); apply call_load|].
    eapply rtc_l; [eapply (free_step_at _ _ [_] _ _ []); apply call_load|].
    eapply rtc_l; [eapply (free_step_at _ _ [] _ _ [_]); apply call_persist|].
    eapply rtc_l; [eapply (free_step_at _ _ [_] _ _ []); apply call_persist|].
    apply rtc_refl.
  - by repeat constructor.
  - reflexivity.
Qed.

(* ===================================================================== *)
(** * hashStr: the printed id *)
(* ===================================================================== *)

Lemma hex_digit_value d : 0 <= d < 16 ->
  hex_value (hex_digit d) = d /\ is_hex_digit (hex_digit d) = true.
Proof.
  intros Hd. unfold hex_value, hex_digit, is_hex_digit.
  destruct (Z.ltb_spec d 10).
  - assert (E : ((48 <=? Z.to_N (48 + d)) && (Z.to_N (48 + d) <=? 57))%N = true).
    { apply andb_true_intro. split; apply N.leb_le; lia. }
    rewrite E. split; [lia|reflexivity].
  - assert (E : ((48 <=? Z.to_N (87 + d)) && (Z.to_N (87 + d) <=? 57))%N = false).
    { apply andb_false_intro2. apply N.leb_gt. lia. }
    rewrite E. split; [lia|].
    apply orb_true_intro. right.
    apply andb_true_intro. split; apply N.leb_le; lia.
Qed.

(** [to_hex] writes the digits of [z] in front of [acc]. *)
Lemma to_hex_digits fuel : forall z acc,
  0 <= z < 16 ^ Z.of_nat (S fuel) ->
  exists pre,
    to_hex (S fuel) z acc = pre ++ acc
    /\ (1 <= length pre <= S fuel)%nat
    /\ Forall (fun c => is_hex_digit c = true) pre
    /\ forall a, fold_left (fun acc c => acc * 16 + hex_value c) pre a
                 = a * 16 ^ Z.of_nat (length pre) + z.
Proof.
  induction fuel as [|fuel IH]; intros z acc Hz.
  - assert (Hz' : 0 <= z < 16) by (change (16 ^ Z.of_nat 1) with 16 in Hz; lia).
    exists [hex_digit (z mod 16)]. simpl.
    rewrite Z.div_small by lia. simpl. rewrite Z.mod_small by lia.
    destruct (hex_digit_value z Hz') as [Hv Hd].
    repeat split; [lia | lia | by repeat constructor |].
    intros a. simpl. rewrite Hv. lia.
  - assert (Hm : 0 <= z mod 16 < 16) by (apply Z.mod_pos_bound; lia).
    destruct (hex_digit_value (z mod 16) Hm) as [Hv Hd].
    change (to_hex (S (S fuel)) z acc)
      with (if z / 16 =? 0 then hex_digit (z mod 16) :: acc
            else to_hex (S fuel) (z / 16) (hex_digit (z mod 16) :: acc)).
    destruct (Z.eqb_spec (z / 16) 0) as [E|E].
    + exists [hex_digit (z mod 16)]. simpl.
      repeat split; [lia | lia | by repeat constructor |].
      intros a. simpl. rewrite Hv.
      pose proof (Z.div_mod z 16 ltac:(lia)). lia.
    + destruct (IH (z / 16) (hex_digit (z mod 16) :: acc)) as (pre & Hp & Hl & Hf & Hr).
      { split; [apply Z.div_pos; lia|].
        apply Z.div_lt_upper_bound; [lia|].
        replace (Z.of_nat (S (S fuel))) with (Z.of_nat (S fuel) + 1) in Hz by lia.
        rewrite Z.pow_add_r in Hz by lia. lia. }
      exists (pre ++ [hex_digit (z mod 16)]).
      rewrite Hp, <- app_assoc. split; [reflexivity|].
      rewrite length_app. simpl. split; [lia|]. split.
      * apply Forall_app. split; [exact Hf|by repeat constructor].
      * intros a. rewrite fold_left_app, Hr. simpl. rewrite Hv.
        replace (Z.of_nat (length pre + 1)) with (Z.of_nat (length pre) + 1) by lia.
        rewrite Z.pow_add_r by lia.
        pose proof (Z.div_mod z 16 ltac:(lia)). lia.
Qed.

(** X1. The id printed by [hashStr] is a numeral of one to eight lowercase
    hexadecimal digits which reads back as the unsigned 32-bit hash; two
    strings have the same id exactly when their 32-bit hashes agree. *)
Theorem hashStr_hex_round_trip (s s' : jsstring) :
  (1 <= length (hashStr s) <= 8)%nat
  /\ Forall (fun c => is_hex_digit c = true) (hashStr s)
  /\ from_hex (hashStr s) = hash32 s
  /\ 0 <= hash32 s < 4294967296
  /\ (hashStr s = hashStr s' <-> hash32 s = hash32 s').
Proof.
  assert (Hr : forall u, 0 <= hash32 u < 4294967296).
  { intros u. unfold hash32, to_uint32. apply Z.mod_pos_bound. lia. }
  assert (H : forall u, (1 <= length (hashStr u) <= 8)%nat
                /\ Forall (fun c => is_hex_digit c = true) (hashStr u)
                /\ from_hex (hashStr u) = hash32 u).
  { intros u.
    destruct (to_hex_digits 7 (hash32 u) []) as (pre & Hp & Hl & Hf & Hv).
    { change (16 ^ Z.of_nat 8) with 4294967296. apply Hr. }
    change (hashStr u) with (to_hex 8 (hash32 u) []).
    rewrite Hp, app_nil_r. repeat split; try lia; [exact Hf|].
    unfold from_hex. rewrite Hv. lia. }
  destruct (H s) as (Hl & Hf & Hv).
  split; [exact Hl|]. split; [exact Hf|]. split; [exact Hv|].
  split; [apply Hr|]. split.
  - intros E. rewrite <- Hv, E. apply H.
  - intros E. change (to_hex 8 (hash32 s) [] = to_hex 8 (hash32 s') []). by rewrite E.
Qed.

(* ===================================================================== *)
(** * Further properties of the Title Store *)
(* ===================================================================== *)

Lemma cleaned_titles_all_within now l :
  Forall (fun x => keepAfter now <= e_ts x) (cleaned_titles now l).
Proof.
  apply Forall_forall. intros x Hx. by apply elem_of_cleaned_titles in Hx as [? _].
Qed.

Lemma filter_all {A} (P : A -> Prop) `{forall x, Decision (P x)} (l : list A) :
  Forall P l -> filter P l = l.
Proof.
  induction 1 as [|x l Hx _ IH]; [reflexivity|].
  rewrite filter_cons_True by done. by rewrite IH.
Qed.

Lemma ids_filter (P : TitleEntry -> Prop) `{forall x, Decision (P x)} l :
  NoDup (e_id <$> l) -> NoDup (e_id <$> filter P l).
Proof.
  induction l as [|x l IH]; [done|].
  rewrite fmap_cons, NoDup_cons. intros [Hx Hl].
  destruct (decide (P x)).
  - rewrite filter_cons_True by done. rewrite fmap_cons, NoDup_cons.
    split; [|by apply IH].
    intros Hin. apply Hx. apply list_elem_of_fmap in Hin as (y & Hy & Hin).
    apply list_elem_of_filter in Hin as [_ Hin].
    apply list_elem_of_fmap. eauto.
  - rewrite filter_cons_False by done. by apply IH.
Qed.

Lemma ids_upsert h (f : TitleEntry -> TitleEntry) y l :
  (forall x, e_id (f x) = e_id x) -> e_id y = h ->
  e_id <$> upsert (fun x => e_id x = h) f y l
  = (e_id <$> l) ++ (if decide (h ∈ e_id <$> l) then [] else [h]).
Proof.
  intros Hf Hy. induction l as [|x l IH].
  - cbn [upsert fmap list_fmap app]. rewrite Hy.
    destruct (decide (h ∈ [])) as [Hin|_]; [by apply elem_of_nil in Hin|done].
  - cbn [upsert]. rewrite (fmap_cons e_id x l).
    destruct (decide (e_id x = h)) as [Hx|Hx].
    + rewrite fmap_cons, Hf.
      destruct (decide (h ∈ e_id x :: (e_id <$> l))) as [_|Hn].
      * by rewrite app_nil_r.
      * exfalso. apply Hn. rewrite Hx. left.
    + rewrite fmap_cons, IH, <- app_comm_cons. f_equal. f_equal.
      destruct (decide (h ∈ e_id <$> l)) as [Hin|Hin];
        destruct (decide (h ∈ e_id x :: (e_id <$> l))) as [Hin'|Hin']; try done.
      * exfalso. apply Hin'. by right.
      * exfalso. apply elem_of_cons in Hin' as [?|?]; [congruence|done].
Qed.

Section TitleStoreMore.
Context {rt : JSRuntime}.

(** The id of the entry an event refers to. *)
Lemma updatedTitles_ids now evt l :
  normalizeTitle (ev_title evt) <> [] ->
  e_id <$> updatedTitles now evt l
  = (e_id <$> cleaned_titles now l)
    ++ (if decide (hashStr (normalizeTitle (ev_title evt)) ∈ e_id <$> cleaned_titles now l)
        then [] else [hashStr (normalizeTitle (ev_title evt))]).
Proof.
  intros Hn. rewrite updatedTitles_upsert by done. by apply ids_upsert.
Qed.

Lemma updatedTitles_NoDup_ids now evt l :
  NoDup (e_id <$> l) -> NoDup (e_id <$> updatedTitles now evt l).
Proof.
  intros Hl.
  assert (Hc : NoDup (e_id <$> cleaned_titles now l)) by (by apply ids_filter).
  destruct (normalizeTitle (ev_title evt)) as [|c s] eqn:E.
  - by rewrite updatedTitles_empty_norm.
  - rewrite updatedTitles_ids by (rewrite E; done). rewrite E.
    destruct (decide (hashStr (c :: s) ∈ e_id <$> cleaned_titles now l)) as [Hin|Hin].
    + by rewrite app_nil_r.
    + apply NoDup_app. split; [exact Hc|]. split.
      * intros x Hx Hx'. apply list_elem_of_singleton in Hx'. by subst.
      * apply NoDup_singleton.
Qed.

Lemma reachable_NoDup_ids st : reachable st -> NoDup (e_id <$> list_titles st).
Proof.
  set (I := fun s : Store => NoDup (e_id <$> list_titles s)).
  assert (Hu : forall now evt s st', I s -> I st' ->
            I (set_titles_batch (updatedTitles now evt (default [] (titles_batch st'))) s)).
  { intros ? ? s st' _ H'. by apply updatedTitles_NoDup_ids. }
  assert (Hc : forall s, I s -> I (set_titles_batch [] s)).
  { intros s _. apply NoDup_nil_2. }
  assert (Ha : forall ids s st', I s -> I st' ->
            I (set_titles_batch (ackedTitles ids (default [] (titles_batch st'))) s)).
  { intros ids s st' _ H'. unfold I, list_titles; simpl. by apply ids_filter. }
  induction 1 as [|st msg now faults evs sent Hst IH
                  |st msg now faults evs sent Hst IH].
  - apply NoDup_nil_2.
  - assert (K : keeps I (onMessage msg) (fun _ => True))
      by (apply keeps_onMessage; by auto).
    exact (proj1 (K {| w_store := st; w_events := evs; w_clock := now;
                       w_faults := faults; w_sent := sent |} IH)).
  - assert (K : keeps I (onMessageExternal msg) (fun _ => True))
      by (apply keeps_onMessageExternal; by auto).
    exact (proj1 (K {| w_store := st; w_events := evs; w_clock := now;
                       w_faults := faults; w_sent := sent |} IH)).
Qed.
End TitleStoreMore.

(** X2. Uniqueness invariant: in every store the two listeners can reach
    from the empty storage, whatever the clock and the failures of the
    browser calls, no two entries of [titles_batch] carry the same id. *)
Theorem title_ids_unique `{rt : JSRuntime} (st : Store) :
  reachable st -> NoDup (e_id <$> list_titles st).
Proof. apply reachable_NoDup_ids. Qed.

(** The store after one accepted sighting. *)
Lemma title_ids_unique_witness :
  NoDup (e_id <$> list_titles
    (w_store (snd (onMessage (Some (add_event_msg (feed_payload "A title" 7)))
                     {| w_store := empty_store; w_events := []; w_clock := 7;
                        w_faults := []; w_sent := [] |})))).
Proof.
  apply (title_ids_unique
           (w_store (snd (onMessage (Some (add_event_msg (feed_payload "A title" 7)))
                            {| w_store := empty_store; w_events := []; w_clock := 7;
                               w_faults := []; w_sent := [] |})))).
  apply reachable_step. apply reachable_init.
Defined.

Lemma upsert_twice {A} (W P : A -> Prop) `{forall x, Decision (W x)}
    `{forall x, Decision (P x)} (f : A -> A) (y : A) (l : list A) :
  (forall x, P x -> P (f x)) -> (forall x, W x -> W (f x)) ->
  (forall x, P x -> f (f x) = f x) -> P y -> f y = y ->
  Forall W l ->
  upsert P f y (filter W (upsert P f y l)) = upsert P f y l.
Proof.
  intros HP HW Hff Hy Hfy. induction 1 as [|x l Hx Hl IH]; simpl.
  - destruct (decide (W y)).
    + rewrite filter_cons_True by done. rewrite filter_nil. simpl.
      rewrite decide_True by done. by rewrite Hfy.
    + rewrite filter_cons_False by done. by rewrite filter_nil.
  - destruct (decide (P x)) as [Hp|Hp].
    + rewrite filter_cons_True by auto. rewrite (filter_all W l Hl). simpl.
      rewrite decide_True by auto. by rewrite Hff.
    + rewrite filter_cons_True by done. simpl.
      rewrite decide_False by done. by rewrite IH.
Qed.

Lemma upsert_lookup {A} (P : A -> Prop) `{forall x, Decision (P x)}
    (f : A -> A) (y : A) (l : list A) (i : nat) (x : A) :
  l !! i = Some x ->
  exists z, upsert P f y l !! i = Some z /\ (z = x \/ (P x /\ z = f x)).
Proof.
  revert i. induction l as [|a l IH]; intros i Hi; [done|]. simpl.
  destruct (decide (P a)) as [Ha|Ha].
  - destruct i as [|i]; simpl in *.
    + injection Hi as <-. eauto.
    + eauto.
  - destruct i as [|i]; simpl in *.
    + injection Hi as <-. eauto.
    + by apply IH.
Qed.

(** X3. Idempotence: handling the same sighting a second time at the same
    clock leaves [titles_batch] as the first handling left it. *)
Theorem update_idempotent `{rt : JSRuntime} (now : Z) (evt : Event)
    (l : list TitleEntry) (st : Store) :
  updatedTitles now evt (updatedTitles now evt l) = updatedTitles now evt l
  /\ update_at now evt (update_at now evt st) = update_at now evt st.
Proof.
  assert (H : forall l0, updatedTitles now evt (updatedTitles now evt l0)
                         = updatedTitles now evt l0).
  { intros l0. destruct (normalizeTitle (ev_title evt)) as [|c s] eqn:E.
    - rewrite !updatedTitles_empty_norm by done.
      apply filter_all, cleaned_titles_all_within.
    - assert (Hn : normalizeTitle (ev_title evt) <> []) by (rewrite E; done).
      rewrite (updatedTitles_upsert now evt (updatedTitles _ _ _)) by done.
      rewrite (updatedTitles_upsert now evt l0) by done.
      apply (upsert_twice (fun x => keepAfter now <= e_ts x)); simpl; try done.
      + intros x Hx. rewrite or_num_0_r. lia.
      + intros x _. unfold refreshed_entry; simpl. f_equal.
        rewrite !or_num_0_r. lia.
      + unfold refreshed_entry, new_entry; simpl. f_equal.
        rewrite or_num_0_r. lia.
      + apply cleaned_titles_all_within. }
  split; [apply H|].
  rewrite (update_at_eq now evt (update_at now evt st)).
  rewrite list_titles_update_at, H, update_at_eq. reflexivity.
Qed.

(** X4. What an update does to the entries it keeps: each entry of the
    pruned list stays at its index with its id, title and platform; its
    timestamp is not lowered; and it is left exactly as it was unless it
    carries the id of the event. *)
Theorem update_keeps_entries_in_place `{rt : JSRuntime} (now : Z) (evt : Event)
    (l : list TitleEntry) (i : nat) (x : TitleEntry) :
  cleaned_titles now l !! i = Some x ->
  exists y,
    updatedTitles now evt l !! i = Some y
    /\ entry_key y = entry_key x
    /\ e_ts x <= e_ts y
    /\ (e_id x <> hashStr (normalizeTitle (ev_title evt)) -> y = x).
Proof.
  intros Hi. destruct (normalizeTitle (ev_title evt)) as [|c s] eqn:E.
  - rewrite updatedTitles_empty_norm by done. exists x.
    split; [done|]. split; [done|]. split; [lia|done].
  - rewrite updatedTitles_upsert by (rewrite E; done). rewrite E.
    destruct (upsert_lookup (fun z => e_id z = hashStr (c :: s))
                (refreshed_entry now evt) (new_entry now evt) _ i x Hi)
      as (z & Hz & [->|[Hp ->]]).
    + exists x. split; [done|]. split; [done|]. split; [lia|done].
    + exists (refreshed_entry now evt x). split; [done|]. split; [reflexivity|].
      split; [apply refreshed_entry_ts_ge|]. intros Hne. by destruct Hne.
Qed.

(** A store of two recent entries, one of which is seen again. *)
Lemma update_keeps_entries_in_place_witness :
  exists y,
    updatedTitles 1000 (feed_event "B" 900)
      [ {| e_id := hashStr (str "a"); e_title := str "a"; e_ts := 5;
           e_platform := str "youtube" |};
        {| e_id := hashStr (str "b"); e_title := str "b"; e_ts := 7;
           e_platform := str "youtube" |} ] !! 1%nat = Some y
    /\ entry_key y = (hashStr (str "b"), str "b", str "youtube")
    /\ 7 <= e_ts y
    /\ (hashStr (str "b") <> hashStr (normalizeTitle (str "B")) ->
        y = {| e_id := hashStr (str "b"); e_title := str "b"; e_ts := 7;
               e_platform := str "youtube" |}).
Proof.
  apply (update_keeps_entries_in_place 1000 (feed_event "B" 900)
           [ {| e_id := hashStr (str "a"); e_title := str "a"; e_ts := 5;
                e_platform := str "youtube" |};
             {| e_id := hashStr (str "b"); e_title := str "b"; e_ts := 7;
                e_platform := str "youtube" |} ] 1%nat
           {| e_id := hashStr (str "b"); e_title := str "b"; e_ts := 7;
              e_platform := str "youtube" |}).
  reflexivity.
Defined.

(** X5. Acknowledgement removes exactly the entries whose id is listed and
    keeps the others in their order; it writes no other key; and when none
    of the listed ids is stored (or none is listed) the storage is left as
    it was. *)
Theorem ack_removes_listed_ids_only `{rt : JSRuntime} (ids : list jsstring) (st : Store) :
  list_titles (ack_at ids st) = filter (fun x => e_id x ∉ ids) (list_titles st)
  /\ (forall e, e ∈ list_titles (ack_at ids st) <-> e ∈ list_titles st /\ e_id e ∉ ids)
  /\ profile_histogram (ack_at ids st) = profile_histogram st
  /\ pieces_archive (ack_at ids st) = pieces_archive st
  /\ last_webapp_sync_at (ack_at ids st) = last_webapp_sync_at st
  /\ ((forall e, e ∈ list_titles st -> e_id e ∉ ids) -> ack_at ids st = st).
Proof.
  assert (H : list_titles (ack_at ids st)
              = filter (fun x => e_id x ∉ ids) (list_titles st)).
  { unfold ack_at, ackTitles. destruct ids as [|i ids]; simpl.
    - symmetry. apply filter_all, Forall_forall. intros x _. apply not_elem_of_nil.
    - unfold list_titles. destruct st as [[[|x l]|] ph pa ls]; reflexivity. }
  split; [exact H|]. split.
  { intros e. rewrite H, list_elem_of_filter. tauto. }
  assert (Hk : profile_histogram (ack_at ids st) = profile_histogram st
               /\ pieces_archive (ack_at ids st) = pieces_archive st
               /\ last_webapp_sync_at (ack_at ids st) = last_webapp_sync_at st).
  { unfold ack_at, ackTitles. destruct ids as [|i ids]; simpl; [done|].
    destruct st as [[[|x l]|] ph pa ls]; simpl; done. }
  destruct Hk as (H1 & H2 & H3). repeat (split; [assumption|]).
  intros Hnone.
  assert (Hf : filter (fun x => e_id x ∉ ids) (list_titles st) = list_titles st).
  { apply filter_all, Forall_forall. exact Hnone. }
  unfold ack_at, ackTitles in *. destruct ids as [|i ids]; simpl in *; [done|].
  unfold list_titles in *. destruct st as [[[|x l]|] ph pa ls]; simpl in *; try done.
  unfold set_titles_batch, ackedTitles; simpl. by rewrite Hf.
Qed.

(* ===================================================================== *)
(** * trim *)
(* ===================================================================== *)

Lemma skip_class_split cls s :
  exists pre, s = pre ++ skip_class cls s /\ Forall (fun c => cls c = true) pre.
Proof.
  induction s as [|c s (pre & Hs & Hp)]; simpl.
  - by exists [].
  - destruct (cls c) eqn:E.
    + exists (c :: pre). split; [simpl; by rewrite <- Hs|by constructor].
    + by exists [].
Qed.

Lemma skip_class_head cls s :
  match skip_class cls s with [] => True | c :: _ => cls c = false end.
Proof.
  induction s as [|c s IH]; simpl; [done|].
  destruct (cls c) eqn:E; [exact IH|exact E].
Qed.

Lemma skip_class_fixed cls s :
  match s with [] => True | c :: _ => cls c = false end -> skip_class cls s = s.
Proof. destruct s as [|c s]; simpl; [done|]. by intros ->. Qed.

Lemma skip_class_all cls s :
  skip_class cls s = [] <-> Forall (fun c => cls c = true) s.
Proof.
  induction s as [|c s IH]; simpl; [by split|].
  destruct (cls c) eqn:E.
  - rewrite IH. split; [by constructor|]. by intros [_ ?]%Forall_cons.
  - split; [done|]. intros [? _]%Forall_cons. congruence.
Qed.

Lemma trimEnd_split s :
  exists post, s = trimEnd s ++ post /\ Forall (fun c => is_space c = true) post.
Proof.
  unfold trimEnd.
  destruct (skip_class_split is_space (rev s)) as (pre & Hs & Hp).
  exists (rev pre). split.
  - rewrite <- rev_app_distr, <- Hs. by rewrite rev_involutive.
  - apply Forall_forall. intros x Hx. apply list_elem_of_In, in_rev in Hx.
    rewrite Forall_forall in Hp. apply Hp. by apply list_elem_of_In.
Qed.

Lemma trimEnd_ends_clean s : ends_clean (trimEnd s).
Proof.
  unfold ends_clean, trimEnd. rewrite rev_involutive. apply skip_class_head.
Qed.

Lemma trimEnd_starts_clean s : starts_clean s -> starts_clean (trimEnd s).
Proof.
  intros Hs. destruct (trimEnd_split s) as (post & E & _).
  destruct (trimEnd s) as [|c t]; [done|].
  rewrite E in Hs. exact Hs.
Qed.

Lemma trim_clean s : starts_clean (trim s) /\ ends_clean (trim s).
Proof.
  unfold trim. split; [|apply trimEnd_ends_clean].
  apply trimEnd_starts_clean. apply skip_class_head.
Qed.

Lemma trim_fixed s : starts_clean s -> ends_clean s -> trim s = s.
Proof.
  intros Hs He. unfold trim, trimStart, trimEnd.
  rewrite (skip_class_fixed is_space s Hs).
  rewrite (skip_class_fixed is_space (rev s) He). apply rev_involutive.
Qed.

Lemma trim_idempotent s : trim (trim s) = trim s.
Proof. destruct (trim_clean s). by apply trim_fixed. Qed.

(** [trim] cuts a piece out of its argument. *)
Lemma trim_split s :
  exists pre post,
    s = pre ++ trim s ++ post
    /\ Forall (fun c => is_space c = true) pre
    /\ Forall (fun c => is_space c = true) post.
Proof.
  unfold trim, trimStart.
  destruct (skip_class_split is_space s) as (pre & Hs & Hp).
  destruct (trimEnd_split (skip_class is_space s)) as (post & Hs' & Hq).
  exists pre, post. split; [|done]. by rewrite <- Hs', <- Hs.
Qed.

Lemma trim_Forall (P : N -> Prop) s : Forall P s -> Forall P (trim s).
Proof.
  intros H. destruct (trim_split s) as (pre & post & E & _).
  rewrite E in H. apply Forall_app in H as [_ H]. by apply Forall_app in H as [H _].
Qed.

Lemma trim_empty s : trim s = [] <-> Forall (fun c => is_space c = true) s.
Proof.
  split.
  - intros E. destruct (trim_split s) as (pre & post & Hs & Hp & Hq).
    rewrite E in Hs. rewrite Hs. apply Forall_app. by split.
  - intros H. unfold trim, trimStart.
    by rewrite (proj2 (skip_class_all is_space s) H).
Qed.

(* ===================================================================== *)
(** * The shape of normalized titles and of sanitized events *)
(* ===================================================================== *)

Lemma List_filter_Forall {A} (f : A -> bool) (P : A -> Prop) (l : list A) :
  Forall P l -> Forall P (List.filter f l).
Proof.
  induction 1 as [|x l Hx _ IH]; simpl; [constructor|].
  destruct (f x); [by constructor|done].
Qed.

Lemma List_filter_Forall_true {A} (f : A -> bool) (l : list A) :
  Forall (fun x => f x = true) (List.filter f l).
Proof.
  induction l as [|x l IH]; simpl; [constructor|].
  destruct (f x) eqn:E; [by constructor|done].
Qed.

Lemma collapse_whitespace_Forall (P : N -> Prop) s :
  P 32%N -> Forall P s -> Forall P (collapse_whitespace s).
Proof.
  intros H32. induction 1 as [|c s Hc Hs IH]; [constructor|].
  simpl. destruct (is_space c).
  - destruct s as [|c' s']; [by repeat constructor|].
    destruct (is_space c'); [exact IH|by constructor].
  - by constructor.
Qed.

Lemma collapse_whitespace_spaces s :
  Forall (fun c => is_space c = true -> c = 32%N) (collapse_whitespace s).
Proof.
  induction s as [|c s IH]; [constructor|].
  simpl. destruct (is_space c) eqn:E.
  - destruct s as [|c' s']; [by repeat constructor|].
    destruct (is_space c'); [exact IH|by constructor].
  - constructor; [congruence|exact IH].
Qed.

(** X6. Whatever the engine's case mapping and normalization do, a
    normalized title contains no quote character (double quote,
    apostrophe, backtick) and no code unit of the block U+0300 to U+036F;
    each of its whitespace code units is U+0020; and it neither starts nor
    ends with whitespace. Several U+0020 in a row can remain, where a
    quote stood between blanks, and combining marks outside that block are
    kept. *)
Theorem normalizeTitle_normal_form `{rt : JSRuntime} (t : jsstring) :
  Forall (fun c => is_quote c = false
                   /\ is_combining_mark c = false
                   /\ (is_space c = true -> c = 32%N)) (normalizeTitle t)
  /\ starts_clean (normalizeTitle t)
  /\ ends_clean (normalizeTitle t).
Proof.
  unfold normalizeTitle. split; [|apply trim_clean].
  rewrite replace_runs_strip_quotes, replace_runs_collapse_whitespace,
    replace_each_filter.
  set (a := List.filter (fun c => negb (is_combining_mark c))
              (normalize NFKD (toLowerCase t))).
  assert (Ha : Forall (fun c => is_combining_mark c = false) a).
  { pose proof (List_filter_Forall_true (fun c => negb (is_combining_mark c))
                  (normalize NFKD (toLowerCase t))) as H.
    eapply Forall_impl; [exact H|]. intros c Hc. by apply negb_true_iff in Hc. }
  assert (Hb : Forall (fun c => is_combining_mark c = false
                                /\ (is_space c = true -> c = 32%N))
                 (collapse_whitespace a)).
  { apply Forall_and. split.
    - by apply collapse_whitespace_Forall.
    - apply collapse_whitespace_spaces. }
  apply trim_Forall. unfold strip_quotes.
  pose proof (List_filter_Forall_true (fun c => negb (is_quote c))
                (collapse_whitespace a)) as Hq.
  pose proof (List_filter_Forall (fun c => negb (is_quote c)) _ _ Hb) as Hc.
  pose proof (conj Hq Hc) as H. apply Forall_and in H.
  eapply Forall_impl; [exact H|]. simpl. intros c [Hc1 [Hc2 Hc3]].
  apply negb_true_iff in Hc1. done.
Qed.

Lemma sanitizeEvent_again (now : Z) (e : Event) :
  allowed_type (Some (ev_type e)) = true ->
  starts_clean (ev_title e) -> ends_clean (ev_title e) -> ev_title e <> [] ->
  ev_ts e <> 0 -> ev_platform e <> [] ->
  sanitizeEvent now (Some (payload_of_event e)) = Some e.
Proof.
  intros Ha Hs He Hne Hts Hpf. unfold sanitizeEvent.
  cbn [payload_of_event pl_type pl_title pl_ts pl_platform pl_videoId pl_href
       pl_page or_opt_str or_opt_num default].
  rewrite Ha. cbn [negb].
  destruct e as [ts ty title vid href page pf]; simpl in *.
  destruct title as [|c t]; [done|]. cbn [or_str].
  rewrite (trim_fixed (c :: t) Hs He).
  destruct pf as [|x pf]; [done|]. cbn [or_str].
  unfold or_num. by destruct (Z.eqb_spec ts 0).
Qed.

(** X7. [sanitizeEvent] rejects a payload exactly when its type is not one
    of the two allowed or its title is missing or blank. An accepted event
    has the payload's type, the trimmed title (not empty, without
    whitespace at either end), the payload's timestamp or else the clock,
    and a platform; sanitizing it again returns it unchanged, as long as
    its timestamp is not 0. *)
Theorem sanitizeEvent_accepts_clean_events (now : Z) (p : Payload) :
  (sanitizeEvent now (Some p) = None
   <-> allowed_type (pl_type p) = false
       \/ Forall (fun c => is_space c = true) (or_opt_str (pl_title p) []))
  /\ (forall e, sanitizeEvent now (Some p) = Some e ->
        pl_type p = Some (ev_type e)
        /\ (ev_type e = str "feed_video" \/ ev_type e = str "shorts_video")
        /\ ev_title e = trim (or_opt_str (pl_title p) [])
        /\ ev_title e <> []
        /\ starts_clean (ev_title e) /\ ends_clean (ev_title e)
        /\ ev_ts e = or_opt_num (pl_ts p) now
        /\ ev_platform e <> []
        /\ (ev_ts e <> 0 ->
            forall now', sanitizeEvent now' (Some (payload_of_event e)) = Some e)).
Proof.
  unfold sanitizeEvent. split.
  - destruct (allowed_type (pl_type p)) eqn:Ha; simpl.
    + rewrite <- trim_empty.
      destruct (trim (or_opt_str (pl_title p) [])) as [|c t].
      * split; [by right|done].
      * split; [done|]. intros [?|?]; done.
    + split; [by left|done].
  - intros e. destruct (allowed_type (pl_type p)) eqn:Ha; cbn [negb]; [|done].
    destruct (trim (or_opt_str (pl_title p) [])) as [|c t] eqn:Et; [done|].
    intros [= <-]. cbn [ev_type ev_title ev_ts ev_platform].
    destruct (pl_type p) as [ty|] eqn:Ety; [|done]. cbn [default].
    assert (Hty : ty = str "feed_video" \/ ty = str "shorts_video").
    { unfold allowed_type in Ha.
      apply orb_prop in Ha as [H|H]; apply bool_decide_eq_true in H; auto. }
    pose proof (trim_clean (or_opt_str (pl_title p) [])) as [Hs He].
    rewrite Et in Hs, He.
    assert (Hpf : or_opt_str (pl_platform p) (str "youtube") <> []).
    { destruct (pl_platform p) as [[|x pf]|]; done. }
    repeat (split; [done|]).
    intros Hts now'.
    apply sanitizeEvent_again;
      cbn [ev_type ev_title ev_ts ev_platform]; try done.
Qed.

(* ===================================================================== *)
(** * Further properties of the listeners *)
(* ===================================================================== *)

Lemma eqb_not_in (s : string) (l : list string) (t : string) :
  s ∉ l -> t ∈ l -> String.eqb s t = false.
Proof.
  intros Hs Ht. apply String.eqb_neq. intros ->. done.
Qed.

Ltac not_listed H :=
  repeat match goal with
         | |- context [String.eqb ?s ?t] =>
             rewrite (eqb_not_in s _ t H) by (repeat constructor)
         end.

(** X8. The external listener serves the eight bridge actions exactly as
    the internal listener does, and answers every other action, those of
    the event log and [CLEAR_PROFILE_ARCHIVE] included, with
    [{ok: false, error: 'unsupported'}], storage and event log untouched. *)
Theorem external_listener_scope `{rt : JSRuntime} (msg : Msg) (w : World) :
  (m_type msg ∈ external_vocabulary ->
     onMessageExternal (Some msg) w = onMessage (Some msg) w)
  /\ (m_type msg ∉ external_vocabulary ->
     onMessageExternal (Some msg) w
     = (Ret tt, with_sent (resp_error (str "unsupported")) w)).
Proof.
  split.
  - intros Hv. unfold external_vocabulary in Hv.
    destruct msg as [ty pl lim ids pids prof pprof piece ppiece]; simpl in Hv.
    repeat (apply elem_of_cons in Hv as [->|Hv]); try (by apply elem_of_nil in Hv);
      reflexivity.
  - intros Hv. unfold onMessageExternal, dispatchExternal, try_catch.
    unfold external_vocabulary in Hv. not_listed Hv. reflexivity.
Qed.

(** X9. An action outside the vocabulary of the internal listener gets no
    response at all and changes nothing. *)
Theorem unknown_action_ignored `{rt : JSRuntime} (msg : Msg) (w : World) :
  m_type msg ∉ vocabulary -> onMessage (Some msg) w = (Ret tt, w).
Proof.
  intros Hv. unfold onMessage, dispatch, try_catch.
  unfold vocabulary in Hv. not_listed Hv. reflexivity.
Qed.

Lemma unknown_action_ignored_witness :
  onMessage (Some (bare_msg "PING")) (failing_world empty_store 3 (str "Error"))
  = (Ret tt, failing_world empty_store 3 (str "Error")).
Proof.
  apply (unknown_action_ignored (bare_msg "PING")).
  unfold vocabulary. simpl.
  rewrite !not_elem_of_cons. repeat split; try discriminate. apply not_elem_of_nil.
Defined.

(** ** The event log read backwards *)

Lemma insert_by_ts_perm x l : insert_by_ts x l ≡ₚ x :: l.
Proof.
  induction l as [|y l IH]; simpl; [done|].
  destruct (ev_ts x <? ev_ts y); [done|].
  rewrite IH. apply Permutation_swap.
Qed.

Lemma insert_by_ts_sorted x l :
  StronglySorted (fun a b => ev_ts a <= ev_ts b) l ->
  StronglySorted (fun a b => ev_ts a <= ev_ts b) (insert_by_ts x l).
Proof.
  induction 1 as [|y l Hl IH Hy]; simpl; [by repeat constructor|].
  destruct (Z.ltb_spec (ev_ts x) (ev_ts y)).
  - constructor; [by constructor|].
    constructor; [lia|]. eapply Forall_impl; [exact Hy|]. simpl. intros; lia.
  - constructor; [exact IH|].
    rewrite (insert_by_ts_perm x l). by constructor.
Qed.

Lemma sorted_by_ts_fold l : forall acc,
  StronglySorted (fun a b => ev_ts a <= ev_ts b) acc ->
  StronglySorted (fun a b => ev_ts a <= ev_ts b)
    (fold_left (fun acc x => insert_by_ts x acc) l acc)
  /\ fold_left (fun acc x => insert_by_ts x acc) l acc ≡ₚ l ++ acc.
Proof.
  induction l as [|x l IH]; intros acc Hacc; simpl; [done|].
  destruct (IH (insert_by_ts x acc) (insert_by_ts_sorted x acc Hacc)) as [Hs Hp].
  split; [exact Hs|]. rewrite Hp, insert_by_ts_perm. by rewrite Permutation_middle.
Qed.

Lemma StronglySorted_rev {A} (R : A -> A -> Prop) l :
  StronglySorted R l -> StronglySorted (fun a b => R b a) (rev l).
Proof.
  induction 1 as [|x l Hl IH Hx]; simpl; [constructor|].
  assert (Hx' : Forall (fun y => R x y) (rev l)).
  { apply Forall_forall. intros y Hy. apply list_elem_of_In, in_rev in Hy.
    rewrite Forall_forall in Hx. apply Hx. by apply list_elem_of_In. }
  clear Hx Hl. induction IH as [|y k Hk IHk Hy]; simpl.
  - by repeat constructor.
  - apply Forall_cons in Hx' as [Hxy Hx'].
    constructor; [by apply IHk|].
    apply Forall_app. split; [exact Hy|by repeat constructor].
Qed.

Lemma by_ts_prev_sorted l :
  StronglySorted newer_first (by_ts_prev l) /\ by_ts_prev l ≡ₚ l.
Proof.
  unfold by_ts_prev.
  destruct (sorted_by_ts_fold l [] (SSorted_nil _)) as [Hs Hp].
  split.
  - by apply (StronglySorted_rev (fun a b => ev_ts a <= ev_ts b)).
  - rewrite <- Permutation_rev, Hp. by rewrite app_nil_r.
Qed.

Lemma StronglySorted_take {A} (R : A -> A -> Prop) n l :
  StronglySorted R l -> StronglySorted R (take n l).
Proof.
  intros H. revert n. induction H as [|x l Hl IH Hx]; intros [|n]; simpl;
    try constructor; [apply IH|].
  apply Forall_forall. intros y Hy. rewrite Forall_forall in Hx. apply Hx.
  apply elem_of_take in Hy as (i & Hi & _). by eapply list_elem_of_lookup_2.
Qed.

(** X10. [LCL_GET_RECENT] answers with events of the log, newest first,
    at most [limit] of them and at most 200 when no limit (or 0) is given;
    it leaves the log and the storage as they are. *)
Theorem recent_events_newest_first `{rt : JSRuntime} (now : Z) (msg : Msg) (w : World) :
  m_type msg = "LCL_GET_RECENT"%string ->
  exists l,
    last_response (handle now msg w) = Some (resp_data (DEvents l))
    /\ l = take (Z.to_nat (or_opt_num (m_limit msg) 200)) (by_ts_prev (w_events w))
    /\ StronglySorted newer_first l
    /\ length l = Nat.min (Z.to_nat (or_opt_num (m_limit msg) 200)) (length (w_events w))
    /\ (forall e, e ∈ l -> e ∈ w_events w)
    /\ w_events (handle now msg w) = w_events w
    /\ w_store (handle now msg w) = w_store w.
Proof.
  intros Hty. destruct (by_ts_prev_sorted (w_events w)) as [Hs Hp].
  exists (take (Z.to_nat (or_opt_num (m_limit msg) 200)) (by_ts_prev (w_events w))).
  unfold handle, onMessage, dispatch, try_catch. rewrite Hty. simpl.
  split; [unfold last_response; simpl; by rewrite last_snoc|].
  split; [reflexivity|]. split; [by apply StronglySorted_take|].
  split; [by rewrite length_take, Hp|]. split; [|done].
  intros e He. apply elem_of_take in He as (i & Hi & _).
  rewrite <- Hp. by eapply list_elem_of_lookup_2.
Qed.

Lemma recent_events_newest_first_witness :
  exists l,
    last_response (handle 9 (bare_msg "LCL_GET_RECENT")
                     {| w_store := empty_store;
                        w_events := [feed_event "a" 3; feed_event "b" 8; feed_event "c" 5];
                        w_clock := 0; w_faults := []; w_sent := [] |})
      = Some (resp_data (DEvents l))
    /\ l = [feed_event "b" 8; feed_event "c" 5; feed_event "a" 3].
Proof.
  destruct (recent_events_newest_first 9 (bare_msg "LCL_GET_RECENT")
              {| w_store := empty_store;
                 w_events := [feed_event "a" 3; feed_event "b" 8; feed_event "c" 5];
                 w_clock := 0; w_faults := []; w_sent := [] |} eq_refl)
    as (l & Hr & Hl & _).
  exists l. split; [exact Hr|]. rewrite Hl. reflexivity.
Defined.

(** X11. Profile round trip: after [SET_PROFILE] at time [now],
    [GET_PROFILE] returns the histogram that was sent, stamped with [now]
    whatever [updated_at] the sender gave, and [GET_STATUS] returns [now]
    (null when the clock read 0); the titles and the archive are not
    touched. *)
Theorem profile_round_trip `{rt : JSRuntime} (now later : Z) (p : Profile) (w : World) :
  let w1 := handle now (set_profile_msg p) w in
  last_response w1 = Some resp_ok
  /\ last_response (handle later (bare_msg "GET_PROFILE") w1)
     = Some (resp_data (DProfile (Some {| t0 := t0 p; t1 := t1 p;
                                         updated_at := Some now |})))
  /\ last_response (handle later (bare_msg "GET_STATUS") w1)
     = Some (resp_data (DStatus (if now =? 0 then None else Some now)))
  /\ titles_batch (w_store w1) = titles_batch (w_store w)
  /\ pieces_archive (w_store w1) = pieces_archive (w_store w).
Proof.
  unfold handle, last_response. simpl.
  rewrite !last_snoc. repeat split.
Qed.

(** X12. Before the cap is reached nothing is dropped: after a non-empty
    sequence of appends the archive holds the appended pieces, newest
    first, followed by what it held before, cut at 365; its length is the
    smaller of 365 and the number of pieces, and when that number is at
    most 365 every piece is still there. *)
Theorem archive_keeps_all_below_cap `{rt : JSRuntime}
    (calls : list (Z * Piece)) (st : Store) :
  calls <> [] ->
  archive_of (run_appends calls st)
    = take ARCHIVE_MAX (reverse (map appended_piece calls) ++ archive_of st)
  /\ length (archive_of (run_appends calls st))
     = Nat.min 365 (length calls + length (archive_of st))
  /\ ((length calls + length (archive_of st) <= 365)%nat ->
      archive_of (run_appends calls st)
      = reverse (map appended_piece calls) ++ archive_of st).
Proof.
  intros Hne.
  assert (H : archive_of (run_appends calls st)
              = take ARCHIVE_MAX (reverse (map appended_piece calls) ++ archive_of st)).
  { rewrite <- archive_of_run_appends_capped by done. apply archive_of_run_appends. }
  split; [exact H|]. rewrite H. split.
  - rewrite length_take, length_app, length_reverse, length_map. reflexivity.
  - intros Hle. apply take_ge.
    rewrite length_app, length_reverse, length_map. unfold ARCHIVE_MAX. lia.
Qed.

Lemma archive_keeps_all_below_cap_witness :
  length (archive_of (run_appends (repeat (0, empty_piece) 3) empty_store))
  = Nat.min 365 (3 + 0).
Proof.
  apply (archive_keeps_all_below_cap (repeat (0, empty_piece) 3) empty_store).
  discriminate.
Defined.

(** X13. Reading a piece back never changes its date, title, source or
    url, and reading twice is reading once. When at most one of the two
    image keys is set, both keys read as the value of the one that is; when
    both are set the piece is returned as stored. *)
Theorem readPiece_unifies_image_keys (p : Piece) :
  p_date (readPiece p) = p_date p
  /\ p_title (readPiece p) = p_title p
  /\ p_source (readPiece p) = p_source p
  /\ p_url (readPiece p) = p_url p
  /\ readPiece (readPiece p) = readPiece p
  /\ image_of (readPiece p) = image_of p
  /\ (or_opt_str (p_image_url p) [] = [] \/ or_opt_str (p_imageUrl p) [] = [] ->
      or_opt_str (p_image_url (readPiece p)) [] = image_of p
      /\ or_opt_str (p_imageUrl (readPiece p)) [] = image_of p)
  /\ (or_opt_str (p_image_url p) [] <> [] -> or_opt_str (p_imageUrl p) [] <> [] ->
      readPiece p = p).
Proof.
  destruct p as [d t s u [[|a i1]|] [[|b i2]|]];
    unfold readPiece, image_of; simpl; intuition (try done; try congruence).
Qed.

(* ===================================================================== *)
(** * The matcher only finds what the pattern can match *)
(* ===================================================================== *)

Lemma rmatch_sound {R} (r : regex) : forall (s : jsstring) (c : captures)
    (k : jsstring -> captures -> option R) (x : R),
  rmatch r s c k = Some x ->
  exists u s' c', s = u ++ s' /\ matches r u s' c c' /\ k s' c' = Some x.
Proof.
  induction r as [p| |a IHa b IHb|a IHa b IHb|a IHa|n a IHa|]; intros s c k x H.
  - simpl in H. destruct s as [|y s]; [done|].
    destruct (p y) eqn:E; [|done].
    exists [y], s, c. split; [done|]. split; [by constructor|done].
  - exists [], s, c. split; [done|]. split; [constructor|done].
  - simpl in H. apply IHa in H as (u & s1 & c1 & -> & Ha & H).
    apply IHb in H as (v & s2 & c2 & -> & Hb & H).
    exists (u ++ v), s2, c2. split; [by rewrite app_assoc|].
    split; [by econstructor|done].
  - simpl in H. destruct (rmatch a s c k) as [y|] eqn:E.
    + injection H as ->. apply IHa in E as (u & s' & c' & -> & Ha & E).
      exists u, s', c'. split; [done|]. split; [by apply matches_alt_l|done].
    + apply IHb in H as (u & s' & c' & -> & Hb & H).
      exists u, s', c'. split; [done|]. split; [by apply matches_alt_r|done].
  - simpl in H. revert H. generalize (length s) at 1. intros fuel.
    revert s c. induction fuel as [|fuel IHf]; intros s c H.
    + exists [], s, c. split; [done|]. split; [constructor|done].
    + match type of H with
      | match ?m with _ => _ end = _ => destruct m as [y|] eqn:E
      end.
      * injection H as ->.
        apply IHa in E as (u & s1 & c1 & -> & Ha & E).
        destruct (length s1 <? length (u ++ s1))%nat; [|done].
        apply IHf in E as (v & s2 & c2 & -> & Hs & E).
        exists (u ++ v), s2, c2. split; [by rewrite app_assoc|].
        split; [by econstructor|done].
      * exists [], s, c. split; [done|]. split; [constructor|done].
  - simpl in H. apply IHa in H as (u & s' & c' & -> & Ha & H).
    exists u, s', ((n, u) :: c'). split; [done|]. split; [by constructor|].
    rewrite length_app in H.
    replace (length u + length s' - length s')%nat with (length u) in H by lia.
    by rewrite take_app_length in H.
  - simpl in H. destruct s; [|done].
    exists [], [], c. split; [done|]. split; [constructor|done].
Qed.

Lemma exec_from_sound r : forall s idx m,
  exec_from r idx s = Some m ->
  exists pre u c,
    s = pre ++ u ++ m_rest m
    /\ m_index m = (idx + length pre)%nat
    /\ m_groups m = c
    /\ matches r u (m_rest m) [] c.
Proof.
  induction s as [|y s IH]; intros idx m H; simpl in H.
  - destruct (match_here r idx []) as [m'|] eqn:E; [|done]. injection H as ->.
    unfold match_here in E.
    apply rmatch_sound in E as (u & s' & c' & Hs & Hm & [= <-]).
    exists [], u, c'. simpl. split; [done|]. split; [lia|]. done.
  - destruct (match_here r idx (y :: s)) as [m'|] eqn:E.
    + injection H as ->. unfold match_here in E.
      apply rmatch_sound in E as (u & s' & c' & Hs & Hm & [= <-]).
      exists [], u, c'. simpl. split; [done|]. split; [lia|]. done.
    + apply IH in H as (pre & u & c & -> & Hi & Hg & Hm).
      exists (y :: pre), u, c. simpl. split; [done|]. split; [lia|]. done.
Qed.

Lemma matches_groupless r u rest c c' :
  matches r u rest c c' -> groupless r = true -> c' = c.
Proof.
  induction 1; simpl; intros Hg; try done.
  - apply andb_prop in Hg as [? ?]. by rewrite IHmatches2, IHmatches1.
  - apply andb_prop in Hg as [? ?]. auto.
  - apply andb_prop in Hg as [? ?]. auto.
  - by rewrite IHmatches2, IHmatches1.
Qed.

Lemma matches_class_inv p u rest c c' :
  matches (RClass p) u rest c c' -> exists x, u = [x] /\ p x = true /\ c' = c.
Proof. inversion 1; subst. eauto. Qed.

Lemma matches_star_class p u rest c c' :
  matches (RStar (RClass p)) u rest c c' -> Forall (fun x => p x = true) u /\ c' = c.
Proof.
  remember (RStar (RClass p)) as r eqn:Er.
  induction 1; try discriminate.
  - split; [constructor|done].
  - injection Er as ->.
    apply matches_class_inv in H as (x & -> & Hx & ->).
    destruct (IHmatches2 eq_refl) as [Hv ->]. split; [by constructor|done].
Qed.

Lemma matches_at_least_class n p : forall u rest c c',
  matches (rat_least n (RClass p)) u rest c c' ->
  (n <= length u)%nat /\ Forall (fun x => p x = true) u /\ c' = c.
Proof.
  induction n as [|n IH]; intros u rest c c' H; simpl in H.
  - apply matches_star_class in H as [? ?]. split; [lia|done].
  - inversion H as [| |a b u1 v r c0 c1 c2 H1 H2| | | | | |]; subst.
    apply matches_class_inv in H1 as (x & -> & Hx & ->).
    apply IH in H2 as (Hl & Hv & ->). simpl.
    split; [lia|]. split; [by constructor|done].
Qed.

Lemma matches_seq_inv a b u rest c c2 :
  matches (RSeq a b) u rest c c2 ->
  exists u1 u2 c1,
    u = u1 ++ u2 /\ matches a u1 (u2 ++ rest) c c1 /\ matches b u2 rest c1 c2.
Proof. inversion 1; subst. eauto 10. Qed.

Lemma matches_group_inv n a u rest c c' :
  matches (RGroup n a) u rest c c' ->
  exists c1, c' = (n, u) :: c1 /\ matches a u rest c c1.
Proof. inversion 1; subst. eauto. Qed.

Lemma matches_alt_inv a b u rest c c' :
  matches (RAlt a b) u rest c c' -> matches a u rest c c' \/ matches b u rest c c'.
Proof. inversion 1; subst; auto. Qed.

Lemma matches_rchar_inv x u rest c c' :
  matches (rchar x) u rest c c' -> u = [x] /\ c' = c.
Proof.
  intros H. apply matches_class_inv in H as (y & -> & Hy & ->).
  apply N.eqb_eq in Hy. by subst.
Qed.

(** X14. The ids the content script extracts: the video id of a watch
    link is at least six characters of [A-Za-z0-9_-] standing right after
    [?v=] or [&v=] in the address (made absolute when the link is not);
    the id of a shorts link is at least six such characters standing right
    after [/shorts/]. An empty link has no id. *)
Theorem extracted_ids_well_formed (href v : jsstring) :
  extractVideoIdFromHref [] = None
  /\ extractShortId [] = None
  /\ (extractVideoIdFromHref href = Some v ->
      (6 <= length v)%nat
      /\ Forall (fun x => is_id_char x = true) v
      /\ exists pre q post,
           watch_url href = pre ++ [q] ++ str "v=" ++ v ++ post
           /\ (q = 63%N \/ q = 38%N))
  /\ (extractShortId href = Some v ->
      (6 <= length v)%nat
      /\ Forall (fun x => is_id_char x = true) v
      /\ exists pre post, href = pre ++ str "/shorts/" ++ v ++ post).
Proof.
  split; [reflexivity|]. split; [reflexivity|]. split.
  - unfold extractVideoIdFromHref. destruct href as [|h0 href]; [done|].
    fold (watch_url (h0 :: href)).
    destruct (exec re_video_id (watch_url (h0 :: href))) as [m|] eqn:E; [|done].
    intros Hc. apply exec_from_sound in E as (pre & u & c & Hu & _ & Hg & Hm).
    rewrite Hg in Hc.
    change re_video_id
      with (RSeq (RClass (fun x => (x =? 63) || (x =? 38))%N)
              (RSeq (RSeq (rchar 118) (rchar 61))
                 (RGroup 1 (rat_least 6 (RClass is_id_char))))) in Hm.
    apply matches_seq_inv in Hm as (u1 & u2 & c1 & -> & H1 & H2).
    apply matches_class_inv in H1 as (q & -> & Hq & ->).
    apply matches_seq_inv in H2 as (u3 & u4 & c2 & -> & H3 & H4).
    apply matches_seq_inv in H3 as (u5 & u6 & c3 & -> & H5 & H6).
    apply matches_rchar_inv in H5 as [-> ->].
    apply matches_rchar_inv in H6 as [-> ->].
    apply matches_group_inv in H4 as (c4 & -> & H4).
    apply matches_at_least_class in H4 as (Hl & Hv & ->).
    simpl in Hc. injection Hc as <-.
    split; [exact Hl|]. split; [exact Hv|].
    exists pre, q, (m_rest m). split.
    + rewrite Hu. simpl. rewrite <- ?app_assoc. reflexivity.
    + apply orb_prop in Hq as [Hq|Hq]; apply N.eqb_eq in Hq; auto.
  - unfold extractShortId. destruct href as [|h0 href]; [done|].
    destruct (exec re_short_id (h0 :: href)) as [m|] eqn:E; [|done].
    intros Hc. apply exec_from_sound in E as (pre & u & c & Hu & _ & Hg & Hm).
    rewrite Hg in Hc.
    change re_short_id
      with (RSeq (RSeq (rchar 47) (RSeq (rchar 115) (RSeq (rchar 104) (RSeq (rchar 111)
              (RSeq (rchar 114) (RSeq (rchar 116) (RSeq (rchar 115) (rchar 47))))))))
              (RGroup 1 (rat_least 6 (RClass is_id_char)))) in Hm.
    apply matches_seq_inv in Hm as (u1 & u2 & c1 & -> & H1 & H2).
    repeat (apply matches_seq_inv in H1 as (? & ? & ? & -> & Hx & H1);
            apply matches_rchar_inv in Hx as [-> ->]).
    apply matches_rchar_inv in H1 as [-> ->].
    apply matches_group_inv in H2 as (c4 & -> & H2).
    apply matches_at_least_class in H2 as (Hl & Hv & ->).
    simpl in Hc. injection Hc as <-.
    split; [exact Hl|]. split; [exact Hv|].
    exists pre, (m_rest m). rewrite Hu. simpl. rewrite <- ?app_assoc. reflexivity.
Qed.

Lemma matches_re_amount unit u rest c c' :
  matches (re_amount unit) u rest c c' ->
  exists d u', u = d :: u' /\ is_digit d = true.
Proof.
  intros H.
  change (re_amount unit)
    with (RSeq (RSeq rdigit (RStar rdigit))
            (RSeq (rplus rspace) (RSeq (rlit_ci unit) (ropt (rchar_ci 115))))) in H.
  apply matches_seq_inv in H as (u1 & u2 & c1 & -> & H1 & _).
  apply matches_seq_inv in H1 as (u3 & u4 & c2 & -> & H3 & _).
  apply matches_class_inv in H3 as (d & -> & Hd & _).
  exists d, (u4 ++ u2). split; [by rewrite <- app_assoc|exact Hd].
Qed.

Lemma matches_durationSuffixRe u rest c c' :
  matches durationSuffixRe u rest c c' -> Exists (fun x => is_digit x = true) u.
Proof.
  intros H.
  change durationSuffixRe
    with (RSeq (ropt (rseq [RStar rspace; ropt (rchar 45); RStar rspace]))
            (RSeq (RGroup 1
                     (RAlt (RSeq (re_amount "hour")
                              (RSeq (re_more "minute") (re_more "second")))
                        (RAlt (RSeq (re_amount "minute") (re_more "second"))
                           (re_amount "second"))))
               REnd)) in H.
  apply matches_seq_inv in H as (u1 & u2 & c1 & -> & _ & H).
  apply matches_seq_inv in H as (u3 & u4 & c2 & -> & H & _).
  apply matches_group_inv in H as (c3 & _ & H).
  assert (Hd : exists d u', u3 = d :: u' /\ is_digit d = true).
  { apply matches_alt_inv in H as [H|H].
    - apply matches_seq_inv in H as (v1 & v2 & c4 & -> & H & _).
      apply matches_re_amount in H as (d & u' & -> & Hd). by exists d, (u' ++ v2).
    - apply matches_alt_inv in H as [H|H].
      + apply matches_seq_inv in H as (v1 & v2 & c4 & -> & H & _).
        apply matches_re_amount in H as (d & u' & -> & Hd). by exists d, (u' ++ v2).
      + by apply matches_re_amount in H. }
  destruct Hd as (d & u' & -> & Hd).
  apply Exists_app. right. apply Exists_app. left. by apply Exists_cons_hd.
Qed.

(** X15. The duration cleaning only ever cuts a suffix: either the title
    and the length come back as they were, or the title is the trimmed
    part in front of a suffix that contains a digit, and a length that was
    extracted is kept. A title without any digit is never altered. *)
Theorem clean_duration_cuts_suffix (rawTitle length : jsstring) :
  (clean_duration rawTitle length = (rawTitle, length)
   \/ exists pre suffix,
        rawTitle = pre ++ suffix
        /\ fst (clean_duration rawTitle length) = trim pre
        /\ Exists (fun x => is_digit x = true) suffix
        /\ (length <> [] -> snd (clean_duration rawTitle length) = length))
  /\ (Forall (fun x => is_digit x = false) rawTitle ->
      clean_duration rawTitle length = (rawTitle, length)).
Proof.
  assert (H : clean_duration rawTitle length = (rawTitle, length)
              \/ exists pre suffix,
                   rawTitle = pre ++ suffix
                   /\ fst (clean_duration rawTitle length) = trim pre
                   /\ Exists (fun x => is_digit x = true) suffix
                   /\ (length <> [] -> snd (clean_duration rawTitle length) = length)).
  { unfold clean_duration.
    destruct (exec durationSuffixRe rawTitle) as [m|] eqn:E; [|by left].
    right. apply exec_from_sound in E as (pre & u & c & Hu & Hi & _ & Hm).
    exists pre, (u ++ m_rest m). split; [exact Hu|]. simpl. split.
    - rewrite Hi. simpl. rewrite Hu. by rewrite take_app_length.
    - split.
      + apply Exists_app. left. by eapply matches_durationSuffixRe.
      + intros Hl. by destruct length. }
  split; [exact H|]. intros Hnd.
  destruct H as [H|(pre & suffix & Hr & _ & Hd & _)]; [exact H|].
  exfalso. rewrite Hr in Hnd. apply Forall_app in Hnd as [_ Hnd].
  apply Exists_exists in Hd as (x & Hx & Hd).
  rewrite Forall_forall in Hnd. specialize (Hnd x Hx). congruence.
Qed.

(* ===================================================================== *)
(** * The content script over time *)
(* ===================================================================== *)

(** What one call of [processNode] does, by the key of the node. *)
Lemma processNode_cases now variant ex o :
  match node_key ex (currentPath o) with
  | None => processNode now variant ex o = (o, None)
  | Some key =>
      if bool_decide (key ∈ seen o) then processNode now variant ex o = (o, None)
      else exists p,
          processNode now variant ex o
          = ({| seen := key :: seen o; positionCounter := positionCounter o + 1;
                currentPath := currentPath o |}, Some p)
          /\ payload_key p = key
          /\ pl_position p = Some (positionCounter o + 1)
          /\ pl_page p = Some (currentPath o)
          /\ pl_type p = Some (str "feed_video")
  end.
Proof.
  unfold node_key, processNode. destruct ex as [ex|]; [|reflexivity].
  destruct (extractVideoIdFromHref (default [] (x_href ex))) as [vid|]; [|reflexivity].
  cbv zeta.
  destruct (decide (vid ++ str "|" ++ currentPath o ∈ seen o)) as [Hin|Hin].
  { rewrite !bool_decide_eq_true_2 by exact Hin. reflexivity. }
  rewrite !bool_decide_eq_false_2 by exact Hin.
  destruct (clean_duration (x_rawTitle ex) (x_length ex)) as [t len].
  eexists. split; [reflexivity|]. by repeat split.
Qed.

Lemma NoDup_fmap_through {A B C} (f : A -> B) (g : A -> C) (k : B -> C) (l : list A) :
  Forall (fun x => g x = k (f x)) l -> NoDup (g <$> l) -> NoDup (f <$> l).
Proof.
  induction 1 as [|x l Hx Hl IH]; [intros _; constructor|].
  rewrite !fmap_cons, !NoDup_cons. intros [Hn Hd]. split; [|by apply IH].
  intros Hin. apply Hn. apply list_elem_of_fmap in Hin as (y & Hy & Hin).
  apply list_elem_of_fmap. exists y. split; [|done].
  rewrite Forall_forall in Hl. by rewrite Hx, Hy, <- (Hl y Hin).
Qed.

(** The state and the payloads after a run of [processNode] calls. *)
Lemma process_all_spec visits : forall o,
  let o' := fst (process_all visits o) in
  let ps := snd (process_all visits o) in
  currentPath o' = currentPath o
  /\ seen o' = reverse (payload_key <$> ps) ++ seen o
  /\ positionCounter o' = positionCounter o + Z.of_nat (length ps)
  /\ NoDup (payload_key <$> ps)
  /\ Forall (fun p => (payload_key p ∉ seen o)
                      /\ pl_page p = Some (currentPath o)
                      /\ pl_type p = Some (str "feed_video")) ps
  /\ pl_position <$> ps
     = (fun i => Some (positionCounter o + 1 + Z.of_nat i)) <$> seq 0 (length ps).
Proof.
  induction visits as [|[[now variant] ex] visits IH]; intros o.
  - simpl. repeat split; try done; [lia|constructor].
  - cbn [process_all].
    pose proof (processNode_cases now variant ex o) as Hc.
    destruct (node_key ex (currentPath o)) as [key|].
    2: { rewrite Hc. specialize (IH o).
         destruct (process_all visits o) as [o2 more]. exact IH. }
    destruct (bool_decide (key ∈ seen o)) eqn:Hk.
    { rewrite Hc. specialize (IH o).
      destruct (process_all visits o) as [o2 more]. exact IH. }
    apply bool_decide_eq_false in Hk.
    destruct Hc as (p & -> & Hkey & Hpos & Hpage & Hty).
    set (o1 := {| seen := key :: seen o; positionCounter := positionCounter o + 1;
                  currentPath := currentPath o |}).
    specialize (IH o1). destruct (process_all visits o1) as [o2 more].
    cbn [fst snd] in *. destruct IH as (I1 & I2 & I3 & I4 & I5 & I6).
    cbn [seen positionCounter currentPath o1] in *.
    split; [exact I1|]. split.
    { rewrite I2, fmap_cons, reverse_cons, Hkey, <- app_assoc. reflexivity. }
    split; [rewrite I3; simpl; lia|]. split.
    { rewrite fmap_cons, NoDup_cons. split; [|exact I4].
      rewrite Hkey. intros Hin. apply list_elem_of_fmap in Hin as (q & Hq & Hin).
      rewrite Forall_forall in I5. destruct (I5 q Hin) as [Hn _].
      apply Hn. rewrite <- Hq. left. }
    split.
    { constructor; [by rewrite Hkey|].
      eapply Forall_impl; [exact I5|]. simpl. intros q (Hq & ? & ?).
      split; [|done]. intros Hin. apply Hq. by right. }
    rewrite fmap_cons, Hpos, I6. cbn [length seq fmap list_fmap].
    f_equal; [f_equal; lia|].
    rewrite <- seq_shift, <- list_fmap_compose.
    apply list_fmap_ext. intros i x _. simpl. f_equal. lia.
Qed.

(** A node whose key is on file, or that has none, is passed over. *)
Lemma process_all_passed_over visits : forall o,
  Forall (fun v => match node_key (snd v) (currentPath o) with
                   | None => True
                   | Some key => key ∈ seen o
                   end) visits ->
  process_all visits o = (o, []).
Proof.
  induction visits as [|[[now variant] ex] visits IH]; intros o Hall; [reflexivity|].
  apply Forall_cons in Hall as [Hv Hall]. cbn [process_all snd] in *.
  pose proof (processNode_cases now variant ex o) as Hc.
  destruct (node_key ex (currentPath o)) as [key|].
  - rewrite bool_decide_eq_true_2 in Hc by done. rewrite Hc, (IH o Hall). reflexivity.
  - rewrite Hc, (IH o Hall). reflexivity.
Qed.

Lemma process_all_files_keys visits : forall o,
  Forall (fun v => match node_key (snd v) (currentPath o) with
                   | None => True
                   | Some key => key ∈ seen (fst (process_all visits o))
                   end) visits
  /\ (forall key, key ∈ seen o -> key ∈ seen (fst (process_all visits o))).
Proof.
  induction visits as [|[[now variant] ex] visits IH]; intros o.
  - split; [constructor|done].
  - cbn [process_all].
    pose proof (processNode_cases now variant ex o) as Hc.
    destruct (processNode now variant ex o) as [o1 sent] eqn:E.
    destruct (IH o1) as [IH1 IH2].
    assert (Hp : currentPath o1 = currentPath o /\
                 (forall key, key ∈ seen o -> key ∈ seen o1) /\
                 match node_key ex (currentPath o) with
                 | None => True
                 | Some key => key ∈ seen o1
                 end).
    { destruct (node_key ex (currentPath o)) as [key|].
      - destruct (bool_decide (key ∈ seen o)) eqn:Hk.
        + injection Hc as <- _. apply bool_decide_eq_true in Hk. done.
        + destruct Hc as (p & [= -> _] & _). simpl.
          split; [done|]. split; [intros; by right|left].
      - injection Hc as <- _. done. }
    destruct Hp as (Hpath & Hmono & Hkey).
    destruct (process_all visits o1) as [o2 more]. cbn [fst] in *.
    split; [|by auto].
    constructor.
    + cbn [snd]. destruct (node_key ex (currentPath o)); [by apply IH2|done].
    + rewrite <- Hpath. exact IH1.
Qed.

Lemma payload_key_videoId (page : jsstring) (ps : list Payload) :
  Forall (fun p => pl_page p = Some page) ps ->
  NoDup (payload_key <$> ps) -> NoDup (pl_videoId <$> ps).
Proof.
  intros Hall.
  apply (NoDup_fmap_through pl_videoId payload_key
           (fun v => default [] v ++ str "|" ++ page)).
  eapply Forall_impl; [exact Hall|]. intros p Hp. unfold payload_key. by rewrite Hp.
Qed.

(** X16. Whatever nodes reach [processNode], in whatever order and however
    often: the payloads sent carry distinct video ids, none of them on file
    before, all for the current page; every node with a video id is on
    file or among them; their positions count on from the counter; and
    handing the same nodes over again sends nothing. *)
Theorem feed_sweep_reports_each_video_once (visits : list NodeVisit) (o : Observer) :
  let o' := fst (process_all visits o) in
  let ps := snd (process_all visits o) in
  NoDup (pl_videoId <$> ps)
  /\ Forall (fun p => (payload_key p ∉ seen o)
                      /\ pl_page p = Some (currentPath o)
                      /\ pl_type p = Some (str "feed_video")) ps
  /\ (forall v key, v ∈ visits -> node_key (snd v) (currentPath o) = Some key ->
        key ∈ seen o \/ key ∈ payload_key <$> ps)
  /\ pl_position <$> ps
     = (fun i => Some (positionCounter o + 1 + Z.of_nat i)) <$> seq 0 (length ps)
  /\ process_all visits o' = (o', []).
Proof.
  intros o' ps.
  destruct (process_all_spec visits o) as (H1 & H2 & H3 & H4 & H5 & H6).
  destruct (process_all_files_keys visits o) as [Hk _].
  fold o' in H1, H2, H3, Hk. fold ps in H2, H3, H4, H5, H6.
  split.
  { apply (payload_key_videoId (currentPath o)); [|exact H4].
    eapply Forall_impl; [exact H5|]. by intros p (_ & ? & _). }
  split; [exact H5|]. split.
  { intros v key Hv Hkey. rewrite Forall_forall in Hk. specialize (Hk v Hv).
    rewrite Hkey, H2 in Hk. apply elem_of_app in Hk as [Hk|Hk]; [right|by left].
    by rewrite elem_of_reverse in Hk. }
  split; [exact H6|].
  apply process_all_passed_over. rewrite H1. exact Hk.
Qed.

(** ** Shorts *)

Lemma send_short_cases now variant href title h :
  send_short now variant href title h = (h, None)
  \/ exists vid p,
       extractShortId href = Some vid /\ title <> []
       /\ (vid ++ str "|" ++ currentPath (hv_feed h) ∉ seen (hv_feed h))
       /\ (vid ++ str "|" ++ currentPath (hv_feed h) ∉ shortsSeen h)
       /\ send_short now variant href title h
          = ({| hv_feed := {| seen := (vid ++ str "|" ++ currentPath (hv_feed h))
                                        :: seen (hv_feed h);
                              positionCounter := positionCounter (hv_feed h) + 1;
                              currentPath := currentPath (hv_feed h) |};
                shortsSeen := (vid ++ str "|" ++ currentPath (hv_feed h))
                                :: shortsSeen h |}, Some p)
       /\ payload_key p = vid ++ str "|" ++ currentPath (hv_feed h)
       /\ pl_type p = Some (str "shorts_video")
       /\ pl_title p = Some title
       /\ pl_videoId p = Some vid
       /\ pl_page p = Some (currentPath (hv_feed h))
       /\ pl_position p = Some (positionCounter (hv_feed h) + 1)
       /\ pl_platform p = Some (str "youtube").
Proof.
  unfold send_short. destruct (extractShortId href) as [vid|]; [|by left].
  cbv zeta.
  destruct (decide (vid ++ str "|" ++ currentPath (hv_feed h) ∈ seen (hv_feed h)))
    as [Hin|Hin].
  { rewrite !bool_decide_eq_true_2 by exact Hin. by left. }
  rewrite !(bool_decide_eq_false_2 _ Hin).
  destruct (decide (vid ++ str "|" ++ currentPath (hv_feed h) ∈ shortsSeen h))
    as [Hin2|Hin2].
  { rewrite !bool_decide_eq_true_2 by exact Hin2. by left. }
  rewrite !(bool_decide_eq_false_2 _ Hin2). cbn [orb].
  destruct title as [|c t]; [by left|].
  right. eexists vid, _. do 4 (split; [done|]). split; [reflexivity|].
  by repeat split.
Qed.

Lemma for_each_Forall {A} (P : Payload -> Prop)
    (step : A -> Harvester -> Harvester * option Payload) (l : list A) :
  (forall x h h' p, step x h = (h', Some p) -> P p) ->
  forall h, Forall P (snd (for_each step l h)).
Proof.
  intros Hstep. induction l as [|x l IH]; intros h; [constructor|].
  cbn [for_each]. destruct (step x h) as [h1 sent] eqn:E.
  specialize (IH h1). destruct (for_each step l h1) as [h2 more]. cbn [snd] in *.
  destruct sent as [p|]; [|exact IH]. constructor; [|exact IH]. by eapply Hstep.
Qed.

Lemma send_short_accepted now variant href title h h' p now' :
  trim title = title ->
  send_short now variant href title h = (h', Some p) ->
  exists e, sanitizeEvent now' (Some p) = Some e
            /\ pl_title p = Some (ev_title e)
            /\ ev_type e = str "shorts_video"
            /\ ev_videoId e = pl_videoId p
            /\ ev_page e = Some (currentPath (hv_feed h)).
Proof.
  intros Htrim Hs.
  destruct (send_short_cases now variant href title h)
    as [Hc|(vid & q & _ & Hne & _ & _ & Hc & _ & Hty & Ht & _ & Hpg & _)];
    rewrite Hc in Hs; [done|].
  injection Hs as _ <-. unfold sanitizeEvent. rewrite Hty, Ht.
  cbn [allowed_type negb orb or_opt_str default].
  replace (bool_decide (str "shorts_video" = str "feed_video")) with false
    by (symmetry; by apply bool_decide_eq_false_2).
  rewrite bool_decide_eq_true_2 by done. cbn [orb negb].
  destruct title as [|c t]; [done|]. cbn [or_str]. rewrite Htrim.
  eexists. split; [reflexivity|]. by cbn.
Qed.

(** X17. Every payload [scanShorts] sends is accepted by [sanitizeEvent]:
    its type is allowed and its title is not blank and already trimmed, so
    the event stored carries the title exactly as sent, with the id and
    the page of the payload. *)
Theorem shorts_payloads_are_accepted (nodesA nodesB : list (Z * ShortAnchor))
    (headings : list (Z * ShortHeading)) (h : Harvester) (now : Z) :
  Forall (fun p => exists e, sanitizeEvent now (Some p) = Some e
                             /\ pl_title p = Some (ev_title e)
                             /\ ev_type e = str "shorts_video"
                             /\ ev_videoId e = pl_videoId p
                             /\ ev_page e = pl_page p)
         (snd (scanShorts nodesA nodesB headings h)).
Proof.
  unfold scanShorts.
  set (P := fun p : Payload =>
         exists e, sanitizeEvent now (Some p) = Some e
                   /\ pl_title p = Some (ev_title e)
                   /\ ev_type e = str "shorts_video"
                   /\ ev_videoId e = pl_videoId p
                   /\ ev_page e = pl_page p).
  assert (Hone : forall n v href title g g' p,
             trim title = title ->
             send_short n v href title g = (g', Some p) -> P p).
  { intros n v href title g g' p Ht Hs.
    destruct (send_short_accepted n v href title g g' p now Ht Hs)
      as (e & He & H1 & H2 & H3 & H4).
    exists e. do 4 (split; [done|]). rewrite H4.
    destruct (send_short_cases n v href title g)
      as [Hc|(vid & q & _ & _ & _ & _ & Hc & _ & _ & _ & _ & Hpg & _)];
      rewrite Hc in Hs; [done|].
    injection Hs as _ <-. by rewrite Hpg. }
  pose proof (for_each_Forall P scan_anchor (nodesA ++ nodesB)) as HA.
  pose proof (for_each_Forall P scan_heading headings) as HH.
  destruct (for_each scan_anchor (nodesA ++ nodesB) h) as [h1 ps1] eqn:E1.
  destruct (for_each scan_heading headings h1) as [h2 ps2] eqn:E2.
  cbn [snd]. apply Forall_app. split.
  - specialize (HA ltac:(
      intros [n a] g g' p Hs; eapply Hone; [|exact Hs]; apply trim_idempotent) h).
    by rewrite E1 in HA.
  - specialize (HH ltac:(
      intros [n x] g g' p Hs; unfold scan_heading in Hs;
      destruct (sh_href x); [|done];
      eapply Hone; [|exact Hs]; apply trim_idempotent) h1).
    by rewrite E2 in HH.
Qed.

(** ** What [shortsSeen] remembers *)

Lemma logs_nil h h' : shortsSeen h' = shortsSeen h -> logs h [] h'.
Proof. intros E. unfold logs, shorts_keys. simpl. repeat split; [done|constructor|constructor]. Qed.

Lemma logs_app h h1 h2 ps1 ps2 :
  logs h ps1 h1 -> logs h1 ps2 h2 -> logs h (ps1 ++ ps2) h2.
Proof.
  unfold logs, shorts_keys. intros (E1 & N1 & F1) (E2 & N2 & F2).
  rewrite filter_app, fmap_app, reverse_app, <- app_assoc, <- E1.
  split; [exact E2|]. rewrite Forall_forall in F1, F2. split.
  - apply NoDup_app. split; [exact N1|]. split; [|exact N2].
    intros k Hk1 Hk2. apply (F2 k Hk2). rewrite E1.
    apply elem_of_app. left. by rewrite elem_of_reverse.
  - apply Forall_app. split; [by apply Forall_forall|].
    apply Forall_forall. intros k Hk Hin. apply (F2 k Hk).
    rewrite E1. apply elem_of_app. by right.
Qed.

Lemma logs_feed h h' p :
  pl_type p = Some (str "feed_video") -> shortsSeen h' = shortsSeen h -> logs h [p] h'.
Proof.
  intros Hty E. unfold logs, shorts_keys.
  rewrite filter_cons_False.
  - simpl. repeat split; [done|constructor|constructor].
  - unfold is_short. rewrite Hty. rewrite bool_decide_eq_false_2; [exact id|].
    intros [=].
Qed.

Lemma logs_short h h' p :
  pl_type p = Some (str "shorts_video") ->
  payload_key p ∉ shortsSeen h ->
  shortsSeen h' = payload_key p :: shortsSeen h -> logs h [p] h'.
Proof.
  intros Hty Hn E. unfold logs, shorts_keys.
  rewrite filter_cons_True.
  - simpl. split; [exact E|]. split; [apply NoDup_singleton|].
    constructor; [exact Hn|constructor].
  - unfold is_short. rewrite Hty. by rewrite bool_decide_eq_true_2.
Qed.

Lemma send_short_logs now variant href title h :
  logs h (sent_list (snd (send_short now variant href title h)))
         (fst (send_short now variant href title h)).
Proof.
  destruct (send_short_cases now variant href title h)
    as [Hc|(vid & p & _ & _ & _ & Hn & Hc & Hk & Hty & _)]; rewrite Hc; cbn [fst snd sent_list].
  - by apply logs_nil.
  - apply logs_short; [done|by rewrite Hk|by rewrite Hk].
Qed.

Lemma for_each_logs {A} (step : A -> Harvester -> Harvester * option Payload)
    (l : list A) :
  (forall x h, logs h (sent_list (snd (step x h))) (fst (step x h))) ->
  forall h, logs h (snd (for_each step l h)) (fst (for_each step l h)).
Proof.
  intros Hstep. induction l as [|x l IH]; intros h; [by apply logs_nil|].
  cbn [for_each]. specialize (Hstep x h). destruct (step x h) as [h1 sent].
  specialize (IH h1). destruct (for_each step l h1) as [h2 more]. cbn [fst snd] in *.
  replace (match sent with Some p => p :: more | None => more end)
    with (sent_list sent ++ more) by (by destruct sent).
  by eapply logs_app.
Qed.

Lemma scanShorts_logs nodesA nodesB headings h :
  logs h (snd (scanShorts nodesA nodesB headings h))
         (fst (scanShorts nodesA nodesB headings h)).
Proof.
  unfold scanShorts.
  pose proof (for_each_logs scan_anchor (nodesA ++ nodesB)) as HA.
  pose proof (for_each_logs scan_heading headings) as HH.
  specialize (HA ltac:(intros [n a] g; apply send_short_logs) h).
  destruct (for_each scan_anchor (nodesA ++ nodesB) h) as [h1 ps1].
  specialize (HH ltac:(intros [n x] g; unfold scan_heading;
                       destruct (sh_href x); [apply send_short_logs|by apply logs_nil]) h1).
  destruct (for_each scan_heading headings h1) as [h2 ps2].
  cbn [fst snd] in *. by eapply logs_app.
Qed.

Lemma run_trigger_logs t h : logs h (snd (run_trigger t h)) (fst (run_trigger t h)).
Proof.
  destruct t as [[[now variant] ex]|nodesA nodesB headings|pathname];
    cbn [run_trigger].
  - pose proof (processNode_cases now variant ex (hv_feed h)) as Hc.
    destruct (node_key ex (currentPath (hv_feed h))) as [key|].
    + destruct (bool_decide (key ∈ seen (hv_feed h))).
      * rewrite Hc. by apply logs_nil.
      * destruct Hc as (p & -> & _ & _ & _ & Hty). cbn [fst snd]. by apply logs_feed.
    + rewrite Hc. by apply logs_nil.
  - apply scanShorts_logs.
  - cbn [fst snd]. apply logs_nil. unfold handleNavigation.
    by destruct (bool_decide _).
Qed.

Lemma run_triggers_logs ts : forall h,
  logs h (snd (run_triggers ts h)) (fst (run_triggers ts h)).
Proof.
  induction ts as [|t ts IH]; intros h; [by apply logs_nil|].
  cbn [run_triggers]. pose proof (run_trigger_logs t h) as Ht.
  destruct (run_trigger t h) as [h1 ps]. specialize (IH h1).
  destruct (run_triggers ts h1) as [h2 more]. cbn [fst snd] in *. by eapply logs_app.
Qed.

(** X18. Over any sequence of node visits, shorts scans and navigations,
    the shorts sent have distinct keys (video id and page), none of which
    was in [shortsSeen] before; [shortsSeen] ends as the old set with
    exactly those keys added. Navigation does not reset it: a short is
    sent at most once per page for the life of the content script. *)
Theorem shorts_sent_once_per_page (ts : list Trigger) (h : Harvester) :
  let ps := snd (run_triggers ts h) in
  let h' := fst (run_triggers ts h) in
  NoDup (payload_key <$> filter is_short ps)
  /\ (forall p, p ∈ ps -> is_short p -> payload_key p ∉ shortsSeen h)
  /\ (forall k, k ∈ shortsSeen h'
                <-> k ∈ shortsSeen h \/ exists p, p ∈ ps /\ is_short p /\ payload_key p = k).
Proof.
  intros ps h'. destruct (run_triggers_logs ts h) as (E & N & F).
  fold ps in E, N, F. fold h' in E. unfold shorts_keys in *.
  split; [exact N|]. split.
  - intros p Hp Hs. rewrite Forall_forall in F. apply F.
    apply list_elem_of_fmap. exists p. split; [done|].
    by apply list_elem_of_filter.
  - intros k. rewrite E, elem_of_app, elem_of_reverse, list_elem_of_fmap. split.
    + intros [(p & -> & Hp)|Hk]; [|by left].
      apply list_elem_of_filter in Hp as [Hs Hp]. right. by exists p.
    + intros [Hk|(p & Hp & Hs & <-)]; [by right|left].
      exists p. split; [done|]. by apply list_elem_of_filter.
Qed.

(** ** Navigation *)

(** X19. A navigation to another path starts the feed over and leaves
    [shortsSeen] alone: in the sweep that follows, every node with a video
    id is reported for the new page, also one reported before the
    navigation, and the positions count from 1. *)
Theorem navigation_restarts_the_feed (path : jsstring) (h : Harvester)
    (visits : list NodeVisit) :
  currentPath (hv_feed h) <> path ->
  let h' := handleNavigation path h in
  let ps := snd (process_all visits (hv_feed h')) in
  shortsSeen h' = shortsSeen h
  /\ (forall v key, v ∈ visits -> node_key (snd v) path = Some key ->
        key ∈ payload_key <$> ps)
  /\ Forall (fun p => pl_page p = Some path) ps
  /\ pl_position <$> ps = (fun i => Some (1 + Z.of_nat i)) <$> seq 0 (length ps).
Proof.
  intros Hne h' ps.
  assert (Eh : hv_feed h' = {| seen := []; positionCounter := 0; currentPath := path |}
               /\ shortsSeen h' = shortsSeen h).
  { unfold h', handleNavigation. by rewrite bool_decide_eq_false_2. }
  destruct Eh as [Eo Es]. unfold ps. rewrite Eo.
  set (o := {| seen := []; positionCounter := 0; currentPath := path |}).
  destruct (process_all_spec visits o) as (H1 & H2 & H3 & H4 & H5 & H6).
  destruct (process_all_files_keys visits o) as [Hk _].
  cbn [seen positionCounter currentPath o] in *.
  split; [exact Es|]. split.
  { intros v key Hv Hkey. rewrite Forall_forall in Hk. specialize (Hk v Hv).
    rewrite Hkey, H2, app_nil_r in Hk. by rewrite elem_of_reverse in Hk. }
  split.
  { eapply Forall_impl; [exact H5|]. by intros p (_ & ? & _). }
  exact H6.
Qed.

Lemma navigation_restarts_the_feed_witness :
  let visits := [(0, str "desktop", Some (node_with_title "/watch?v=aaaaaa1" "A title"))] in
  let h := {| hv_feed := fst (process_all visits fresh_observer); shortsSeen := [] |} in
  currentPath (hv_feed h) <> str "/results"
  /\ pl_position <$> snd (process_all visits (hv_feed (handleNavigation (str "/results") h)))
     = [Some 1].
Proof.
  cbv zeta. split; [done|].
  refine (proj2 (proj2 (proj2 (navigation_restarts_the_feed (str "/results") _ _ _)))).
  done.
Defined.

(** ** The popup *)

Lemma export_loop_spec (batch : list TitleEntry) : forall seen titles,
  exists new,
    export_loop batch seen titles = titles ++ new
    /\ NoDup new
    /\ (forall t, t ∈ new <-> t <> [] /\ (t ∉ seen)
                              /\ exists it, it ∈ batch /\ trim (e_title it) = t)
    /\ new `sublist_of` (fun it => trim (e_title it)) <$> batch.
Proof.
  induction batch as [|x batch IH]; intros seen titles.
  { exists []. rewrite app_nil_r. split; [done|]. split; [constructor|].
    split; [|done]. intros t. split; [by intros ?%elem_of_nil|].
    by intros (_ & _ & it & ?%elem_of_nil & _). }
  cbn [export_loop]. rewrite fmap_cons.
  destruct (trim (e_title x)) as [|c t0] eqn:Et.
  { destruct (IH seen titles) as (new & E & N & M & S). exists new.
    split; [exact E|]. split; [exact N|]. split; [|by apply sublist_cons].
    intros t. rewrite M. split.
    - intros (? & ? & it & ? & ?). do 2 (split; [done|]). exists it. split; [by right|done].
    - intros (Hne & ? & it & Hin & Ht). do 2 (split; [done|]). exists it. split; [|done].
      apply elem_of_cons in Hin as [->|Hin]; [|done]. congruence. }
  destruct (decide ((c :: t0) ∈ seen)) as [Hin|Hin].
  { rewrite bool_decide_eq_true_2 by exact Hin.
    destruct (IH seen titles) as (new & E & N & M & S). exists new.
    split; [exact E|]. split; [exact N|]. split; [|by apply sublist_cons].
    intros t. rewrite M. split.
    - intros (? & ? & it & ? & ?). do 2 (split; [done|]). exists it. split; [by right|done].
    - intros (Hne & Hns & it & Hit & Ht). do 2 (split; [done|]). exists it. split; [|done].
      apply elem_of_cons in Hit as [->|Hit]; [|done]. congruence. }
  rewrite bool_decide_eq_false_2 by exact Hin.
  destruct (IH ((c :: t0) :: seen) (titles ++ [c :: t0])) as (new & E & N & M & S).
  exists ((c :: t0) :: new). split.
  { etransitivity; [exact E|]. by rewrite <- app_assoc. }
  split.
  { apply NoDup_cons. split; [|exact N]. intros Hn. apply M in Hn as (_ & Hn & _).
    apply Hn. left. }
  split; [|by apply sublist_skip].
  intros t. rewrite elem_of_cons, M. split.
  - intros [->|(Hne & Hns & it & Hit & Ht)].
    + split; [done|]. split; [done|]. exists x. split; [left|done].
    + split; [done|]. split; [intros ?; apply Hns; by right|].
      exists it. split; [by right|done].
  - intros (Hne & Hns & it & Hit & Ht).
    destruct (decide (t = c :: t0)) as [->|Hd]; [by left|right].
    split; [done|]. split.
    { intros [?|?]%elem_of_cons; done. }
    exists it. split; [|done].
    apply elem_of_cons in Hit as [->|Hit]; [|done]. congruence.
Qed.

(** X20. The titles the popup exports are the trimmed titles of the batch
    without the blank ones, each exactly once, in the order of the batch. *)
Theorem exportTitles_distinct_trimmed (batch : list TitleEntry) :
  NoDup (exportTitles batch)
  /\ (forall t, t ∈ exportTitles batch
                <-> t <> [] /\ exists it, it ∈ batch /\ trim (e_title it) = t)
  /\ exportTitles batch `sublist_of` (fun it => trim (e_title it)) <$> batch.
Proof.
  unfold exportTitles.
  destruct (export_loop_spec batch [] []) as (new & -> & N & M & S).
  cbn [app]. split; [exact N|]. split; [|exact S].
  intros t. rewrite M. split.
  - by intros (? & _ & ?).
  - intros (? & ?). split; [done|]. split; [apply not_elem_of_nil|done].
Qed.

(* ===================================================================== *)
(** * The event endpoint and the clearing actions *)
(* ===================================================================== *)

Section EventEndpoint.
Context {rt : JSRuntime}.

(** X21. [LCL_ADD_EVENT] with every browser call succeeding: a payload
    [sanitizeEvent] rejects is answered [{ok: true, stored: false}] and
    nothing is written; an accepted one is appended to the event log, the
    Title Store is updated with it, profile, archive and sync time stay,
    and the answer is [{ok: true, stored: true}]. *)
Theorem add_event_contract (now : Z) (p : Payload) (w : World) :
  let w' := handle now (add_event_msg p) w in
  match sanitizeEvent now (Some p) with
  | None =>
      last_response w' = Some (resp_stored false)
      /\ w_events w' = w_events w
      /\ w_store w' = w_store w
  | Some e =>
      last_response w' = Some (resp_stored true)
      /\ w_events w' = w_events w ++ [e]
      /\ list_titles (w_store w') = updatedTitles now e (list_titles (w_store w))
      /\ profile_histogram (w_store w') = profile_histogram (w_store w)
      /\ pieces_archive (w_store w') = pieces_archive (w_store w)
      /\ last_webapp_sync_at (w_store w') = last_webapp_sync_at (w_store w)
  end.
Proof.
  unfold handle, last_response, onMessage, dispatch, try_catch, bind, Date_now.
  cbn [add_event_msg m_type m_payload String.eqb Ascii.eqb Bool.eqb w_clock fst snd].
  destruct (sanitizeEvent now (Some p)) as [e|].
  - cbn -[updatedTitles]. rewrite last_snoc. by repeat split.
  - cbn. rewrite last_snoc. by repeat split.
Qed.

(** X22. What failures do to [LCL_ADD_EVENT] for an accepted payload. When
    the write to the event log throws, the answer is the error and
    nothing is stored. When the log is written and the Title Store update
    throws (reading or writing the storage), the failure is swallowed: the
    event stays in the log, the storage is as before, and the answer is
    still [{ok: true, stored: true}]. *)
Theorem add_event_failures (p : Payload) (e : Event) (err : jsstring)
    (fs : list (option jsstring)) (w : World) :
  sanitizeEvent (w_clock w) (Some p) = Some e ->
  let after := fun faults =>
    snd (onMessage (Some (add_event_msg p))
           {| w_store := w_store w; w_events := w_events w; w_clock := w_clock w;
              w_faults := faults; w_sent := w_sent w |}) in
  (w_sent (after (Some err :: fs)) = w_sent w ++ [resp_error err]
   /\ w_events (after (Some err :: fs)) = w_events w
   /\ w_store (after (Some err :: fs)) = w_store w)
  /\ (forall faults,
        faults = None :: Some err :: fs \/ faults = None :: None :: Some err :: fs ->
        w_sent (after faults) = w_sent w ++ [resp_stored true]
        /\ w_events (after faults) = w_events w ++ [e]
        /\ w_store (after faults) = w_store w).
Proof.
  intros Hs after. unfold after, onMessage, dispatch, try_catch, bind, Date_now.
  cbn [add_event_msg m_type m_payload String.eqb Ascii.eqb Bool.eqb w_clock fst snd].
  rewrite Hs. split.
  - cbn. by repeat split.
  - intros faults [->| ->]; cbn -[updatedTitles]; by repeat split.
Qed.

(** X23. The reading actions never write: whatever the message carries
    and whichever browser call fails, the storage and the event log are
    after the call what they were before, on both listeners. *)
Theorem reads_never_write (msg : Msg) (w : World) :
  m_type msg ∈ read_actions ->
  w_store (snd (onMessage (Some msg) w)) = w_store w
  /\ w_events (snd (onMessage (Some msg) w)) = w_events w
  /\ w_store (snd (onMessageExternal (Some msg) w)) = w_store w
  /\ w_events (snd (onMessageExternal (Some msg) w)) = w_events w.
Proof.
  intros Hin. destruct msg as [ty pl lim ids pids prof pprof piece ppiece].
  cbn [m_type] in Hin. unfold read_actions in Hin.
  destruct w as [st ev clk faults sent].
  repeat (apply elem_of_cons in Hin as [->|Hin]);
    [| | | | |by apply elem_of_nil in Hin];
    destruct faults as [|[x|] [|[y|] faults]]; cbn; by repeat split.
Qed.

(** X24. The clearing actions are independent: [LCL_CLEAR] empties the
    event log and leaves the storage; [CLEAR_TITLES] empties the Title
    Store and leaves the event log, the profile, the archive and the sync
    time; what is read afterwards is the empty list. *)
Theorem clears_are_independent (now later : Z) (w : World) :
  let wc := handle now (bare_msg "LCL_CLEAR") w in
  let wt := handle now (bare_msg "CLEAR_TITLES") w in
  (w_events wc = [] /\ w_store wc = w_store w
   /\ last_response (handle later (bare_msg "LCL_GET_RECENT") wc)
      = Some (resp_data (DEvents [])))
  /\ (list_titles (w_store wt) = [] /\ w_events wt = w_events w
      /\ profile_histogram (w_store wt) = profile_histogram (w_store w)
      /\ pieces_archive (w_store wt) = pieces_archive (w_store w)
      /\ last_webapp_sync_at (w_store wt) = last_webapp_sync_at (w_store w)
      /\ last_response (handle later (bare_msg "GET_TITLES") wt)
         = Some (resp_data (DTitles []))).
Proof.
  unfold handle, last_response. cbn. rewrite !last_snoc. by repeat split.
Qed.
End EventEndpoint.

Lemma add_event_failures_witness :
  let p := feed_payload "A title" 7 in
  sanitizeEvent 9 (Some p) = Some (feed_event "A title" 7)
  /\ w_events (snd (onMessage (Some (add_event_msg p))
                      {| w_store := empty_store; w_events := []; w_clock := 9;
                         w_faults := [None; Some (str "QuotaExceededError")];
                         w_sent := [] |}))
     = [feed_event "A title" 7].
Proof.
  cbv zeta. split; [reflexivity|].
  pose proof (add_event_failures (rt := latin_runtime) (feed_payload "A title" 7)
                (feed_event "A title" 7) (str "QuotaExceededError") []
                (quiet_world empty_store 9) eq_refl) as [_ H].
  exact (proj1 (proj2 (H _ (or_introl eq_refl)))).
Defined.

Lemma reads_never_write_witness :
  w_store (snd (onMessage (rt := latin_runtime) (Some (bare_msg "GET_TITLES"))
                  (failing_world empty_store 3 (str "Error"))))
  = empty_store.
Proof.
  refine (proj1 (reads_never_write (rt := latin_runtime) (bare_msg "GET_TITLES")
                   (failing_world empty_store 3 (str "Error")) _)).
  apply (bool_decide_unpack _). vm_compute. exact I.
Defined.

(** X29. Archive round trip: after [APPEND_PIECE] at time [now],
    [GET_ARCHIVE] answers with the new piece in front of the (at most 364)
    newest pieces held before. The new piece reads as it was stored: the
    date sent or else the day of [now], title, source and url with [''] for
    a missing one, and both image keys set to [image_url || imageUrl || ''].
    The sync time becomes [now]; titles and profile are not touched. *)
Theorem archive_round_trip `{rt : JSRuntime} (now later : Z) (piece : Piece) (w : World) :
  let w1 := handle now (append_piece_msg piece) w in
  last_response w1 = Some resp_ok
  /\ last_response (handle later (bare_msg "GET_ARCHIVE") w1)
     = Some (resp_data (DArchive
         (storedPiece (today now) piece
          :: map readPiece (take 364 (archive_of (w_store w))))))
  /\ p_date (storedPiece (today now) piece) = Some (or_opt_str (p_date piece) (today now))
  /\ p_image_url (storedPiece (today now) piece) = Some (image_of piece)
  /\ p_imageUrl (storedPiece (today now) piece) = Some (image_of piece)
  /\ last_webapp_sync_at (w_store w1) = Some now
  /\ titles_batch (w_store w1) = titles_batch (w_store w)
  /\ profile_histogram (w_store w1) = profile_histogram (w_store w).
Proof.
  unfold handle, last_response, archive_of.
  cbn -[storedPiece readPiece today take ARCHIVE_MAX].
  rewrite !last_snoc.
  unfold appendedArchive. change ARCHIVE_MAX with 365%nat.
  change (take 365 (storedPiece (today now) piece :: default [] (pieces_archive (w_store w))))
    with (storedPiece (today now) piece :: take 364 (default [] (pieces_archive (w_store w)))).
  cbn [map]. rewrite readPiece_storedPiece. by repeat split.
Qed.

(* ===================================================================== *)
(** * The analysis page *)
(* ===================================================================== *)

Lemma obj_get_set o k v k' :
  obj_get (obj_set o k v) k' = if bool_decide (k = k') then Some v else obj_get o k'.
Proof.
  induction o as [|[k0 v0] o IH]; cbn [obj_set obj_get].
  - reflexivity.
  - destruct (decide (k0 = k)) as [->|Hne].
    + rewrite bool_decide_eq_true_2 by done. cbn [obj_get].
      destruct (decide (k = k')) as [->|Hne'].
      * by rewrite !bool_decide_eq_true_2.
      * by rewrite !bool_decide_eq_false_2.
    + rewrite (bool_decide_eq_false_2 _ Hne). cbn [obj_get]. rewrite IH.
      destruct (decide (k0 = k')) as [->|Hne'].
      * rewrite bool_decide_eq_true_2 by done.
        by rewrite bool_decide_eq_false_2 by congruence.
      * by rewrite (bool_decide_eq_false_2 _ Hne').
Qed.

Lemma obj_get_None o k : obj_get o k = None <-> k ∉ o.*1.
Proof.
  induction o as [|[k0 v0] o IH]; cbn [obj_get fmap list_fmap fst].
  - split; [intros _; apply not_elem_of_nil|done].
  - rewrite not_elem_of_cons. destruct (decide (k0 = k)) as [->|Hne].
    + rewrite bool_decide_eq_true_2 by done. split; [done|]. by intros [? _].
    + rewrite (bool_decide_eq_false_2 _ Hne), IH. split; [by split|by intros [_ ?]].
Qed.

Lemma obj_get_Some o k v : NoDup o.*1 -> (obj_get o k = Some v <-> (k, v) ∈ o).
Proof.
  induction o as [|[k0 v0] o IH]; cbn [obj_get fmap list_fmap fst].
  - intros _. split; [done|by intros ?%elem_of_nil].
  - rewrite NoDup_cons. intros [Hn Hd]. rewrite elem_of_cons.
    destruct (decide (k0 = k)) as [->|Hne].
    + rewrite bool_decide_eq_true_2 by done. split.
      * intros [= ->]. by left.
      * intros [[= ->]|Hin]; [done|]. exfalso. apply Hn.
        apply list_elem_of_fmap. by exists (k, v).
    + rewrite (bool_decide_eq_false_2 _ Hne), (IH Hd). split; [by right|].
      intros [[= ? ?]|?]; [congruence|done].
Qed.

Lemma obj_set_keys o k v :
  (obj_set o k v).*1 = if bool_decide (k ∈ o.*1) then o.*1 else o.*1 ++ [k].
Proof.
  induction o as [|[k0 v0] o IH]; cbn [obj_set fmap list_fmap fst].
  - rewrite bool_decide_eq_false_2 by apply not_elem_of_nil. reflexivity.
  - destruct (decide (k0 = k)) as [->|Hne].
    + rewrite !bool_decide_eq_true_2; [done|left|done].
    + rewrite (bool_decide_eq_false_2 _ Hne). cbn [fmap list_fmap fst]. rewrite IH.
      destruct (decide (k ∈ o.*1)) as [Hin|Hin].
      * rewrite !bool_decide_eq_true_2; [done|by right|done].
      * rewrite !bool_decide_eq_false_2; [done| |done].
        rewrite not_elem_of_cons. split; [congruence|done].
Qed.

Lemma own_elem_of o k : own o k = true <-> k ∈ o.*1.
Proof.
  unfold own. pose proof (obj_get_None o k) as H.
  destruct (obj_get o k) as [v|]; split; try done.
  - intros _. destruct (decide (k ∈ o.*1)) as [|Hn]; [done|].
    apply H in Hn. discriminate Hn.
  - intros Hin. exfalso. by apply (proj1 H).
Qed.

Lemma is_proto_inherited k : is_proto k = true -> inherited k = true.
Proof.
  unfold is_proto, inherited. intros ->%bool_decide_eq_true.
  apply bool_decide_eq_true. apply (bool_decide_unpack _). vm_compute. exact I.
Qed.

(** What one assignment of the loop does to the own properties. *)
Lemma merge_entry_spec out k v :
  (merge_entry out (k, v) = None <-> spoils out k = true)
  /\ (forall out', merge_entry out (k, v) = Some out' ->
        (NoDup out.*1 -> NoDup out'.*1)
        /\ (forall k', k' <> k -> obj_get out' k' = obj_get out k')
        /\ obj_get out' k
           = if dropped out k then None
             else Some (or_opt_num (obj_get out k) 0 + or_num v 0)).
Proof.
  unfold merge_entry, obj_read, spoils, dropped, own. cbn [fst snd].
  assert (Hset : forall x, (NoDup out.*1 -> NoDup (obj_set out k x).*1)
                   /\ (forall k', k' <> k -> obj_get (obj_set out k x) k' = obj_get out k')
                   /\ obj_get (obj_set out k x) k = Some x).
  { intros x. split; [|split].
    - intros Hn. rewrite obj_set_keys. destruct (decide (k ∈ out.*1)) as [Hin|Hin].
      + by rewrite bool_decide_eq_true_2.
      + rewrite bool_decide_eq_false_2 by done. apply NoDup_app.
        split; [done|]. split; [|apply NoDup_singleton].
        by intros y Hy ->%list_elem_of_singleton.
    - intros k' Hne. rewrite obj_get_set. by rewrite bool_decide_eq_false_2.
    - rewrite obj_get_set. by rewrite bool_decide_eq_true_2. }
  destruct (obj_get out k) as [x|] eqn:Hg.
  - rewrite !andb_false_r. split; [done|]. intros out' [= <-].
    destruct (Hset (or_num x 0 + or_num v 0)) as (H1 & H2 & H3). by repeat split.
  - destruct (inherited k) eqn:Hi.
    + destruct (is_proto k) eqn:Hp; cbn.
      * split; [done|]. intros out' [= <-]. by repeat split.
      * split; [done|]. by intros out' [=].
    + assert (Hp : is_proto k = false).
      { destruct (is_proto k) eqn:Hp; [|done]. apply is_proto_inherited in Hp. congruence. }
      rewrite Hp. cbn. split; [done|]. intros out' [= <-].
      destruct (Hset (0 + or_num v 0)) as (H1 & H2 & H3). by repeat split.
Qed.

Lemma merge_counts_spec inc : forall base,
  NoDup inc.*1 ->
  (merge_counts base inc = None
   <-> Exists (fun e => spoils base (fst e) = true) inc)
  /\ (forall m, merge_counts base inc = Some m ->
        (NoDup base.*1 -> NoDup m.*1)
        /\ forall k,
             obj_get m k
             = match obj_get inc k with
               | Some v => if dropped base k then None
                           else Some (or_opt_num (obj_get base k) 0 + or_num v 0)
               | None => obj_get base k
               end).
Proof.
  induction inc as [|[k1 v1] inc IH]; intros base Hd; cbn [merge_counts].
  { split; [split; [done|by intros ?%Exists_nil]|].
    intros m [= <-]. split; [done|]. intros k. reflexivity. }
  cbn [fmap list_fmap fst] in Hd. apply NoDup_cons in Hd as [Hk1 Hd].
  destruct (merge_entry_spec base k1 v1) as [Hnone Hsome].
  assert (Hrest : forall out',
            (forall k', k' <> k1 -> obj_get out' k' = obj_get base k') ->
            forall e, e ∈ inc -> spoils out' (fst e) = spoils base (fst e)
                                 /\ dropped out' (fst e) = dropped base (fst e)).
  { intros out' Hsame e He. assert (Hne : fst e <> k1).
    { intros Heq. apply Hk1. rewrite <- Heq. apply list_elem_of_fmap. by exists e. }
    unfold spoils, dropped, own. by rewrite (Hsame _ Hne). }
  destruct (merge_entry base (k1, v1)) as [out'|] eqn:E.
  2: { split; [|by intros m [=]]. split; [|done]. intros _. left. cbn. by apply Hnone. }
  destruct (Hsome out' eq_refl) as (Hnd & Hsame & Hat).
  destruct (IH out' Hd) as [IHnone IHsome]. split.
  - rewrite IHnone, Exists_cons. cbn [fst]. split.
    + intros Hex. right. apply Exists_exists in Hex as (e & He & Hs).
      apply Exists_exists. exists e. split; [done|].
      by rewrite <- (proj1 (Hrest out' Hsame e He)).
    + intros [Hs|Hex].
      * apply Hnone in Hs. discriminate Hs.
      * apply Exists_exists in Hex as (e & He & Hs).
        apply Exists_exists. exists e. split; [done|].
        by rewrite (proj1 (Hrest out' Hsame e He)).
  - intros m Hm. destruct (IHsome m Hm) as [Hn Hget]. split; [by auto|].
    intros k. rewrite Hget. cbn [obj_get].
    destruct (decide (k1 = k)) as [->|Hne].
    + rewrite bool_decide_eq_true_2 by done.
      assert (Hnone' : obj_get inc k = None) by (by apply obj_get_None).
      by rewrite Hnone', Hat.
    + rewrite (bool_decide_eq_false_2 _ Hne).
      rewrite (Hsame k) by congruence.
      destruct (obj_get inc k) as [v|] eqn:Hv; [|done].
      assert (Hd' : dropped out' k = dropped base k).
      { unfold dropped, own. by rewrite (Hsame k) by congruence. }
      by rewrite Hd'.
Qed.

(** The counts after a merge that gives a histogram. *)
Lemma merge_counts_count base inc m k :
  NoDup inc.*1 -> merge_counts base inc = Some m ->
  or_opt_num (obj_get m k) 0
  = if dropped base k then 0
    else or_opt_num (obj_get base k) 0 + or_opt_num (obj_get inc k) 0.
Proof.
  intros Hd Hm. destruct (merge_counts_spec inc base Hd) as [_ H].
  destruct (H m Hm) as [_ Hget]. rewrite Hget.
  destruct (obj_get inc k) as [v|] eqn:Hv.
  - destruct (dropped base k); [done|]. cbn [or_opt_num]. by rewrite !or_num_0_r.
  - cbn [or_opt_num]. destruct (dropped base k) eqn:Hdr; [|lia].
    unfold dropped, own in Hdr. destruct (obj_get base k); [|done].
    by rewrite andb_false_r in Hdr.
Qed.

Lemma merge_counts_keys base inc m k :
  NoDup inc.*1 -> merge_counts base inc = Some m ->
  k ∈ m.*1 <-> k ∈ base.*1 \/ (k ∈ inc.*1 /\ dropped base k = false).
Proof.
  intros Hd Hm. destruct (merge_counts_spec inc base Hd) as [_ H].
  destruct (H m Hm) as [_ Hget]. rewrite <- !own_elem_of. unfold own at 1.
  rewrite Hget. unfold dropped. unfold own.
  destruct (obj_get inc k) as [v|]; destruct (obj_get base k) as [x|];
    destruct (is_proto k); cbn; intuition congruence.
Qed.

(** X25. [mergeProfiles] adds the histograms key by key. With [t0] and
    [t1] of both profiles holding each key once: the result fails to be a
    histogram of numbers exactly when the incoming profile has a key that
    names a property inherited from [Object.prototype] (other than
    [__proto__]) which the base does not have itself; an incoming
    [__proto__] the base does not have is dropped. Otherwise the count of
    every key is the sum of its counts in the two profiles (a missing key
    counting 0), the keys are those of either profile, each once; and for
    profiles without inherited names among their keys merging in the other
    order gives the same counts. *)
Theorem mergeProfiles_adds_counts (base inc : Profile) (k : jsstring) :
  NoDup (keys_of (t0 base)) -> NoDup (keys_of (t1 base)) ->
  NoDup (keys_of (t0 inc)) -> NoDup (keys_of (t1 inc)) ->
  (mergeProfiles base inc = None
   <-> Exists (fun e => spoils (default [] (t0 base)) (fst e) = true) (default [] (t0 inc))
       \/ Exists (fun e => spoils (default [] (t1 base)) (fst e) = true) (default [] (t1 inc)))
  /\ (forall merged, mergeProfiles base inc = Some merged ->
        NoDup (keys_of (t0 merged)) /\ NoDup (keys_of (t1 merged))
        /\ count_of (t0 merged) k
           = (if dropped (default [] (t0 base)) k then 0
              else count_of (t0 base) k + count_of (t0 inc) k)
        /\ count_of (t1 merged) k
           = (if dropped (default [] (t1 base)) k then 0
              else count_of (t1 base) k + count_of (t1 inc) k)
        /\ (k ∈ keys_of (t0 merged)
            <-> k ∈ keys_of (t0 base)
                \/ (k ∈ keys_of (t0 inc) /\ dropped (default [] (t0 base)) k = false))
        /\ (k ∈ keys_of (t1 merged)
            <-> k ∈ keys_of (t1 base)
                \/ (k ∈ keys_of (t1 inc) /\ dropped (default [] (t1 base)) k = false)))
  /\ (Forall (fun x => inherited x = false)
        (keys_of (t0 base) ++ keys_of (t1 base) ++ keys_of (t0 inc) ++ keys_of (t1 inc)) ->
      exists m m',
        mergeProfiles base inc = Some m /\ mergeProfiles inc base = Some m'
        /\ count_of (t0 m) k = count_of (t0 m') k
        /\ count_of (t1 m) k = count_of (t1 m') k).
Proof.
  unfold keys_of. intros B0 B1 I0 I1.
  set (b0 := default [] (t0 base)) in *. set (b1 := default [] (t1 base)) in *.
  set (i0 := default [] (t0 inc)) in *. set (i1 := default [] (t1 inc)) in *.
  destruct (merge_counts_spec i0 b0 I0) as [N0 S0].
  destruct (merge_counts_spec i1 b1 I1) as [N1 S1].
  assert (Hmp : forall a b,
            mergeProfiles a b
            = match merge_counts (default [] (t0 a)) (default [] (t0 b)),
                    merge_counts (default [] (t1 a)) (default [] (t1 b)) with
              | Some p, Some q => Some {| t0 := Some p; t1 := Some q; updated_at := None |}
              | _, _ => None
              end) by reflexivity.
  split; [|split].
  - rewrite (Hmp base inc). fold b0 b1 i0 i1. rewrite <- N0, <- N1.
    destruct (merge_counts b0 i0), (merge_counts b1 i1); split; try done;
      try (by intros [?|?]); by auto.
  - intros merged. rewrite (Hmp base inc). fold b0 b1 i0 i1.
    destruct (merge_counts b0 i0) as [m0|] eqn:E0; [|done].
    destruct (merge_counts b1 i1) as [m1|] eqn:E1; [|done].
    intros [= <-]. unfold count_of. cbn [t0 t1].
    change (default [] (Some m0)) with m0. change (default [] (Some m1)) with m1.
    fold b0 b1 i0 i1.
    split; [by apply (S0 m0 eq_refl)|]. split; [by apply (S1 m1 eq_refl)|].
    split; [by apply merge_counts_count|]. split; [by apply merge_counts_count|].
    split; by apply merge_counts_keys.
  - intros Hall. rewrite !Forall_app in Hall. destruct Hall as (F0 & F1 & G0 & G1).
    assert (Hclean : forall (a b : Counts),
              Forall (fun x => inherited x = false) b.*1 ->
              ~ Exists (fun e => spoils a (fst e) = true) b).
    { intros a b Hb Hex. apply Exists_exists in Hex as (e & He & Hs).
      rewrite Forall_forall in Hb. unfold spoils in Hs.
      rewrite (Hb (fst e)) in Hs; [done|]. apply list_elem_of_fmap. by exists e. }
    assert (Hsome : forall (a b : Counts), NoDup b.*1 ->
              Forall (fun x => inherited x = false) b.*1 ->
              exists m, merge_counts a b = Some m).
    { intros a b Hn Hb. destruct (merge_counts a b) as [m|] eqn:E; [by exists m|].
      exfalso. apply (Hclean a b Hb). by apply (merge_counts_spec b a Hn). }
    assert (Hcomm : forall (a b m m' : Counts), NoDup a.*1 -> NoDup b.*1 ->
              Forall (fun x => inherited x = false) a.*1 ->
              Forall (fun x => inherited x = false) b.*1 ->
              merge_counts a b = Some m -> merge_counts b a = Some m' ->
              or_opt_num (obj_get m k) 0 = or_opt_num (obj_get m' k) 0).
    { intros a b m m' Ha Hb Fa Fb Hm Hm'.
      rewrite (merge_counts_count a b m k Hb Hm), (merge_counts_count b a m' k Ha Hm').
      destruct (is_proto k) eqn:Hp.
      - apply is_proto_inherited in Hp.
        assert (Hna : obj_get a k = None).
        { apply obj_get_None. intros Hin. rewrite Forall_forall in Fa.
          rewrite (Fa k Hin) in Hp. done. }
        assert (Hnb : obj_get b k = None).
        { apply obj_get_None. intros Hin. rewrite Forall_forall in Fb.
          rewrite (Fb k Hin) in Hp. done. }
        rewrite Hna, Hnb. cbn. by destruct (dropped a k), (dropped b k).
      - unfold dropped. rewrite Hp. cbn. lia. }
    destruct (Hsome b0 i0 I0 G0) as (m0 & E0). destruct (Hsome b1 i1 I1 G1) as (m1 & E1).
    destruct (Hsome i0 b0 B0 F0) as (m0' & E0'). destruct (Hsome i1 b1 B1 F1) as (m1' & E1').
    eexists _, _. rewrite (Hmp base inc), (Hmp inc base).
    fold b0 b1 i0 i1. rewrite E0, E1, E0', E1'.
    split; [reflexivity|]. split; [reflexivity|].
    unfold count_of. cbn [t0 t1].
    change (default [] (Some m0)) with m0. change (default [] (Some m1)) with m1.
    change (default [] (Some m0')) with m0'. change (default [] (Some m1')) with m1'.
    split; [by eapply (Hcomm b0 i0)|by eapply (Hcomm b1 i1)].
Qed.

Lemma mergeProfiles_adds_counts_witness :
  let base := {| t0 := Some [(str "Music", 2); (str "Sport", 1)]; t1 := None;
                 updated_at := Some 5 |} in
  let inc := {| t0 := Some [(str "Sport", 4); (str "News", 3)]; t1 := None;
                updated_at := None |} in
  exists merged, mergeProfiles base inc = Some merged
                 /\ count_of (t0 merged) (str "Sport") = 1 + 4.
Proof.
  cbv zeta. eexists. split; [vm_compute; reflexivity|].
  refine (proj1 (proj2 (proj2 (proj1 (proj2 (mergeProfiles_adds_counts
            {| t0 := Some [(str "Music", 2); (str "Sport", 1)]; t1 := None;
               updated_at := Some 5 |}
            {| t0 := Some [(str "Sport", 4); (str "News", 3)]; t1 := None;
               updated_at := None |} (str "Sport") _ _ _ _)) _ _))));
    try (apply (bool_decide_unpack _); vm_compute; exact I).
  vm_compute. reflexivity.
Defined.

(** A tag named [constructor] that the base does not have: the value the
    loop writes is a string, and the result is no histogram. *)
Example mergeProfiles_inherited_name :
  mergeProfiles {| t0 := Some [(str "Music", 2)]; t1 := None; updated_at := None |}
                {| t0 := Some [(str "constructor", 1)]; t1 := None; updated_at := None |}
  = None.
Proof. vm_compute. reflexivity. Qed.

(** ** The tags of a recommendation *)

Lemma cut_no_gt_None (s : jsstring) : no_gt s -> cut (str " > ") s = None.
Proof.
  induction s as [|x s IH]; intros Hs; [reflexivity|].
  apply Forall_cons in Hs as [Hx Hs]. cbn [cut].
  replace (startsWith (str " > ") (x :: s)) with false.
  - by rewrite (IH Hs).
  - symmetry. change (str " > ") with [32%N; 62%N; 32%N]. cbn [startsWith].
    destruct (N.eqb_spec 32 x); [|done]. cbn [andb].
    destruct s as [|y s]; [done|]. apply Forall_cons in Hs as [Hy _].
    destruct (N.eqb_spec 62 y); [congruence|done].
Qed.

Lemma cut_no_gt_Some (a b : jsstring) :
  no_gt a -> cut (str " > ") (a ++ str " > " ++ b) = Some (a, b).
Proof.
  induction a as [|x a IH]; intros Ha; [reflexivity|].
  apply Forall_cons in Ha as [Hx Ha]. cbn [app cut].
  replace (startsWith (str " > ") (x :: a ++ str " > " ++ b)) with false.
  - by rewrite (IH Ha).
  - symmetry. change (str " > ") with [32%N; 62%N; 32%N]. cbn [startsWith].
    destruct (N.eqb_spec 32 x); [|done]. cbn [andb].
    destruct a as [|y a]; [done|]. apply Forall_cons in Ha as [Hy _]. cbn [app].
    destruct (N.eqb_spec 62 y); [congruence|done].
Qed.

Lemma child_tag_plain (k : jsstring) : no_gt k -> child_tag k = k.
Proof. intros Hk. unfold child_tag, includes. by rewrite cut_no_gt_None. Qed.

Lemma child_tag_child (parent child : jsstring) :
  no_gt parent -> no_gt child ->
  child_tag (parent ++ str " > " ++ child) = child.
Proof.
  intros Hp Hc. unfold child_tag, includes, split_str.
  rewrite (cut_no_gt_Some parent child Hp).
  destruct (length (parent ++ str " > " ++ child)) as [|n] eqn:E.
  { rewrite length_app in E. cbn in E. lia. }
  cbn [split_str_go]. rewrite (cut_no_gt_Some parent child Hp).
  destruct n; cbn [split_str_go nth]; by rewrite (cut_no_gt_None child Hc).
Qed.

Lemma uniq_loop_spec (mapped : list jsstring) : forall uniq,
  NoDup uniq -> (length uniq < 3)%nat ->
  NoDup (uniq_loop mapped uniq)
  /\ (length (uniq_loop mapped uniq) <= 3)%nat
  /\ (forall t, t ∈ uniq_loop mapped uniq -> t ∈ uniq \/ t ∈ mapped)
  /\ (forall t, t ∈ uniq -> t ∈ uniq_loop mapped uniq)
  /\ ((length (uniq_loop mapped uniq) < 3)%nat ->
      forall t, t ∈ mapped -> t ∈ uniq_loop mapped uniq).
Proof.
  induction mapped as [|t mapped IH]; intros uniq Hn Hl; cbn [uniq_loop].
  { split; [done|]. split; [lia|]. split; [by left|]. split; [done|].
    by intros _ t ?%elem_of_nil. }
  set (uniq' := if bool_decide (t ∈ uniq) then uniq else uniq ++ [t]).
  assert (H' : NoDup uniq' /\ (length uniq' <= 3)%nat
               /\ (forall x, x ∈ uniq' <-> x ∈ uniq \/ x = t)).
  { unfold uniq'. destruct (decide (t ∈ uniq)) as [Hin|Hin].
    - rewrite bool_decide_eq_true_2 by done. split; [done|]. split; [lia|].
      intros x. split; [by left|]. by intros [?| ->].
    - rewrite bool_decide_eq_false_2 by done. split.
      { apply NoDup_app. split; [done|]. split; [|apply NoDup_singleton].
        by intros x Hx ->%list_elem_of_singleton. }
      split; [rewrite length_app; simpl; lia|].
      intros x. by rewrite elem_of_app, list_elem_of_singleton. }
  destruct H' as (Hn' & Hl' & Hm').
  destruct (Nat.leb_spec 3 (length uniq')) as [Hge|Hlt].
  - split; [done|]. split; [done|]. split.
    { intros x Hx. apply Hm' in Hx as [?| ->]; [by left|right; left]. }
    split; [intros x Hx; apply Hm'; by left|]. lia.
  - destruct (IH uniq' Hn' Hlt) as (I1 & I2 & I3 & I4 & I5).
    split; [done|]. split; [done|]. split.
    { intros x Hx. apply I3 in Hx as [Hx|Hx]; [|right; by right].
      apply Hm' in Hx as [?| ->]; [by left|right; left]. }
    split; [intros x Hx; apply I4, Hm'; by left|].
    intros Hlen x [->|Hx]%elem_of_cons; [apply I4, Hm'; by right|by apply I5].
Qed.

(** X26. [topThreeT1] picks the recommendation's tags: at most three,
    distinct, none empty, each the child name of a ranked tag; when fewer
    than three come back, no ranked tag has another child name. The child
    name of [Parent > Child] is [Child], and a tag without [>] is its own
    child name. *)
Theorem topThreeT1_first_distinct (tagsRanked : list (jsstring * Z)) :
  (length (topThreeT1 tagsRanked) <= 3)%nat
  /\ NoDup (topThreeT1 tagsRanked)
  /\ (forall t, t ∈ topThreeT1 tagsRanked ->
        t <> [] /\ exists e, e ∈ tagsRanked /\ child_tag (fst e) = t)
  /\ ((length (topThreeT1 tagsRanked) < 3)%nat ->
      forall e, e ∈ tagsRanked -> child_tag (fst e) <> [] ->
                child_tag (fst e) ∈ topThreeT1 tagsRanked)
  /\ (forall parent child, no_gt parent -> no_gt child ->
        child_tag (parent ++ str " > " ++ child) = child /\ child_tag child = child).
Proof.
  unfold topThreeT1.
  set (mapped := List.filter truthy_str (map (fun e => child_tag (fst e)) tagsRanked)).
  destruct (uniq_loop_spec mapped [] NoDup_nil_2 ltac:(simpl; lia))
    as (H1 & H2 & H3 & _ & H5).
  rewrite take_ge by exact H2.
  assert (Hm : forall t, t ∈ mapped <-> t <> [] /\ exists e, e ∈ tagsRanked /\ child_tag (fst e) = t).
  { intros t. unfold mapped. rewrite list_elem_of_In, filter_In, in_map_iff. split.
    - intros [(e & He & Hin) Ht]. split; [by destruct t|].
      exists e. by rewrite list_elem_of_In.
    - intros [Ht (e & Hin & He)]. split; [|by destruct t].
      exists e. by rewrite <- list_elem_of_In. }
  split; [exact H2|]. split; [exact H1|]. split.
  { intros t Ht. apply H3 in Ht as [Ht|Ht]; [by apply elem_of_nil in Ht|by apply Hm]. }
  split.
  { intros Hlen e He Hne. apply (H5 Hlen). apply Hm. split; [done|by exists e]. }
  intros parent child Hp Hc. split; [by apply child_tag_child|by apply child_tag_plain].
Qed.

(* ===================================================================== *)
(** * The relay *)
(* ===================================================================== *)

Section RelayFacts.
Context {rt : JSRuntime}.

(** An action of the vocabulary is answered exactly once, unless the
    listener stays at the [await] of [getRecent] or [clearAll]; then it
    is not answered. *)
Lemma onMessage_responses (msg : Msg) (w : World) :
  m_type msg ∈ vocabulary ->
  (fst (onMessage (Some msg) w) = Ret tt
   /\ exists r, w_sent (snd (onMessage (Some msg) w)) = w_sent w ++ [r])
  \/ (fst (onMessage (Some msg) w) = Never
      /\ w_sent (snd (onMessage (Some msg) w)) = w_sent w
      /\ m_type msg ∈ idb_actions).
Proof.
  intros Hv. pose proof (answers_once_dispatch msg Hv w) as H.
  unfold onMessage, try_catch.
  destruct (dispatch (Some msg) w) as [[[]|e|] w1] eqn:E; cbn [fst snd].
  - left. split; [done|]. destruct H as (r & _ & H). by exists r.
  - left. split; [done|]. exists (resp_error e). cbn. by rewrite H.
  - right. split; [done|]. split; [exact H|]. unfold idb_actions.
    destruct (decide (m_type msg = "LCL_GET_RECENT"%string)) as [->|N1];
      [right; left|].
    destruct (decide (m_type msg = "LCL_CLEAR"%string)) as [->|N2];
      [right; right; left|].
    exfalso. apply (settles_dispatch msg N1 N2 w). by rewrite E.
Qed.

Lemma runtime_sendMessage_answered (msg : Msg) (w : World) (r : Response) :
  w_sent (snd (onMessage (Some msg) w)) = w_sent w ++ [r] ->
  runtime_sendMessage msg w = (CallbackWith (Some r), snd (onMessage (Some msg) w)).
Proof. intros Hr. unfold runtime_sendMessage. by rewrite Hr, drop_app_length. Qed.

Lemma runtime_sendMessage_unanswered (msg : Msg) (w : World) :
  w_sent (snd (onMessage (Some msg) w)) = w_sent w ->
  runtime_sendMessage msg w = (NoCallback, snd (onMessage (Some msg) w)).
Proof. intros Hr. unfold runtime_sendMessage. by rewrite Hr, drop_all. Qed.

(** X27. What the relay lets through. A window message is forwarded only
    when its namespace is [thyself-bridge] and it comes from localhost or
    127.0.0.1 on port 3000; anything else, the relay's own replies
    included, is dropped without a call to the service worker and without
    a reply. A reply carries the namespace [thyself-extension] and the
    request's id; when the call to the service worker itself throws, the
    reply is [{ok: false, error}] and nothing was handled. *)
Theorem relay_scope (threw : option jsstring) (origin : option Origin)
    (d : WindowData) (w : World) :
  (isValidOrigin origin = true
   <-> exists url, origin = Some url
                   /\ (hostname url = str "localhost" \/ hostname url = str "127.0.0.1")
                   /\ port url = str "3000")
  /\ relay_listener threw origin None w = (None, w)
  /\ (wd_namespace d <> NAMESPACE_IN \/ isValidOrigin origin = false ->
      relay_listener threw origin (Some d) w = (None, w))
  /\ (wd_namespace d = NAMESPACE_OUT -> relay_listener threw origin (Some d) w = (None, w))
  /\ (forall reply, fst (relay_listener threw origin (Some d) w) = Some reply ->
        wd_namespace reply = NAMESPACE_OUT /\ wd_requestId reply = wd_requestId d
        /\ wd_namespace d = NAMESPACE_IN /\ isValidOrigin origin = true)
  /\ (forall e, wd_namespace d = NAMESPACE_IN -> isValidOrigin origin = true ->
        threw = Some e ->
        relay_listener threw origin (Some d) w
        = (Some {| wd_namespace := NAMESPACE_OUT; wd_action := None; wd_payload := None;
                   wd_requestId := wd_requestId d;
                   wd_response := Some (resp_error e) |}, w)).
Proof.
  split.
  { unfold isValidOrigin. destruct origin as [url|].
    - rewrite andb_true_iff, orb_true_iff, !bool_decide_eq_true. split.
      + intros [H1 H2]. by exists url.
      + by intros (? & [= <-] & H1 & H2).
    - split; [done|]. by intros (? & ? & _). }
  split; [reflexivity|].
  assert (Hout : wd_namespace d = NAMESPACE_OUT -> wd_namespace d <> NAMESPACE_IN).
  { intros ->. done. }
  assert (Hdrop : wd_namespace d <> NAMESPACE_IN \/ isValidOrigin origin = false ->
                  relay_listener threw origin (Some d) w = (None, w)).
  { unfold relay_listener. intros [Hn|Ho].
    - by rewrite bool_decide_eq_false_2.
    - rewrite Ho. by destruct (bool_decide _). }
  split; [exact Hdrop|]. split; [intros H; apply Hdrop; left; by apply Hout|].
  split.
  - intros reply. unfold relay_listener.
    destruct (decide (wd_namespace d = NAMESPACE_IN)) as [Hn|Hn].
    2: { by rewrite bool_decide_eq_false_2. }
    rewrite bool_decide_eq_true_2 by done. cbn [negb].
    destruct (isValidOrigin origin); cbn [negb]; [|done].
    destruct (forward threw (wd_action d) (default no_fields (wd_payload d)) w)
      as [[resp|] w']; cbn [fst]; [|done].
    by intros [= <-].
  - intros e Hn Ho ->. unfold relay_listener.
    rewrite bool_decide_eq_true_2 by done. by rewrite Ho.
Qed.

(** X28. A request through the relay, end to end: an action of the
    vocabulary posted by [pmSend] on a page of a valid origin, with a
    payload that has no [type] property of its own (such a property would
    replace the action). The relay hands the message to the service
    worker. When the listener there runs to its end, it has answered once,
    the relay posts that answer back under the request's id, and when the
    reply reaches the page before the timeout [send] returns it without
    touching the direct transport; the page's own request, which its
    listener also receives, is ignored. This is always so for the actions
    that stay in the storage, which are all the web bridge sends. For an
    action that goes to IndexedDB the listener can stay at an [await]
    (as for [LCL_GET_RECENT] and [LCL_CLEAR] when their request fails):
    then nothing is answered, the relay posts nothing, and [send] falls
    back to the direct transport after the timeout. *)
Theorem relay_round_trip (type : string) (payload : option Fields)
    (origin : option Origin) (p : Page) (w : World) (t : Z) :
  type ∈ vocabulary ->
  f_type (default no_fields payload) = None ->
  isValidOrigin origin = true ->
  hasWindow p = true ->
  0 <= t < default_timeoutMs ->
  let req := pm_request type payload p in
  let msg := spread (Some type) (default no_fields payload) in
  (fst (onMessage (Some msg) w) = Ret tt
   \/ (fst (onMessage (Some msg) w) = Never /\ type ∈ idb_actions))
  /\ (fst (onMessage (Some msg) w) = Ret tt ->
      exists r,
        relay_listener None origin (Some req) w
        = (Some {| wd_namespace := NAMESPACE_OUT; wd_action := None; wd_payload := None;
                   wd_requestId := nextRequestId p; wd_response := Some r |},
           snd (onMessage (Some msg) w))
        /\ w_sent (snd (onMessage (Some msg) w)) = w_sent w ++ [r]
        /\ (forall reply,
              fst (relay_listener None origin (Some req) w) = Some reply ->
              inbox p = [(0, Some (seen_by_page req)); (t, Some (seen_by_page reply))] ->
              send p = (Some r, [CallRelay])))
  /\ (fst (onMessage (Some msg) w) = Never ->
      relay_listener None origin (Some req) w = (None, snd (onMessage (Some msg) w))
      /\ w_sent (snd (onMessage (Some msg) w)) = w_sent w
      /\ (inbox p = [(0, Some (seen_by_page req))] ->
          send p = (fst (runtimeSend p), CallRelay :: snd (runtimeSend p)))).
Proof.
  intros Hv Hty Ho Hw Ht req msg.
  assert (Hmt : m_type msg = type).
  { unfold msg, spread. cbn [m_type]. by rewrite Hty. }
  assert (Hm : m_type msg ∈ vocabulary) by (by rewrite Hmt).
  assert (Hrelay : relay_listener None origin (Some req) w
                   = match runtime_sendMessage msg w with
                     | (CallbackWith resp, w') =>
                         (Some {| wd_namespace := NAMESPACE_OUT; wd_action := None;
                                  wd_payload := None; wd_requestId := nextRequestId p;
                                  wd_response := resp |}, w')
                     | (NoCallback, w') => (None, w')
                     end).
  { unfold relay_listener, req, pm_request.
    cbn [wd_namespace wd_action wd_payload wd_requestId].
    change (default no_fields (Some (default no_fields payload)))
      with (default no_fields payload).
    rewrite bool_decide_eq_true_2 by reflexivity. rewrite Ho. cbn [negb forward].
    fold msg. reflexivity. }
  assert (Hecho : pm_listener (nextRequestId p) pm_start (Some (seen_by_page req))
                  = pm_start).
  { unfold pm_listener. cbn [pm_start pm_listening negb].
    unfold seen_by_page, req, pm_request. cbn [wd_namespace bd_namespace].
    replace (bool_decide (PM_NAMESPACE_IN = PM_NAMESPACE_OUT)) with false
      by (symmetry; by apply bool_decide_eq_false_2).
    reflexivity. }
  unfold default_timeoutMs in Ht.
  destruct (onMessage_responses msg w Hm) as [[Hret (r & Hr)]|(Hnev & Hs & Hcase)].
  - split; [by left|]. split; [|by rewrite Hret].
    intros _. exists r.
    rewrite Hrelay, (runtime_sendMessage_answered msg w r Hr).
    split; [reflexivity|]. split; [exact Hr|].
    cbn [fst]. intros reply [= <-] Hin.
    unfold send, pmSend. rewrite Hw, Hin. cbn [negb].
    unfold default_timeoutMs. cbn [pm_run fst snd].
    destruct (Z.leb_spec 1500 0) as [?|_]; [lia|].
    destruct (Z.leb_spec 1500 t) as [?|_]; [lia|].
    cbn [negb andb]. rewrite Hecho.
    unfold pm_listener. cbn [pm_start pm_listening negb seen_by_page
      wd_namespace wd_requestId wd_response bd_namespace bd_requestId bd_response].
    rewrite !bool_decide_eq_true_2 by reflexivity.
    cbn [negb orb pm_timeout pm_done pm_settled resolve]. reflexivity.
  - split; [right; split; [done|by rewrite <- Hmt]|].
    split; [by rewrite Hnev|].
    intros _. rewrite Hrelay, (runtime_sendMessage_unanswered msg w Hs).
    split; [reflexivity|]. split; [exact Hs|].
    intros Hin. unfold send, pmSend. rewrite Hw, Hin. cbn [negb].
    unfold default_timeoutMs. cbn [pm_run fst snd].
    destruct (Z.leb_spec 1500 0) as [?|_]; [lia|].
    cbn [negb andb]. rewrite Hecho. cbn.
    by destruct (runtimeSend p).
Qed.
End RelayFacts.

Lemma relay_round_trip_witness :
  let p := page_receiving
             [(0, Some {| bd_namespace := PM_NAMESPACE_IN; bd_requestId := str "r1";
                          bd_response := None |});
              (40, relay_msg "r1" (Some (resp_data (DTitles []))))] in
  exists r,
    w_sent (snd (onMessage (rt := latin_runtime)
                   (Some (spread (Some "GET_TITLES"%string) no_fields))
                   (quiet_world empty_store 7))) = [r]
    /\ send p = (Some r, [CallRelay]).
Proof.
  cbv zeta.
  destruct (relay_round_trip (rt := latin_runtime) "GET_TITLES" None
              (Some {| hostname := str "localhost"; port := str "3000" |})
              (page_receiving
                 [(0, Some {| bd_namespace := PM_NAMESPACE_IN; bd_requestId := str "r1";
                              bd_response := None |});
                  (40, relay_msg "r1" (Some (resp_data (DTitles []))))])
              (quiet_world empty_store 7) 40)
    as (_ & Hanswered & _).
  - apply (bool_decide_unpack _). vm_compute. exact I.
  - reflexivity.
  - vm_compute. reflexivity.
  - reflexivity.
  - unfold default_timeoutMs. lia.
  - destruct (Hanswered eq_refl) as (r & Hrel & Hs & Hsend).
    exists r. split; [exact Hs|].
    eapply Hsend; [rewrite Hrel; reflexivity|].
    cbn [page_receiving inbox]. unfold relay_msg, seen_by_page, pm_request.
    cbn [wd_namespace wd_requestId wd_response page_receiving nextRequestId].
    repeat f_equal.
    vm_compute in Hrel. by injection Hrel as <-.
Defined.

(* ===================================================================== *)
(** * The recommendation *)
(* ===================================================================== *)

Lemma postRecommend_titled (res : Fetched) (piece : RecommendPiece) :
  postRecommend res = Some piece -> rp_title piece <> [].
Proof.
  assert (Hm : forall p, rp_title (mapImage p) <> []).
  { intros p. unfold mapImage. cbn [rp_title]. by destruct (j_title p) as [[|c t]|]. }
  destruct res as [|status [data|]]; cbn [postRecommend]; try done;
    destruct (res_ok status); cbn [negb]; try done.
  intros [= <-]. destruct data as [|[p|] [] [] own]; try apply Hm; done.
Qed.

Lemma piece_to_append_Some today res piece :
  postRecommend res = Some piece ->
  exists p, piece_to_append today res = Some p
            /\ p_title p = Some (rp_title piece) /\ p_url p = Some (rp_url piece)
            /\ p_date p = Some today.
Proof.
  intros Hp. pose proof (postRecommend_titled res piece Hp) as Ht.
  unfold piece_to_append. rewrite Hp.
  destruct (rp_title piece) as [|c t] eqn:E; [done|]. cbn [truthy_str].
  eexists. split; [reflexivity|]. by repeat split.
Qed.

Lemma route_status (status : Z) (body : option Json) :
  recommend_route (Responded status body)
  = if json_response_throws status then Responded 500 (Some error_body)
    else Responded status (Some (default error_body body)).
Proof. reflexivity. Qed.

Lemma ok_status_passes (status : Z) :
  res_ok status = true ->
  json_response_throws status = bool_decide (status = 204 \/ status = 205).
Proof.
  unfold res_ok, json_response_throws, null_body_status.
  intros [H1 H2]%andb_prop. apply Z.leb_le in H1, H2.
  destruct (decide (status = 204 \/ status = 205)) as [[->| ->]|Hn].
  - by rewrite bool_decide_eq_true_2 by (by left).
  - by rewrite bool_decide_eq_true_2 by (by right).
  - rewrite bool_decide_eq_false_2 by done.
    repeat match goal with
           | |- context [?a <? ?b] => destruct (Z.ltb_spec a b); try lia
           | |- context [?a =? ?b] => destruct (Z.eqb_spec a b); try lia
           end; done.
Qed.

(** X30. A recommendation always has a title. [postRecommend] throws
    exactly when the request fails, the status is not ok, or the body is
    not JSON; whenever it returns, the title of the piece is not empty
    (['Untitled'] stands in for a missing one), so the analysis page,
    once it asks for a recommendation, appends a piece for every such
    answer, and the archive stores it under that title with the date of
    the page. Behind the proxy route a piece is appended exactly for the
    answers of the analyzer with an ok status other than 204 and 205,
    whose response the route cannot make and answers with 500; a body
    that is not JSON is no obstacle, and without a usable piece what is
    archived is ['Untitled'] with an empty url. *)
Theorem recommendation_always_titled (today today' : jsstring) (res : Fetched) :
  (postRecommend res = None
   <-> res = FetchThrows
       \/ (exists status body, res = Responded status body /\ res_ok status = false)
       \/ (exists status, res = Responded status None))
  /\ (forall piece, postRecommend res = Some piece ->
        rp_title piece <> []
        /\ exists p, piece_to_append today res = Some p
                     /\ p_title p = Some (rp_title piece)
                     /\ p_url p = Some (rp_url piece)
                     /\ p_title (storedPiece today' p) = Some (rp_title piece)
                     /\ p_date (storedPiece today' p) = Some (or_str today today'))
  /\ (forall status body,
        (exists p, piece_to_append today (recommend_route (Responded status body)) = Some p)
        <-> res_ok status = true /\ status <> 204 /\ status <> 205)
  /\ piece_to_append today (recommend_route FetchThrows) = None
  /\ (forall status body p,
        piece_to_append today (recommend_route (Responded status body)) = Some p ->
        (body = None \/ body = Some JNotObject
         \/ (exists t u own, body = Some (JObject None t u own) /\ t && u = false)) ->
        p_title p = Some (str "Untitled") /\ p_url p = Some []
        /\ p_source p = None /\ p_image_url p = None).
Proof.
  split.
  { split.
    - destruct res as [|status [data|]]; cbn [postRecommend]; intros H.
      + by left.
      + destruct (res_ok status) eqn:Hok; cbn [negb] in H; [done|].
        right. left. by eexists _, _.
      + right. right. by eexists.
    - intros [->|[(status & body & -> & Hok)|(status & ->)]]; cbn [postRecommend].
      + done.
      + by rewrite Hok.
      + by destruct (res_ok status). }
  split.
  { intros piece Hp. split; [by eapply postRecommend_titled|].
    destruct (piece_to_append_Some today res piece Hp) as (p & Hpa & Ht & Hu & Hd).
    exists p. split; [done|]. split; [done|]. split; [done|].
    unfold storedPiece. cbn [p_title p_date]. rewrite Ht, Hd. cbn [or_opt_str].
    split; [|done]. pose proof (postRecommend_titled res piece Hp).
    by destruct (rp_title piece). }
  assert (Hroute : forall status body,
            res_ok status = true -> status <> 204 -> status <> 205 ->
            recommend_route (Responded status body)
            = Responded status (Some (default error_body body))).
  { intros status body Hok H4 H5. rewrite route_status, (ok_status_passes status Hok).
    rewrite bool_decide_eq_false_2; [done|]. by intros [?|?]. }
  split.
  { intros status body. split.
    - intros (p & Hp). rewrite route_status in Hp.
      destruct (res_ok status) eqn:Hok.
      + rewrite (ok_status_passes status Hok) in Hp.
        destruct (decide (status = 204 \/ status = 205)) as [Hd|Hd].
        * by rewrite bool_decide_eq_true_2 in Hp by done.
        * split; [done|]. split; intros ->; apply Hd; auto.
      + destruct (json_response_throws status); [done|].
        unfold piece_to_append, postRecommend in Hp. by rewrite Hok in Hp.
    - intros (Hok & H4 & H5). rewrite (Hroute status body Hok H4 H5).
      destruct (postRecommend (Responded status (Some (default error_body body))))
        as [piece|] eqn:E.
      + destruct (piece_to_append_Some today _ piece E) as (p & Hp & _). by exists p.
      + cbn [postRecommend] in E. by rewrite Hok in E. }
  split; [reflexivity|].
  intros status body p Hp Hb. rewrite route_status in Hp.
  destruct (json_response_throws status); [done|].
  unfold piece_to_append, postRecommend in Hp.
  destruct (res_ok status); cbn [negb] in Hp; [|done].
  destruct Hb as [->|[->|(t & u & own & -> & Htu)]]; cbn in Hp.
  - by injection Hp as <-.
  - by injection Hp as <-.
  - destruct t, u; try done; cbn in Hp; by injection Hp as <-.
Qed.

(** The analyzer answers 204 No Content: the route cannot make a response
    with a body for that status and answers 500; [postRecommend] throws
    and nothing is appended. *)
Example no_content_is_not_appended :
  recommend_route (Responded 204 None) = Responded 500 (Some error_body)
  /\ piece_to_append (str "2025/01/01") (recommend_route (Responded 204 None)) = None.
Proof. by split. Qed.
